(** * The HE-SEAL executable: modulus-chain management, kernel dispatch and
      client-aided offload

    A shallow embedding of [src/seal/he_seal_executable.cpp] and of the parts
    of [he_seal_backend.hpp] it relies on.  Member functions of
    [HESealExecutable] become functions in a state-and-exception monad over
    the members they touch; kernels and serialisation routines whose
    translation units are not part of the sources are fields of the class
    [SealEnv].  The modulus-chain manager of [seal_util.cpp] is modelled from
    its specification in the module [SealUtil], and so is the compilation
    check of the backend.  The Add kernel of
    [src/seal/kernel/add_seal.cpp] is in the module [AddSeal], the encryption
    parameters of [src/seal/he_seal_encryption_parameters.cpp] in the module
    [EncryptionParameters], and the key exchange and the receipt of the
    client's inputs on the session thread in the module [Session]. *)

From Stdlib Require Import List ZArith NArith QArith Qabs String Bool Arith Lia Lqa.
Import ListNotations.

Set Implicit Arguments.
Close Scope Q_scope.

(** ** Exceptions and results *)

(** The exceptions the program raises: [ngraph::CheckFailure] from a failed
    [NGRAPH_CHECK], [unsupported_op] from the dispatch switch, the two
    failures of the modulus manager, an access outside a container (which
    C++ leaves undefined for a vector and the model turns into an error), and
    [blocked] for a condition-variable wait whose predicate never comes
    true. *)
Inductive he_error : Type :=
  | CheckFailure (msg : string)
  | unsupported_op (msg : string)
  | ScaleMismatch
  | ChainExhausted
  | out_of_range
  | blocked.

Inductive Result (A : Type) : Type :=
  | Ok (a : A)
  | Err (e : he_error).

Arguments Ok {A} a.
Arguments Err {A} e.

Definition rbind {A B} (r : Result A) (k : A -> Result B) : Result B :=
  match r with
  | Ok a => k a
  | Err e => Err e
  end.

Notation "x <-? r ;; k" := (rbind r (fun x => k))
  (at level 61, r at next level, right associativity).

Fixpoint mapR {A B} (f : A -> Result B) (l : list A) : Result (list B) :=
  match l with
  | [] => Ok []
  | x :: xs => y <-? f x ;; ys <-? mapR f xs ;; Ok (y :: ys)
  end.

Definition is_ok {A} (r : Result A) : bool :=
  match r with Ok _ => true | Err _ => false end.

(** ** Operator identifiers

    [OP_TYPEID] as the switch of [generate_calls] enumerates it (the switch
    is compiled with [-Wswitch-enum] as an error, so its labels are the whole
    enumeration).  [Parameter_] stands for [OP_TYPEID::Parameter]. *)
Module OP_TYPEID.

Inductive t : Set :=
  | Add | AvgPool | BatchNormInference | BoundedRelu | Broadcast | Concat
  | Constant | Convolution | Divide | Dot | Exp | Max | MaxPool | Minimum
  | Multiply | Negative | Pad | Parameter_ | Power | Relu | Reshape | Result
  | Reverse | Slice | Softmax | Subtract | Sum
  | Abs | Acos | All | AllReduce | And | Any | ArgMax | ArgMin | Asin | Atan
  | Atan2 | AvgPoolBackprop | BatchMatMul | BatchMatMulTranspose
  | BatchNormTraining | BatchNormTrainingBackprop | BroadcastDistributed
  | BroadcastLike | Ceiling | Clamp | Convert | ConvolutionBackpropData
  | ConvolutionBackpropFilters | ConvolutionBias | ConvolutionBiasAdd
  | ConvolutionBiasBackpropFiltersBias | Cos | Cosh | CrossEntropy
  | CrossEntropyBackprop | CropAndResize | CumSum | DepthToSpace
  | Dequantize | DynBroadcast | DynPad | DynReshape | DynSlice
  | DynReplaceSlice | Elu | EmbeddingLookup | Equal | Erf | FakeQuantize
  | Floor | Gather | GatherND | GenerateMask | GetOutputElement | Gelu
  | Gemm | GroupConvolution | GroupConvolutionBackpropData
  | GroupConvolutionBackpropFilters | GroupConvolutionTranspose
  | GeluBackpropFactor | Greater | GreaterEq | GRN | GRUCell | HardSigmoid
  | Interpolate | LayerNorm | LayerNormBackprop | Less | LessEq | Log | LRN
  | LSTMCell | LSTMSequence | Maximum | MatMul | MaxPoolBackprop | MVN
  | Min | NormalizeL2 | Not | NotEqual | OneHot | Or | Passthrough | PRelu
  | PartialSlice | PartialSliceBackprop | Product | Quantize
  | QuantizedConvolutionBias | QuantizedConvolutionBiasAdd
  | QuantizedConvolutionBiasSignedAdd | QuantizedConvolutionRelu
  | QuantizedConvolution | QuantizedDot | QuantizedDotBias | Recv | Range
  | RandomUniform | ReluBackprop | ReplaceSlice | ReverseSequence | Round
  | RNNCell | ScalarConstantLike | ScaleShift | ScatterAdd | ScatterND
  | ScatterNDAdd | ShapeOf | Send | Select | Selu | ShuffleChannels
  | Sigmoid | SigmoidBackprop | Sign | Sin | Sinh | SoftmaxCrossEntropy
  | SoftmaxCrossEntropyBackprop | SpaceToDepth | Split | SquaredDifference
  | Squeeze | Sqrt | Stack | StopGradient | Tan | Tanh | TensorIterator
  | Tile | TopK | Unsqueeze | Xor | UnknownOp.

(** The operator set of the specification, section 6. *)
Definition supported (op : t) : bool :=
  match op with
  | Add | AvgPool | BatchNormInference | BoundedRelu | Broadcast | Concat
  | Constant | Convolution | Divide | Dot | Exp | Max | MaxPool | Minimum
  | Multiply | Negative | Pad | Parameter_ | Power | Relu | Reshape | Result
  | Reverse | Slice | Softmax | Subtract | Sum => true
  | _ => false
  end.

End OP_TYPEID.

(** ** Tagged values and tensors *)

(** [HEPlaintext]: the values of one plaintext slot. *)
Definition HEPlaintext : Type := list Q.

(** What the program reads off a ciphertext: the chain index of its
    [parms_id] ([HESealBackend::get_chain_index]), its scale, and the values
    its polynomial carries, i.e. the plaintext values multiplied by the
    scale. *)
Record SealCiphertextWrapper : Type := {
  chain_index : N;
  scale : Q;
  payload : list Q
}.

Inductive HEValue : Type :=
  | Plain (p : HEPlaintext)
  | Cipher (c : SealCiphertextWrapper).

(** [HEType]: the tagged value with the accessors the executable calls. *)
Record HEType : Type := {
  complex_packing : bool;
  plaintext_packing : bool;
  batch_size : nat;
  he_value : HEValue
}.

Definition is_plaintext (h : HEType) : bool :=
  match he_value h with Plain _ => true | Cipher _ => false end.

Definition is_ciphertext (h : HEType) : bool :=
  match he_value h with Plain _ => false | Cipher _ => true end.

Definition set_plaintext (h : HEType) (p : HEPlaintext) : HEType :=
  {| complex_packing := complex_packing h;
     plaintext_packing := plaintext_packing h;
     batch_size := batch_size h;
     he_value := Plain p |}.

Definition set_ciphertext (h : HEType) (c : SealCiphertextWrapper) : HEType :=
  {| complex_packing := complex_packing h;
     plaintext_packing := plaintext_packing h;
     batch_size := batch_size h;
     he_value := Cipher c |}.

(** [HEType(plain, complex_packing)] and [HEType(cipher, complex_packing)]
    for an unpacked value. *)
Definition plain_slot (p : HEPlaintext) (complex : bool) : HEType :=
  {| complex_packing := complex; plaintext_packing := false;
     batch_size := 1; he_value := Plain p |}.

Definition cipher_slot (c : SealCiphertextWrapper) (complex : bool) : HEType :=
  {| complex_packing := complex; plaintext_packing := false;
     batch_size := 1; he_value := Cipher c |}.

(** [HEType(HEPlaintext(), false)]. *)
Definition empty_plain_slot : HEType := plain_slot [] false.

Definition shape_size (shape : list nat) : nat := fold_right Nat.mul 1 shape.

(** The members of [HETensor] the executable reads. *)
Record HETensor : Type := {
  data : list HEType;
  is_packed : bool;
  get_packed_shape : list nat;
  get_batch_size : nat;
  get_batched_element_count : nat
}.

Definition set_data (t : HETensor) (d : list HEType) : HETensor :=
  {| data := d;
     is_packed := is_packed t;
     get_packed_shape := get_packed_shape t;
     get_batch_size := get_batch_size t;
     get_batched_element_count := get_batched_element_count t |}.

(** Modelled from the spec: the constructor of [HETensor] ([he_tensor.cpp]
    is not among the sources).  Section 3: the batch size is [shape[0]] when
    the tensor is packed and 1 otherwise, the packed shape folds the batch
    axis, and the tensor holds [shape_size shape / batch_size] slots. *)
Definition HETensor_new (shape : list nat) (packed : bool) : HETensor :=
  let bs := if packed then hd 1 shape else 1 in
  {| data := repeat empty_plain_slot (shape_size shape / bs);
     is_packed := packed;
     get_packed_shape := if packed then 1 :: tl shape else shape;
     get_batch_size := bs;
     get_batched_element_count := shape_size shape / bs |}.

(** [v[i]] on a [std::vector]. *)
Definition at_index {A} (v : list A) (i : nat) : Result A :=
  match nth_error v i with
  | Some x => Ok x
  | None => Err out_of_range
  end.

(** [v[i] = x]. *)
Fixpoint assign {A} (v : list A) (i : nat) (x : A) : Result (list A) :=
  match v, i with
  | [], _ => Err out_of_range
  | _ :: t, O => Ok (x :: t)
  | h :: t, S j => t' <-? assign t j x ;; Ok (h :: t')
  end.

(** [v.resize(n, d)]. *)
Definition resize {A} (v : list A) (n : nat) (d : A) : list A :=
  firstn n v ++ repeat d (n - List.length v).

(** ** The modulus-chain manager *)

Module SealUtil.

Local Open Scope Q_scope.

(** Modelled from the spec: the CKKS modulus chain of the context (the
    library is external).  [coeff_modulus] lists the data primes
    [q_0 .. q_L]; a ciphertext at chain index [i] lives modulo
    [q_0 * .. * q_i].  [tol] stands for [2^epsilon], the tolerance of the
    scale comparison. *)
Record SEALContext : Type := {
  coeff_modulus : list positive;
  tol : Q
}.

Definition Qlt_bool (x y : Q) : bool := negb (Qle_bool y x).

(** Modelled from the spec: [mod_switch_to_next] of the CKKS adapter, which
    is external.  One step down the chain (the chain index "decreases with
    every rescale or mod-switch"); scale and encoded values stay, and below
    the chain bottom the step fails with [ChainExhausted]. *)
Definition mod_switch_to_next (c : SealCiphertextWrapper) : Result SealCiphertextWrapper :=
  if (chain_index c =? 0)%N then Err ChainExhausted
  else Ok {| chain_index := N.pred (chain_index c);
             scale := scale c;
             payload := payload c |}.

(** Modelled from the spec: [rescale_to_next] of the CKKS adapter, which is
    external.  One step down the chain that divides the encoded values and
    the scale by the prime dropped. *)
Definition rescale_to_next (ctx : SEALContext) (c : SealCiphertextWrapper)
  : Result SealCiphertextWrapper :=
  if (chain_index c =? 0)%N then Err ChainExhausted
  else match nth_error (coeff_modulus ctx) (N.to_nat (chain_index c)) with
       | None => Err ChainExhausted
       | Some q =>
           Ok {| chain_index := N.pred (chain_index c);
                 scale := scale c / inject_Z (Zpos q);
                 payload := map (fun x => x / inject_Z (Zpos q)) (payload c) |}
       end.

(** "mod-switch downward until the chain index is [target]". *)
Fixpoint mod_switch_down (steps : nat) (c : SealCiphertextWrapper)
  : Result SealCiphertextWrapper :=
  match steps with
  | O => Ok c
  | S k => c' <-? mod_switch_to_next c ;; mod_switch_down k c'
  end.

Definition mod_switch_to (c : SealCiphertextWrapper) (target : N)
  : Result SealCiphertextWrapper :=
  mod_switch_down (N.to_nat (chain_index c - target)) c.

(** Modelled from the spec: decryption and decoding of the CKKS adapter,
    which is external.  The scale is "the factor by which a real value is
    multiplied before encoding", so decoding divides by it. *)
Definition decrypt (c : SealCiphertextWrapper) : HEPlaintext :=
  map (fun x => x / scale c) (payload c).

(** [|log2 sa - log2 sb| < epsilon], with [tol = 2^epsilon]. *)
Definition scale_close (ctx : SEALContext) (sa sb : Q) : bool :=
  Qlt_bool sa (tol ctx * sb) && Qlt_bool sb (tol ctx * sa).

(** "scales differ by a factor equal to a prime in the chain": the scale of
    [c] is [s] times the prime that one rescale of [c] divides by, the
    "matching prime" of step 3. *)
Definition differ_by_matching_prime (ctx : SEALContext)
    (c : SealCiphertextWrapper) (s : Q) : bool :=
  match nth_error (coeff_modulus ctx) (N.to_nat (chain_index c)) with
  | Some q => Qeq_bool (scale c) (inject_Z (Zpos q) * s)
  | None => false
  end.

Definition set_scale (c : SealCiphertextWrapper) (s : Q) : SealCiphertextWrapper :=
  {| chain_index := chain_index c; scale := s; payload := payload c |}.

(** Step 1 of section 4.2: "if [ia > ib], mod-switch [a] downward until
    [chain_index a == ib]; symmetrically for the reverse case". *)
Definition match_modulus (a b : SealCiphertextWrapper)
  : Result (SealCiphertextWrapper * SealCiphertextWrapper) :=
  let ia := chain_index a in
  let ib := chain_index b in
  a1 <-? (if (ib <? ia)%N then mod_switch_to a ib else Ok a) ;;
  b1 <-? (if (ia <? ib)%N then mod_switch_to b ia else Ok b) ;;
  Ok (a1, b1).

(** Modelled from the spec: [match_modulus_and_scale_inplace] of
    [seal_util.cpp], which is not among the sources (its test and its caller
    [scalar_add_seal] are).  Section 4.2, with [sa] and [sb] the scales the
    operands come with: (1) the operand with the larger chain index is
    mod-switched down to the other's; (2) scales that differ by less than
    epsilon are made equal by overwriting [scale a], and when the scales
    differ by a prime of the chain the larger-scale operand is rescaled one
    step; (3) any other difference is a [ScaleMismatch].  The section states
    the purpose of the call (both operands "at the same chain index and
    [with] equal scales") and section 8 its invariant; the rescale of (2) is
    therefore the larger-scale operand's own step down the chain, and the
    mod-switch of (1) closes what is left of the gap between the chain
    indices. *)
Definition match_modulus_and_scale_inplace (ctx : SEALContext)
    (a b : SealCiphertextWrapper)
  : Result (SealCiphertextWrapper * SealCiphertextWrapper) :=
  let sa := scale a in
  let sb := scale b in
  if Qeq_bool sa sb then match_modulus a b
  else if scale_close ctx sa sb then
    ab <-? match_modulus a b ;; Ok (set_scale (fst ab) sb, snd ab)
  else if differ_by_matching_prime ctx a sb then
    a1 <-? rescale_to_next ctx a ;; match_modulus a1 b
  else if differ_by_matching_prime ctx b sa then
    b1 <-? rescale_to_next ctx b ;; match_modulus a b1
  else Err ScaleMismatch.

(** [enum class modulus_operation] of the test of the call: what is done
    to an operand before it. *)
Module modulus_operation.
Inductive t : Type := None | Rescale | ModSwitch.
End modulus_operation.



(** Decoded values agree within the relative tolerance [tol - 1]. *)
Definition all_close (ctx : SEALContext) (xs ys : HEPlaintext) : Prop :=
  Forall2 (fun x y => Qabs (x - y) <= (tol ctx - 1) * Qabs y) xs ys.

(** [std::numeric_limits<size_t>::max()]. *)
Definition SIZE_MAX : N := 18446744073709551615.

Definition cipher_chain_indices (slots : list HEType) : list N :=
  flat_map (fun s => match he_value s with
                     | Cipher c => [chain_index c]
                     | Plain _ => []
                     end) slots.

Definition smallest_chain_index (slots : list HEType) : N :=
  fold_left N.min (cipher_chain_indices slots) SIZE_MAX.

Definition switch_slot_to (smallest : N) (s : HEType) : Result HEType :=
  match he_value s with
  | Plain _ => Ok s
  | Cipher c =>
      if (smallest <? chain_index c)%N
      then c' <-? mod_switch_to c smallest ;; Ok (set_ciphertext s c')
      else Ok s
  end.

(** Modelled from the spec: [match_to_smallest_chain_index] of
    [seal_util.cpp], which is not among the sources (its test and its caller
    [handle_server_relu_op] are).  Section 4.2: scan the ciphertext slots,
    take the minimum chain index, mod-switch every ciphertext above it down
    to it; plaintext slots are left alone and [SIZE_MAX] is returned when no
    slot is a ciphertext.  The result pairs the returned index with the
    vector as the call leaves it. *)
Definition match_to_smallest_chain_index (slots : list HEType)
  : Result (N * list HEType) :=
  let smallest := smallest_chain_index slots in
  slots' <-? mapR (switch_slot_to smallest) slots ;;
  Ok (smallest, slots').

(** A freshly encrypted ciphertext: top of the chain, the backend's scale. *)
Definition encrypt (ctx : SEALContext) (s : Q) (p : HEPlaintext) : SealCiphertextWrapper :=
  {| chain_index := N.of_nat (Nat.pred (List.length (coeff_modulus ctx)));
     scale := s;
     payload := map (fun x => x * s) p |}.

(** A small chain for examples: four data primes and [epsilon] with
    [2^epsilon = 1.001]. *)
Definition toy_context : SEALContext :=
  {| coeff_modulus := [97; 101; 103; 107]%positive; tol := 1001 # 1000 |}.

End SealUtil.

(** ** The backend, graph nodes and the session *)

(** The members of [HESealBackend] the executable reads or writes. *)
Record HESealBackend : Type := {
  m_lazy_mod : bool;
  m_enable_client : bool
}.

(** [he_seal_backend.lazy_mod() = v]. *)
Definition set_lazy_mod (b : HESealBackend) (v : bool) : HESealBackend :=
  {| m_lazy_mod := v; m_enable_client := m_enable_client b |}.

(** What [generate_calls] and the offload handlers read off an [ngraph::Node]:
    [node_typeid] is [get_typeid(node.get_type_info())], which is [UnknownOp]
    for a type the operator table does not list. *)
Record Node : Type := {
  node_typeid : OP_TYPEID.t;
  description : string;
  get_alpha : Q;
  get_reduction_axes : list nat;
  get_axes : list nat;
  get_upper_bounds : list nat
}.

Definition set_upper_bounds (n : Node) (ub : list nat) : Node :=
  {| node_typeid := node_typeid n;
     description := description n;
     get_alpha := get_alpha n;
     get_reduction_axes := get_reduction_axes n;
     get_axes := get_axes n;
     get_upper_bounds := ub |}.

Inductive TCPMessage_Type : Set := REQUEST | RESPONSE | UNKNOWN.

(** A [pb::TCPMessage]: its type tag, the ["function"] entry of its function
    descriptor when it has one, its tensors, and whether it carries the
    encryption parameters. *)
Record TCPMessage (pb : Type) : Type := {
  msg_type : TCPMessage_Type;
  msg_function : option string;
  he_tensors : list pb;
  has_encryption_parameters : bool
}.

(** What the executable does on the session, as the client can observe it:
    messages written, and the condition-variable waits between them. *)
Inductive SessionEvent (pb : Type) : Type :=
  | write_message (m : TCPMessage pb)
  | wait_session_started
  | wait_relu_done (unknown : nat)
  | wait_max_pool_done
  | wait_written.

Arguments write_message {pb} m.
Arguments wait_session_started {pb}.
Arguments wait_relu_done {pb} unknown.
Arguments wait_max_pool_done {pb}.
Arguments wait_written {pb}.

(** A kernel reads the backend, the node's attributes and the argument
    tensors, and fills the data of the output tensor. *)
Definition kernel : Type :=
  HESealBackend -> Node -> list HETensor -> HETensor -> Result (list HEType).

(** A node of the ordered graph as [call] walks it; tensors are named by
    their [descriptor::Tensor]. *)
Record Op : Type := {
  op_node : Node;
  is_parameter : bool;
  is_output : bool;
  op_inputs : list nat;
  op_outputs : list nat;
  liveness_free_list : list nat
}.

(** The code outside [he_seal_executable.cpp] that the executable calls:
    the wire format of tensors, the kernels, the chain-index helper of
    [seal_util.cpp], tensor allocation, and the client at the other end of
    the session, which answers each request with one message. *)
Class SealEnv : Type := {
  pb_HETensor : Type;
  data_size : pb_HETensor -> nat;
  write_to_pb_tensors : HETensor -> list pb_HETensor;
  load_from_pb_tensor : pb_HETensor -> Result HETensor;
  client_reply : TCPMessage pb_HETensor -> TCPMessage pb_HETensor;
  create_tensor : Op -> nat -> HETensor;
  match_to_smallest_chain_index : list HEType -> Result (N * list HEType);
  max_pool_seal_max_list : Node -> list (list nat);
  scalar_relu_seal : HEPlaintext -> HEPlaintext;
  scalar_bounded_relu_seal : HEPlaintext -> Q -> HEPlaintext;
  mod_reduce_seal : HESealBackend -> list HEType -> Result (list HEType);
  rescale_seal : HESealBackend -> list HEType -> Result (list HEType);
  add_seal : kernel;
  avg_pool_seal : kernel;
  batch_norm_inference_seal : kernel;
  bounded_relu_seal : kernel;
  broadcast_seal : kernel;
  concat_seal : kernel;
  constant_seal : kernel;
  convolution_seal : kernel;
  divide_seal : kernel;
  dot_seal : kernel;
  exp_seal : kernel;
  max_seal : kernel;
  max_pool_seal : kernel;
  minimum_seal : kernel;
  multiply_seal : kernel;
  negate_seal : kernel;
  pad_seal : kernel;
  power_seal : kernel;
  relu_seal : kernel;
  reshape_seal : kernel;
  result_seal : kernel;
  reverse_seal : kernel;
  slice_seal : kernel;
  softmax_seal : kernel;
  subtract_seal : kernel;
  sum_seal : kernel
}.

(** [HEOpAnnotations::from_client] of a parameter. *)
Record ParameterNode : Type := {
  param_name : string;
  from_client : bool
}.

(** ** The executable's state *)

Section Executable.

Context {env : SealEnv}.

Definition Message : Type := TCPMessage pb_HETensor.
Definition Event : Type := SessionEvent pb_HETensor.

(** The members of [HESealExecutable] the modelled functions touch.
    [m_session] is the log of what was done on the session, oldest first. *)
Record HESealExecutable : Type := {
  m_he_seal_backend : HESealBackend;
  m_parameters : list ParameterNode;
  m_results : list Node;
  m_nodes : list Op;
  m_server_setup : bool;
  m_relu_data : list HEType;
  m_unknown_relu_idx : list nat;
  m_relu_done_count : nat;
  m_max_pool_data : list HEType;
  m_max_pool_done : bool;
  m_client_outputs : list HETensor;
  m_session : list Event
}.

Definition with_backend (st : HESealExecutable) (b : HESealBackend) :=
  {| m_he_seal_backend := b;
     m_parameters := m_parameters st; m_results := m_results st;
     m_nodes := m_nodes st; m_server_setup := m_server_setup st;
     m_relu_data := m_relu_data st;
     m_unknown_relu_idx := m_unknown_relu_idx st;
     m_relu_done_count := m_relu_done_count st;
     m_max_pool_data := m_max_pool_data st;
     m_max_pool_done := m_max_pool_done st;
     m_client_outputs := m_client_outputs st;
     m_session := m_session st |}.

Definition with_server_setup (st : HESealExecutable) (v : bool) :=
  {| m_he_seal_backend := m_he_seal_backend st;
     m_parameters := m_parameters st; m_results := m_results st;
     m_nodes := m_nodes st; m_server_setup := v;
     m_relu_data := m_relu_data st;
     m_unknown_relu_idx := m_unknown_relu_idx st;
     m_relu_done_count := m_relu_done_count st;
     m_max_pool_data := m_max_pool_data st;
     m_max_pool_done := m_max_pool_done st;
     m_client_outputs := m_client_outputs st;
     m_session := m_session st |}.

Definition with_relu_data (st : HESealExecutable) (v : list HEType) :=
  {| m_he_seal_backend := m_he_seal_backend st;
     m_parameters := m_parameters st; m_results := m_results st;
     m_nodes := m_nodes st; m_server_setup := m_server_setup st;
     m_relu_data := v;
     m_unknown_relu_idx := m_unknown_relu_idx st;
     m_relu_done_count := m_relu_done_count st;
     m_max_pool_data := m_max_pool_data st;
     m_max_pool_done := m_max_pool_done st;
     m_client_outputs := m_client_outputs st;
     m_session := m_session st |}.

Definition with_unknown_relu_idx (st : HESealExecutable) (v : list nat) :=
  {| m_he_seal_backend := m_he_seal_backend st;
     m_parameters := m_parameters st; m_results := m_results st;
     m_nodes := m_nodes st; m_server_setup := m_server_setup st;
     m_relu_data := m_relu_data st;
     m_unknown_relu_idx := v;
     m_relu_done_count := m_relu_done_count st;
     m_max_pool_data := m_max_pool_data st;
     m_max_pool_done := m_max_pool_done st;
     m_client_outputs := m_client_outputs st;
     m_session := m_session st |}.

Definition with_relu_done_count (st : HESealExecutable) (v : nat) :=
  {| m_he_seal_backend := m_he_seal_backend st;
     m_parameters := m_parameters st; m_results := m_results st;
     m_nodes := m_nodes st; m_server_setup := m_server_setup st;
     m_relu_data := m_relu_data st;
     m_unknown_relu_idx := m_unknown_relu_idx st;
     m_relu_done_count := v;
     m_max_pool_data := m_max_pool_data st;
     m_max_pool_done := m_max_pool_done st;
     m_client_outputs := m_client_outputs st;
     m_session := m_session st |}.

Definition with_max_pool_data (st : HESealExecutable) (v : list HEType) :=
  {| m_he_seal_backend := m_he_seal_backend st;
     m_parameters := m_parameters st; m_results := m_results st;
     m_nodes := m_nodes st; m_server_setup := m_server_setup st;
     m_relu_data := m_relu_data st;
     m_unknown_relu_idx := m_unknown_relu_idx st;
     m_relu_done_count := m_relu_done_count st;
     m_max_pool_data := v;
     m_max_pool_done := m_max_pool_done st;
     m_client_outputs := m_client_outputs st;
     m_session := m_session st |}.

Definition with_max_pool_done (st : HESealExecutable) (v : bool) :=
  {| m_he_seal_backend := m_he_seal_backend st;
     m_parameters := m_parameters st; m_results := m_results st;
     m_nodes := m_nodes st; m_server_setup := m_server_setup st;
     m_relu_data := m_relu_data st;
     m_unknown_relu_idx := m_unknown_relu_idx st;
     m_relu_done_count := m_relu_done_count st;
     m_max_pool_data := m_max_pool_data st;
     m_max_pool_done := v;
     m_client_outputs := m_client_outputs st;
     m_session := m_session st |}.

Definition with_client_outputs (st : HESealExecutable) (v : list HETensor) :=
  {| m_he_seal_backend := m_he_seal_backend st;
     m_parameters := m_parameters st; m_results := m_results st;
     m_nodes := m_nodes st; m_server_setup := m_server_setup st;
     m_relu_data := m_relu_data st;
     m_unknown_relu_idx := m_unknown_relu_idx st;
     m_relu_done_count := m_relu_done_count st;
     m_max_pool_data := m_max_pool_data st;
     m_max_pool_done := m_max_pool_done st;
     m_client_outputs := v;
     m_session := m_session st |}.

Definition with_session (st : HESealExecutable) (v : list Event) :=
  {| m_he_seal_backend := m_he_seal_backend st;
     m_parameters := m_parameters st; m_results := m_results st;
     m_nodes := m_nodes st; m_server_setup := m_server_setup st;
     m_relu_data := m_relu_data st;
     m_unknown_relu_idx := m_unknown_relu_idx st;
     m_relu_done_count := m_relu_done_count st;
     m_max_pool_data := m_max_pool_data st;
     m_max_pool_done := m_max_pool_done st;
     m_client_outputs := m_client_outputs st;
     m_session := v |}.

(** ** Member functions run in a state monad with exceptions

    An exception leaves the members as they were when it was thrown. *)
Definition Exec (A : Type) : Type :=
  HESealExecutable -> HESealExecutable * Result A.

Definition ret {A} (a : A) : Exec A := fun st => (st, Ok a).

Definition throw {A} (e : he_error) : Exec A := fun st => (st, Err e).

Definition bind {A B} (c : Exec A) (k : A -> Exec B) : Exec B :=
  fun st =>
    match c st with
    | (st', Ok a) => k a st'
    | (st', Err e) => (st', Err e)
    end.

Definition get : Exec HESealExecutable := fun st => (st, Ok st).

Definition modify (f : HESealExecutable -> HESealExecutable) : Exec unit :=
  fun st => (f st, Ok tt).

Definition lift {A} (r : Result A) : Exec A := fun st => (st, r).

End Executable.

Notation "x <- c ;; k" := (bind c (fun x => k))
  (at level 61, c at next level, right associativity).
Notation "c ;;; k" := (bind c (fun _ => k))
  (at level 61, right associativity).

Section ExecutableFunctions.

Context {env : SealEnv}.

(** [NGRAPH_CHECK(cond, msg)]. *)
Definition NGRAPH_CHECK (cond : bool) (msg : string) : Exec unit :=
  if cond then ret tt else throw (CheckFailure msg).

(** A loop over a vector, left to right. *)
Fixpoint for_each {A} (l : list A) (body : A -> Exec unit) : Exec unit :=
  match l with
  | [] => ret tt
  | x :: xs => body x ;;; for_each xs body
  end.

Definition session_write (m : Message) : Exec unit :=
  modify (fun st => with_session st (m_session st ++ [write_message m])).

Definition session_wait (e : Event) : Exec unit :=
  modify (fun st => with_session st (m_session st ++ [e])).

Definition enable_client (st : HESealExecutable) : bool :=
  m_enable_client (m_he_seal_backend st).

Definition lazy_mod (st : HESealExecutable) : bool :=
  m_lazy_mod (m_he_seal_backend st).

End ExecutableFunctions.

(** ** The session thread: results of offloaded operations *)

Section Handlers.

Context {env : SealEnv}.

Local Open Scope string_scope.
Local Open Scope nat_scope.
Local Open Scope list_scope.

(** [HESealExecutable::handle_relu_result]. *)
Definition handle_relu_result (pb_message : Message) : Exec unit :=
  NGRAPH_CHECK (List.length (he_tensors pb_message) =? 1)
               "Can only handle one tensor at a time" ;;;
  pb_tensor <- lift (at_index (he_tensors pb_message) 0) ;;
  he_tensor <- lift (load_from_pb_tensor pb_tensor) ;;
  let result_count := data_size pb_tensor in
  for_each (seq 0 result_count) (fun result_idx =>
    st <- get ;;
    idx <- lift (at_index (m_unknown_relu_idx st)
                          (result_idx + m_relu_done_count st)) ;;
    slot <- lift (at_index (data he_tensor) result_idx) ;;
    relu_data <- lift (assign (m_relu_data st) idx slot) ;;
    modify (fun st => with_relu_data st relu_data)) ;;;
  modify (fun st =>
    with_relu_done_count st (m_relu_done_count st + result_count)).

(** [HESealExecutable::handle_bounded_relu_result]. *)
Definition handle_bounded_relu_result (pb_message : Message) : Exec unit :=
  handle_relu_result pb_message.

(** [HESealExecutable::handle_max_pool_result]. *)
Definition handle_max_pool_result (pb_message : Message) : Exec unit :=
  NGRAPH_CHECK (List.length (he_tensors pb_message) =? 1)
               "Can only handle one tensor at a time" ;;;
  pb_tensor <- lift (at_index (he_tensors pb_message) 0) ;;
  let result_count := data_size pb_tensor in
  NGRAPH_CHECK (result_count =? 1)
               "Maxpool only supports result_count 1" ;;;
  he_tensor <- lift (load_from_pb_tensor pb_tensor) ;;
  slot <- lift (at_index (data he_tensor) 0) ;;
  modify (fun st => with_max_pool_data st (m_max_pool_data st ++ [slot])) ;;;
  modify (fun st => with_max_pool_done st true).

Definition known_function_names : list string :=
  ["Relu"; "BoundedRelu"; "MaxPool"].

(** [HESealExecutable::handle_message], for the messages of the offload
    protocol.  The key exchange of a [RESPONSE] and the client tensors of a
    [REQUEST] belong to the set-up that precedes the modelled part of
    [call]; here they change nothing. *)
Definition handle_message (message : Message) : Exec unit :=
  match msg_type message with
  | RESPONSE =>
      match msg_function message with
      | Some name =>
          NGRAPH_CHECK (existsb (String.eqb name) known_function_names)
                       "Unknown function name" ;;;
          if String.eqb name "Relu" then handle_relu_result message
          else if String.eqb name "BoundedRelu"
               then handle_bounded_relu_result message
          else if String.eqb name "MaxPool"
               then handle_max_pool_result message
          else ret tt
      | None => ret tt
      end
  | REQUEST => ret tt
  | UNKNOWN => NGRAPH_CHECK false "Unknonwn TCPMessage type"
  end.

(** [cond.wait(lock, pred)] on the executor thread.  While it blocks, the
    session thread handles the client's replies to the requests in flight,
    in the order the requests were written; the wait returns once [pred]
    holds and never returns otherwise. *)
Definition await (e : Event) (in_flight : list Message)
    (pred : HESealExecutable -> bool) : Exec unit :=
  session_wait e ;;;
  for_each in_flight (fun request => handle_message (client_reply request)) ;;;
  st <- get ;;
  if pred st then ret tt else throw blocked.

(** ** Client-aided operations *)

(** The request a nonlinear operation writes for one wire tensor. *)
Definition offload_request (node : Node) (pb_tensor : pb_HETensor) : Message :=
  {| msg_type := REQUEST;
     msg_function := Some (description node);
     he_tensors := [pb_tensor];
     has_encryption_parameters := false |}.

(** The tensor a MaxPool request carries: shape
    [{cipher_batch[0].batch_size(), cipher_batch.size()}], packed as the
    first slot is, holding [cipher_batch]. *)
Definition max_pool_tensor (cipher_batch : list HEType) : Result HETensor :=
  first <-? at_index cipher_batch 0 ;;
  Ok (set_data (HETensor_new [batch_size first; List.length cipher_batch]
                             (plaintext_packing first))
               cipher_batch).

(** The tensor a Relu request carries: the same shape, packed as the
    argument is. *)
Definition relu_tensor (arg : HETensor) (cipher_batch : list HEType)
  : Result HETensor :=
  first <-? at_index cipher_batch 0 ;;
  Ok (set_data (HETensor_new [batch_size first; List.length cipher_batch]
                             (is_packed arg))
               cipher_batch).

(** The scalar plaintext routine the node selects. *)
Definition scalar_result (node : Node) (p : HEPlaintext) : HEPlaintext :=
  match node_typeid node with
  | OP_TYPEID.Relu => scalar_relu_seal p
  | _ => scalar_bounded_relu_seal p (get_alpha node)
  end.

(** The body of the loop of [handle_server_max_pool_op], for one output
    cell. *)
Definition max_pool_cell (arg : HETensor) (node : Node)
    (maximize_list : list nat) : Exec unit :=
  cipher_batch <- lift (mapR (at_index (data arg)) maximize_list) ;;
  NGRAPH_CHECK (negb (List.length cipher_batch =? 0))
               "Maxpool cipher batch is empty" ;;;
  max_pool_tensor <- lift (max_pool_tensor cipher_batch) ;;
  let pb_tensors := write_to_pb_tensors max_pool_tensor in
  NGRAPH_CHECK (List.length pb_tensors =? 1)
               "Only support MaxPool with 1 proto tensor" ;;;
  pb_tensor <- lift (at_index pb_tensors 0) ;;
  let pb_message := offload_request node pb_tensor in
  session_write pb_message ;;;
  await wait_max_pool_done [pb_message] m_max_pool_done ;;;
  modify (fun st => with_max_pool_done st false).

(** [HESealExecutable::handle_server_max_pool_op]; the result is the output
    tensor as the call leaves it. *)
Definition handle_server_max_pool_op (arg out : HETensor) (node : Node)
  : Exec HETensor :=
  modify (fun st => with_max_pool_done st false) ;;;
  let maximize_lists := max_pool_seal_max_list node in
  modify (fun st => with_max_pool_data st []) ;;;
  for_each maximize_lists (max_pool_cell arg node) ;;;
  st <- get ;;
  ret (set_data out (m_max_pool_data st)).

Definition max_relu_message_cnt : nat := 1000.

(** "Process known values": one iteration of the loop over the slots. *)
Definition relu_known_value (arg_data : list HEType) (node : Node)
    (relu_idx : nat) : Exec unit :=
  he_type <- lift (at_index arg_data relu_idx) ;;
  match he_value he_type with
  | Plain p =>
      st <- get ;;
      old <- lift (at_index (m_relu_data st) relu_idx) ;;
      relu_data <- lift (assign (m_relu_data st) relu_idx
                                (set_plaintext old (scalar_result node p))) ;;
      modify (fun st => with_relu_data st relu_data)
  | Cipher _ =>
      modify (fun st =>
        with_unknown_relu_idx st (m_unknown_relu_idx st ++ [relu_idx]))
  end.

(** The lambda [process_unknown_relu_ciphers_batch]; the result lists the
    requests it wrote. *)
Definition process_unknown_relu_ciphers_batch (arg : HETensor) (node : Node)
    (cipher_batch : list HEType) : Exec (list Message) :=
  relu_tensor <- lift (relu_tensor arg cipher_batch) ;;
  let pb_tensors := write_to_pb_tensors relu_tensor in
  for_each pb_tensors (fun pb_tensor =>
    session_write (offload_request node pb_tensor)) ;;;
  ret (map (offload_request node) pb_tensors).

(** "Process unknown values": the loop over [m_unknown_relu_idx], which
    fills [relu_ciphers_batch] and flushes it whenever it is full.  The
    result is the batch left over and the requests written. *)
Fixpoint relu_unknown_values (arg : HETensor) (node : Node)
    (unknown : list nat) (relu_ciphers_batch : list HEType)
  : Exec (list HEType * list Message) :=
  match unknown with
  | [] => ret (relu_ciphers_batch, [])
  | unknown_relu_idx :: rest =>
      slot <- lift (at_index (data arg) unknown_relu_idx) ;;
      NGRAPH_CHECK (is_ciphertext slot) "HEType should be ciphertext" ;;;
      let batch := relu_ciphers_batch ++ [slot] in
      if List.length batch =? max_relu_message_cnt then
        sent <- process_unknown_relu_ciphers_batch arg node batch ;;
        r <- relu_unknown_values arg node rest [] ;;
        ret (fst r, sent ++ snd r)
      else relu_unknown_values arg node rest batch
  end.

(** [HESealExecutable::handle_server_relu_op]; the result is the argument
    tensor, whose slots [match_to_smallest_chain_index] rewrites in place,
    and the output tensor, both as the call leaves them. *)
Definition handle_server_relu_op (arg out : HETensor) (node : Node)
  : Exec (HETensor * HETensor) :=
  let type_id := node_typeid node in
  NGRAPH_CHECK (match type_id with
                | OP_TYPEID.Relu | OP_TYPEID.BoundedRelu => true
                | _ => false
                end)
               "only support relu / bounded relu" ;;;
  let element_count := List.length (data arg) in
  matched <- lift (match_to_smallest_chain_index (data arg)) ;;
  let arg' := set_data arg (snd matched) in
  modify (fun st =>
    with_relu_data st (resize (m_relu_data st) element_count
                              empty_plain_slot)) ;;;
  modify (fun st => with_unknown_relu_idx st []) ;;;
  for_each (seq 0 element_count) (relu_known_value (data arg') node) ;;;
  st <- get ;;
  r <- relu_unknown_values arg' node (m_unknown_relu_idx st) [] ;;
  last <- (if negb (List.length (fst r) =? 0)
           then process_unknown_relu_ciphers_batch arg' node (fst r)
           else ret []) ;;
  await (wait_relu_done (List.length (m_unknown_relu_idx st)))
        (snd r ++ last)
        (fun st => m_relu_done_count st
                   =? List.length (m_unknown_relu_idx st)) ;;;
  modify (fun st => with_relu_done_count st 0) ;;;
  st <- get ;;
  ret (arg', set_data out (m_relu_data st)).

(** ** Kernel dispatch *)

(** Run a kernel on the first output tensor: [k(args.., out[0]->data(), ..)]. *)
Definition run_kernel (k : kernel) (node : Node) (out args : list HETensor)
  : Exec (list HETensor) :=
  st <- get ;;
  out0 <- lift (at_index out 0) ;;
  d <- lift (k (m_he_seal_backend st) node args out0) ;;
  lift (assign out 0 (set_data out0 d)).

(** [f(out[0]->data(), m_he_seal_backend, verbose)] for [mod_reduce_seal]
    and [rescale_seal]. *)
Definition on_out0 (f : HESealBackend -> list HEType -> Result (list HEType))
    (out : list HETensor) : Exec (list HETensor) :=
  st <- get ;;
  out0 <- lift (at_index out 0) ;;
  d <- lift (f (m_he_seal_backend st) (data out0)) ;;
  lift (assign out 0 (set_data out0 d)).

(** The tail of the Dot, Convolution and AvgPool cases. *)
Definition reduce_and_rescale (out : list HETensor) : Exec (list HETensor) :=
  st <- get ;;
  out1 <- (if lazy_mod st then on_out0 mod_reduce_seal out else ret out) ;;
  on_out0 rescale_seal out1.

(** The Add and Multiply cases switch lazy mod off around the kernel. *)
Definition without_lazy_mod (k : kernel) (node : Node)
    (out args : list HETensor) : Exec (list HETensor) :=
  st <- get ;;
  if lazy_mod st then
    modify (fun st =>
      with_backend st (set_lazy_mod (m_he_seal_backend st) false)) ;;;
    out' <- run_kernel k node out args ;;
    modify (fun st =>
      with_backend st (set_lazy_mod (m_he_seal_backend st) true)) ;;;
    ret out'
  else run_kernel k node out args.

(** [output_size == args[0]->data().size()] ahead of a local nonlinear
    kernel. *)
Definition check_output_size (args : list HETensor) : Exec unit :=
  arg0 <- lift (at_index args 0) ;;
  NGRAPH_CHECK (get_batched_element_count arg0 =? List.length (data arg0))
               "output size doesn't match number of elements".

Definition contains_0 (axes : list nat) : bool := existsb (Nat.eqb 0) axes.

(** [HESealExecutable::generate_calls].  The result is the pair of the
    output and the argument tensors as the call leaves them. *)
Definition generate_calls (node : Node) (out args : list HETensor)
  : Exec (list HETensor * list HETensor) :=
  let kernel_only k := out' <- run_kernel k node out args ;; ret (out', args) in
  match node_typeid node with
  | OP_TYPEID.Add =>
      out' <- without_lazy_mod add_seal node out args ;; ret (out', args)
  | OP_TYPEID.AvgPool =>
      out1 <- run_kernel avg_pool_seal node out args ;;
      out' <- reduce_and_rescale out1 ;; ret (out', args)
  | OP_TYPEID.BatchNormInference =>
      NGRAPH_CHECK (List.length args =? 5)
                   "BatchNormInference has arguments (expected 5)." ;;;
      kernel_only batch_norm_inference_seal
  | OP_TYPEID.BoundedRelu =>
      st <- get ;;
      if enable_client st then
        arg0 <- lift (at_index args 0) ;;
        out0 <- lift (at_index out 0) ;;
        r <- handle_server_relu_op arg0 out0 node ;;
        args' <- lift (assign args 0 (fst r)) ;;
        out' <- lift (assign out 0 (snd r)) ;;
        ret (out', args')
      else
        check_output_size args ;;; kernel_only bounded_relu_seal
  | OP_TYPEID.Broadcast => kernel_only broadcast_seal
  | OP_TYPEID.Concat => kernel_only concat_seal
  | OP_TYPEID.Constant => kernel_only constant_seal
  | OP_TYPEID.Convolution =>
      out1 <- run_kernel convolution_seal node out args ;;
      out' <- reduce_and_rescale out1 ;; ret (out', args)
  | OP_TYPEID.Divide => kernel_only divide_seal
  | OP_TYPEID.Dot =>
      out1 <- run_kernel dot_seal node out args ;;
      out' <- reduce_and_rescale out1 ;; ret (out', args)
  | OP_TYPEID.Exp =>
      st <- get ;;
      NGRAPH_CHECK (negb (enable_client st))
                   "Exp not implemented for client-aided model " ;;;
      kernel_only exp_seal
  | OP_TYPEID.Max =>
      st <- get ;;
      arg0 <- lift (at_index args 0) ;;
      NGRAPH_CHECK (negb (is_packed arg0)
                    || negb (contains_0 (get_reduction_axes node)))
                   "Max reduction axes cannot contain 0 for packed tensors" ;;;
      NGRAPH_CHECK (negb (enable_client st))
                   "Max not implemented for client-aided model" ;;;
      check_output_size args ;;;
      kernel_only max_seal
  | OP_TYPEID.MaxPool =>
      st <- get ;;
      if enable_client st then
        arg0 <- lift (at_index args 0) ;;
        out0 <- lift (at_index out 0) ;;
        out0' <- handle_server_max_pool_op arg0 out0 node ;;
        out' <- lift (assign out 0 out0') ;;
        ret (out', args)
      else
        check_output_size args ;;; kernel_only max_pool_seal
  | OP_TYPEID.Minimum => kernel_only minimum_seal
  | OP_TYPEID.Multiply =>
      out1 <- without_lazy_mod multiply_seal node out args ;;
      out' <- on_out0 rescale_seal out1 ;; ret (out', args)
  | OP_TYPEID.Negative => kernel_only negate_seal
  | OP_TYPEID.Pad => kernel_only pad_seal
  | OP_TYPEID.Parameter_ => ret (out, args)
  | OP_TYPEID.Power => kernel_only power_seal
  | OP_TYPEID.Relu =>
      st <- get ;;
      if enable_client st then
        arg0 <- lift (at_index args 0) ;;
        out0 <- lift (at_index out 0) ;;
        r <- handle_server_relu_op arg0 out0 node ;;
        args' <- lift (assign args 0 (fst r)) ;;
        out' <- lift (assign out 0 (snd r)) ;;
        ret (out', args')
      else
        check_output_size args ;;; kernel_only relu_seal
  | OP_TYPEID.Reshape => kernel_only reshape_seal
  | OP_TYPEID.Result => kernel_only result_seal
  | OP_TYPEID.Reverse => kernel_only reverse_seal
  | OP_TYPEID.Slice =>
      arg0 <- lift (at_index args 0) ;;
      out0 <- lift (at_index out 0) ;;
      let upper_bounds := get_upper_bounds node in
      let in_shape := get_packed_shape arg0 in
      match upper_bounds, in_shape with
      | ub0 :: ub_rest, in0 :: _ =>
          if in0 <? ub0 then
            NGRAPH_CHECK (ub0 =? get_batch_size out0)
                         "Slice upper bound shape is not compatible with tensor output shape" ;;;
            out' <- run_kernel slice_seal (set_upper_bounds node (1 :: ub_rest))
                               out args ;;
            ret (out', args)
          else kernel_only slice_seal
      | _, _ => kernel_only slice_seal
      end
  | OP_TYPEID.Softmax =>
      arg0 <- lift (at_index args 0) ;;
      NGRAPH_CHECK (negb (is_packed arg0) || negb (contains_0 (get_axes node)))
                   "Softmax axes cannot contain 0 for packed tensors" ;;;
      kernel_only softmax_seal
  | OP_TYPEID.Subtract => kernel_only subtract_seal
  | OP_TYPEID.Sum => kernel_only sum_seal
  | _ => throw (unsupported_op ("Unsupported op '" ++ description node ++ "'")%string)
  end.

(** ** Client mode: set-up, the node loop and the results *)

(** [HESealExecutable::check_client_supports_function]. *)
Definition check_client_supports_function : Exec unit :=
  st <- get ;;
  let from_client_count :=
    List.length (filter from_client (m_parameters st)) in
  NGRAPH_CHECK (List.length (m_results st) =? 1)
               "HESealExecutable only supports output size 1" ;;;
  NGRAPH_CHECK (0 <? from_client_count)
               "Expected > 0 parameters from client".

Definition parms_message : Message :=
  {| msg_type := RESPONSE;
     msg_function := None;
     he_tensors := [];
     has_encryption_parameters := true |}.

(** [HESealExecutable::server_setup]. *)
Definition server_setup : Exec bool :=
  st <- get ;;
  if negb (m_server_setup st) then
    check_client_supports_function ;;;
    session_wait wait_session_started ;;;
    session_write parms_message ;;;
    modify (fun st => with_server_setup st true) ;;;
    ret true
  else ret true.

(** [HESealExecutable::send_client_results]. *)
Definition send_client_results : Exec unit :=
  st <- get ;;
  NGRAPH_CHECK (List.length (m_client_outputs st) =? 1)
               "HESealExecutable only supports output size 1" ;;;
  client_output <- lift (at_index (m_client_outputs st) 0) ;;
  for_each (write_to_pb_tensors client_output) (fun pb_tensor =>
    session_write {| msg_type := RESPONSE;
                     msg_function := None;
                     he_tensors := [pb_tensor];
                     has_encryption_parameters := false |}) ;;;
  session_wait wait_written.

(** [tensor_map]: tensors by the [descriptor::Tensor] they stand for. *)
Definition TensorMap : Type := list (nat * HETensor).

Fixpoint tensor_map_find (m : TensorMap) (t : nat) : option HETensor :=
  match m with
  | [] => None
  | (k, v) :: rest => if k =? t then Some v else tensor_map_find rest t
  end.

(** [tensor_map.at(t)] throws when [t] is not a key. *)
Definition tensor_map_at (m : TensorMap) (t : nat) : Result HETensor :=
  match tensor_map_find m t with
  | Some v => Ok v
  | None => Err out_of_range
  end.

(** [tensor_map.insert({t, v})] keeps an entry that is already there. *)
Definition tensor_map_insert (m : TensorMap) (t : nat) (v : HETensor) : TensorMap :=
  match tensor_map_find m t with
  | Some _ => m
  | None => m ++ [(t, v)]
  end.

Fixpoint tensor_map_erase (m : TensorMap) (t : nat) : TensorMap :=
  match m with
  | [] => []
  | (k, v) :: rest => if k =? t then rest else (k, v) :: tensor_map_erase rest t
  end.

(** The tensors of the map are shared; what a kernel writes through one is
    seen under its key. *)
Fixpoint tensor_map_store (m : TensorMap) (t : nat) (v : HETensor) : TensorMap :=
  match m with
  | [] => []
  | (k, old) :: rest =>
      if k =? t then (k, v) :: rest else (k, old) :: tensor_map_store rest t v
  end.

Definition tensor_map_store_all (m : TensorMap) (ts : list nat)
    (vs : list HETensor) : TensorMap :=
  fold_left (fun m kv => tensor_map_store m (fst kv) (snd kv)) (combine ts vs) m.

(** The body of the loop of [call] over the ordered nodes. *)
Definition call_op (tensor_map : TensorMap) (op : Op) : Exec TensorMap :=
  if is_parameter op then ret tensor_map
  else
    inputs <- lift (mapR (tensor_map_at tensor_map) (op_inputs op)) ;;
    st <- get ;;
    (if enable_client st && is_output op
     then modify (fun st => with_client_outputs st inputs)
     else ret tt) ;;;
    let tensor_map1 :=
      fold_left (fun m t => tensor_map_insert m t (create_tensor op t))
                (op_outputs op) tensor_map in
    outputs <- lift (mapR (tensor_map_at tensor_map1) (op_outputs op)) ;;
    r <- generate_calls (op_node op) outputs inputs ;;
    let tensor_map2 :=
      tensor_map_store_all
        (tensor_map_store_all tensor_map1 (op_inputs op) (snd r))
        (op_outputs op) (fst r) in
    ret (fold_left tensor_map_erase (liveness_free_list op) tensor_map2).

Fixpoint call_ops (tensor_map : TensorMap) (ops : list Op) : Exec TensorMap :=
  match ops with
  | [] => ret tensor_map
  | op :: rest =>
      tensor_map' <- call_op tensor_map op ;; call_ops tensor_map' rest
  end.

(** [HESealExecutable::call], from the tensor map as the binding of the
    parameter and result tensors leaves it: the set-up of the server, the
    loop over the nodes, and the results sent to the client.  Validation,
    the receipt of the client's inputs and the encryption of the server's
    are not modelled. *)
Definition call (tensor_map : TensorMap) : Exec bool :=
  st <- get ;;
  set_up <- (if enable_client st then server_setup else ret true) ;;
  if negb set_up then ret false
  else
    _ <- call_ops tensor_map (m_nodes st) ;;
    (if enable_client st then send_client_results else ret tt) ;;;
    ret true.

End Handlers.
(** ** The compilation check *)

Section CompilationCheck.

Local Open Scope string_scope.

(** Modelled from the spec: the body of [HESealBackend::is_supported]
    ([he_seal_backend.cpp] is not among the sources; the header declares the
    function).  Section 6 gives the supported operators as an exact set and
    adds: "any other operator id fails the compilation check". *)
Definition is_supported (node : Node) : bool :=
  OP_TYPEID.supported (node_typeid node).

(** Modelled from the spec: [pass::SupportedOps] ([pass/supported_ops.cpp] is
    not among the sources), which the constructor of the executable registers
    with [is_supported] as its predicate and runs over the function.
    Sections 6 and 7: a graph with an operator outside the supported set
    fails compilation with [UnsupportedOp]. *)
Definition supported_ops_pass (ops : list Node) : Result unit :=
  match find (fun op => negb (is_supported op)) ops with
  | Some op => Err (unsupported_op ("Unsupported op " ++ description op))
  | None => Ok tt
  end.

End CompilationCheck.

(** ** A small environment for examples

    Wire tensors are slot vectors, kernels copy their first argument, and the
    client answers a MaxPool request with the first slot of each tensor and
    any other request with the tensors it was sent. *)

Section Examples.

Local Open Scope string_scope.
Local Open Scope nat_scope.
Local Open Scope list_scope.

Definition toy_kernel : kernel :=
  fun _ _ args out0 =>
    match args with
    | a :: _ => Ok (data a)
    | [] => Ok (data out0)
    end.

Definition toy_client_reply (request : TCPMessage (list HEType))
  : TCPMessage (list HEType) :=
  {| msg_type := RESPONSE;
     msg_function := msg_function request;
     he_tensors :=
       match msg_function request with
       | Some "MaxPool" => map (firstn 1) (he_tensors request)
       | _ => he_tensors request
       end;
     has_encryption_parameters := false |}.

Definition toy_relu (p : HEPlaintext) : HEPlaintext :=
  map (fun x => if Qle_bool 0 x then x else 0%Q) p.

Definition toy_bounded_relu (p : HEPlaintext) (alpha : Q) : HEPlaintext :=
  map (fun x => if Qle_bool alpha x then alpha else x) (toy_relu p).

Definition toy_env : SealEnv :=
  {| pb_HETensor := list HEType;
     data_size := @List.length HEType;
     write_to_pb_tensors := fun t => [data t];
     load_from_pb_tensor := fun pb =>
       Ok (set_data (HETensor_new [1; List.length pb] false) pb);
     client_reply := toy_client_reply;
     create_tensor := fun _ _ => HETensor_new [1] false;
     match_to_smallest_chain_index := SealUtil.match_to_smallest_chain_index;
     max_pool_seal_max_list := fun _ => [[0; 1]; [2; 3]];
     scalar_relu_seal := toy_relu;
     scalar_bounded_relu_seal := toy_bounded_relu;
     mod_reduce_seal := fun _ d => Ok d;
     rescale_seal := fun _ d => Ok d;
     add_seal := toy_kernel;
     avg_pool_seal := toy_kernel;
     batch_norm_inference_seal := toy_kernel;
     bounded_relu_seal := toy_kernel;
     broadcast_seal := toy_kernel;
     concat_seal := toy_kernel;
     constant_seal := toy_kernel;
     convolution_seal := toy_kernel;
     divide_seal := toy_kernel;
     dot_seal := toy_kernel;
     exp_seal := toy_kernel;
     max_seal := toy_kernel;
     max_pool_seal := toy_kernel;
     minimum_seal := toy_kernel;
     multiply_seal := toy_kernel;
     negate_seal := toy_kernel;
     pad_seal := toy_kernel;
     power_seal := toy_kernel;
     relu_seal := toy_kernel;
     reshape_seal := toy_kernel;
     result_seal := toy_kernel;
     reverse_seal := toy_kernel;
     slice_seal := toy_kernel;
     softmax_seal := toy_kernel;
     subtract_seal := toy_kernel;
     sum_seal := toy_kernel |}.

Definition toy_node (op : OP_TYPEID.t) (name : string) : Node :=
  {| node_typeid := op;
     description := name;
     get_alpha := 6%Q;
     get_reduction_axes := [];
     get_axes := [];
     get_upper_bounds := [] |}.

(** A fresh ciphertext of the value [x] on the small chain. *)
Definition toy_cipher (x : Q) : HEType :=
  cipher_slot (SealUtil.encrypt SealUtil.toy_context (107 # 1)%Q [x]) false.

Definition toy_tensor (slots : list HEType) : HETensor :=
  set_data (HETensor_new [List.length slots] false) slots.

(** An executable before its first call. *)
Definition toy_executable (lazy client : bool)
    (parameters : list ParameterNode) (results : list Node) (ops : list Op)
  : @HESealExecutable toy_env :=
  {| m_he_seal_backend := {| m_lazy_mod := lazy; m_enable_client := client |};
     m_parameters := parameters;
     m_results := results;
     m_nodes := ops;
     m_server_setup := false;
     m_relu_data := [];
     m_unknown_relu_idx := [];
     m_relu_done_count := 0;
     m_max_pool_data := [];
     m_max_pool_done := false;
     m_client_outputs := [];
     m_session := [] |}.

(** The graph [Result (Relu x)] with [x] sent by the client: tensor 0 is
    the parameter's, tensor 1 the Relu's, tensor 2 the result's. *)
Definition toy_graph : list Op :=
  [ {| op_node := toy_node OP_TYPEID.Parameter_ "Parameter";
       is_parameter := true; is_output := false;
       op_inputs := []; op_outputs := [0]; liveness_free_list := [] |};
    {| op_node := toy_node OP_TYPEID.Relu "Relu";
       is_parameter := false; is_output := false;
       op_inputs := [0]; op_outputs := [1]; liveness_free_list := [0] |};
    {| op_node := toy_node OP_TYPEID.Result "Result";
       is_parameter := false; is_output := true;
       op_inputs := [1]; op_outputs := [2]; liveness_free_list := [1] |} ].

Definition toy_client_executable : @HESealExecutable toy_env :=
  toy_executable false true
    [ {| param_name := "x"; from_client := true |} ]
    [ toy_node OP_TYPEID.Result "Result" ]
    toy_graph.

Definition toy_mixed_slots : list HEType :=
  [ toy_cipher (-1); plain_slot [(-2)%Q; 3%Q] false; toy_cipher 2 ].


End Examples.

(** ** What the offload handlers are to be checked against *)

Section OffloadSpecs.

Context {env : SealEnv}.

Local Open Scope nat_scope.
Local Open Scope list_scope.

(** The requests [process_unknown_relu_ciphers_batch] writes for a batch. *)
Definition relu_requests (arg : HETensor) (node : Node)
    (cipher_batch : list HEType) : list Message :=
  match relu_tensor arg cipher_batch with
  | Ok t => map (offload_request node) (write_to_pb_tensors t)
  | Err _ => []
  end.

(** The requests of a Relu batch: the batch is not empty and holds
    ciphertexts only, and the requests carry, one each, the encodings of a
    tensor whose slots are the batch and whose packing is that of the
    operand. *)
Definition relu_batch_requests (arg : HETensor) (node : Node)
    (cipher_batch : list HEType) (requests : list Message) : Prop :=
  cipher_batch <> []
  /\ Forall (fun slot => is_ciphertext slot = true) cipher_batch
  /\ exists tensor,
       data tensor = cipher_batch
       /\ is_packed tensor = is_packed arg
       /\ Forall2 (fun pb_tensor request =>
                     msg_type request = REQUEST
                     /\ msg_function request = Some (description node)
                     /\ he_tensors request = [pb_tensor])
                  (write_to_pb_tensors tensor) requests.

(** The slot at index [i] of [slots] is a ciphertext. *)
Definition unknown_at (slots : list HEType) (i : nat) : bool :=
  match nth_error slots i with
  | Some slot => is_ciphertext slot
  | None => false
  end.

(** The request of a MaxPool cell carries the slots at the indices of the
    cell's maximize list, which is not empty. *)
Definition max_pool_request (arg : HETensor) (node : Node)
    (maximize_list : list nat) (request : Message) : Prop :=
  maximize_list <> []
  /\ exists cipher_batch tensor pb_tensor,
       mapR (at_index (data arg)) maximize_list = Ok cipher_batch
       /\ max_pool_tensor cipher_batch = Ok tensor
       /\ data tensor = cipher_batch
       /\ write_to_pb_tensors tensor = [pb_tensor]
       /\ request = offload_request node pb_tensor.

(** The client's reply to [request] is one tensor with one entry, and
    [slot] is the value it holds. *)
Definition max_pool_reply (request : Message) (slot : HEType) : Prop :=
  exists pb_tensor tensor,
    he_tensors (client_reply request) = [pb_tensor]
    /\ data_size pb_tensor = 1
    /\ load_from_pb_tensor pb_tensor = Ok tensor
    /\ at_index (data tensor) 0 = Ok slot.








(** The events of a MaxPool node: a write and a wait per request. *)
Definition max_pool_script (requests : list Message) : list Event :=
  flat_map (fun request => [write_message request; wait_max_pool_done])
           requests.

End OffloadSpecs.

(** ** Invariants used in the proofs *)

(** *** The modulus chain *)

(** What the manager guarantees for the pair [a'], [b'] it returns for
    operands that started as [a0], [b0]: the chain indices agree, the scales
    are within epsilon, and both operands decode to what they held. *)
Definition matched_pair (ctx : SealUtil.SEALContext)
    (a' b' a0 b0 : SealCiphertextWrapper) : Prop :=
  chain_index a' = chain_index b'
  /\ SealUtil.scale_close ctx (scale a') (scale b') = true
  /\ SealUtil.all_close ctx (SealUtil.decrypt a') (SealUtil.decrypt a0)
  /\ SealUtil.all_close ctx (SealUtil.decrypt b') (SealUtil.decrypt b0).

(** The same, with the call completing on [a], [b]. *)
Definition matched (ctx : SealUtil.SEALContext) (a b a0 b0 : SealCiphertextWrapper) : Prop :=
  exists a' b',
    SealUtil.match_modulus_and_scale_inplace ctx a b = Ok (a', b')
    /\ matched_pair ctx a' b' a0 b0.

(** The slot as [match_to_smallest_chain_index] leaves it. *)
Definition lowered (smallest : N) (s : HEType) : HEType :=
  match he_value s with
  | Plain _ => s
  | Cipher c =>
      set_ciphertext s {| chain_index := smallest;
                          scale := scale c;
                          payload := payload c |}
  end.

(** *** The offload protocol *)

Section Invariants.

Context {env : SealEnv}.

Local Open Scope nat_scope.
Local Open Scope list_scope.

(** What the session thread leaves alone when it handles a Relu result:
    everything but [m_relu_done_count] and the slots of [m_relu_data] that
    [m_unknown_relu_idx] names. *)
Definition relu_frame (st st' : HESealExecutable) : Prop :=
  m_session st' = m_session st
  /\ m_unknown_relu_idx st' = m_unknown_relu_idx st
  /\ m_max_pool_data st' = m_max_pool_data st
  /\ m_max_pool_done st' = m_max_pool_done st
  /\ List.length (m_relu_data st') = List.length (m_relu_data st)
  /\ forall i, ~ In i (m_unknown_relu_idx st) ->
               nth_error (m_relu_data st') i = nth_error (m_relu_data st) i.

(** What handling any message of the offload protocol leaves alone. *)
Definition message_frame (st st' : HESealExecutable) : Prop :=
  m_session st' = m_session st
  /\ m_unknown_relu_idx st' = m_unknown_relu_idx st
  /\ List.length (m_relu_data st') = List.length (m_relu_data st)
  /\ forall i, ~ In i (m_unknown_relu_idx st) ->
               nth_error (m_relu_data st') i = nth_error (m_relu_data st) i.


End Invariants.

(** ** What the client's answers carry *)

Section Answers.

Context {env : SealEnv}.

Local Open Scope string_scope.
Local Open Scope nat_scope.
Local Open Scope list_scope.

(** The slots [handle_message] hands to [handle_relu_result] for a message:
    the first [data_size] slots of the tensor of a Relu or BoundedRelu
    response, and none for any other message. *)
Definition relu_reply_slots (reply : Message) : list HEType :=
  match msg_type reply, msg_function reply, he_tensors reply with
  | RESPONSE, Some name, [pb_tensor] =>
      if String.eqb name "Relu" || String.eqb name "BoundedRelu" then
        match load_from_pb_tensor pb_tensor with
        | Ok he_tensor => firstn (data_size pb_tensor) (data he_tensor)
        | Err _ => []
        end
      else []
  | _, _, _ => []
  end.

(** What handling messages that carry [slots] does to the Relu buffers of
    the session thread: the slots go, in order, to the indices that
    [m_unknown_relu_idx] lists from [m_relu_done_count] on, the counter
    advances past them, and no other entry of [m_relu_data] changes. *)
Definition placed (st st' : HESealExecutable) (slots : list HEType) : Prop :=
  m_unknown_relu_idx st' = m_unknown_relu_idx st
  /\ m_relu_done_count st' = m_relu_done_count st + List.length slots
  /\ List.length (m_relu_data st') = List.length (m_relu_data st)
  /\ (forall k slot,
        nth_error slots k = Some slot ->
        exists idx,
          nth_error (m_unknown_relu_idx st) (m_relu_done_count st + k)
          = Some idx
          /\ nth_error (m_relu_data st') idx = Some slot)
  /\ (forall i,
        (forall k, k < List.length slots ->
                   nth_error (m_unknown_relu_idx st) (m_relu_done_count st + k)
                   <> Some i) ->
        nth_error (m_relu_data st') i = nth_error (m_relu_data st) i).

(** The events of an offloaded operation: a request that names its
    function and carries one tensor, and the waits for the answers. *)
Definition is_offload_event (e : Event) : bool :=
  match e with
  | write_message m =>
      match msg_type m, msg_function m, he_tensors m with
      | REQUEST, Some _, [_] => true
      | _, _, _ => false
      end
  | wait_relu_done _ => true
  | wait_max_pool_done => true
  | _ => false
  end.

(** The message [send_client_results] writes for a tensor of the result. *)
Definition result_message (pb_tensor : pb_HETensor) : Message :=
  {| msg_type := RESPONSE;
     msg_function := None;
     he_tensors := [pb_tensor];
     has_encryption_parameters := false |}.

End Answers.

(** ** The Add kernel

    [src/seal/kernel/add_seal.cpp].  The four overloads of
    [scalar_add_seal] get a name each.  The operands are passed by
    reference: a function returns the operands it may write to, as it
    leaves them, together with the output. *)

Module AddSeal.

(** The code the kernel calls in [seal_util.cpp] and in the SEAL library:
    the modulus manager, [Evaluator::add], the loop of the lazy path over
    the coefficient arrays of the two ciphertexts (it accumulates its second
    argument into its first), [add_plain] for a scalar, the CKKS encoder at
    a chain index and scale, [Evaluator::add_plain], and the ciphertext that
    [HESealBackend::create_empty_ciphertext] returns. *)
Class Evaluator : Type := {
  SealPlaintextWrapper : Type;
  match_modulus_and_scale_inplace :
    SealCiphertextWrapper -> SealCiphertextWrapper ->
    Result (SealCiphertextWrapper * SealCiphertextWrapper);
  evaluator_add :
    SealCiphertextWrapper -> SealCiphertextWrapper ->
    Result SealCiphertextWrapper;
  inline_add :
    SealCiphertextWrapper -> SealCiphertextWrapper ->
    Result SealCiphertextWrapper;
  add_plain : SealCiphertextWrapper -> Q -> Result SealCiphertextWrapper;
  encode : HEPlaintext -> N -> Q -> bool -> Result SealPlaintextWrapper;
  plaintext_chain_index : SealPlaintextWrapper -> N;
  evaluator_add_plain :
    SealCiphertextWrapper -> SealPlaintextWrapper ->
    Result SealCiphertextWrapper;
  create_empty_ciphertext : SealCiphertextWrapper
}.

(** ngraph's element types. *)
Inductive element_Type : Set :=
  | undefined | dynamic | boolean | bf16 | f16 | f32 | f64
  | i8 | i16 | i32 | i64 | u1 | u8 | u16 | u32 | u64.

(** [HESealBackend::is_supported_type], over [m_supported_types]. *)
Definition is_supported_type (type : element_Type) : bool :=
  match type with
  | f32 | i32 | i64 | f64 => true
  | _ => false
  end.

Section Kernel.

Context {ev : Evaluator}.

Local Open Scope nat_scope.
Local Open Scope list_scope.

(** [scalar_add_seal(SealCiphertextWrapper&, SealCiphertextWrapper&, out,
    he_seal_backend)]: the operands as the modulus manager leaves them, and
    the output. *)
Definition scalar_add_seal_cipher_cipher (he_seal_backend : HESealBackend)
    (arg0 arg1 out : SealCiphertextWrapper)
  : Result (SealCiphertextWrapper * SealCiphertextWrapper
            * SealCiphertextWrapper) :=
  matched <-? match_modulus_and_scale_inplace arg0 arg1 ;;
  let (arg0, arg1) := matched in
  if negb (m_lazy_mod he_seal_backend) then
    sum <-? evaluator_add arg0 arg1 ;; Ok (arg0, arg1, sum)
  else
    sum <-? inline_add out arg0 ;; Ok (arg0, arg1, sum).

(** [scalar_add_seal(SealCiphertextWrapper&, const HEPlaintext&, out,
    complex_packing, he_seal_backend)]. *)
Definition scalar_add_seal_cipher_plain (arg0 : SealCiphertextWrapper)
    (arg1 : HEPlaintext) (complex_packing : bool)
  : Result SealCiphertextWrapper :=
  let add_zero :=
    (List.length arg1 =? 0)
    || ((List.length arg1 =? 1) && Qeq_bool (nth 0 arg1 0%Q) 0%Q) in
  if add_zero then Ok arg0
  else if (List.length arg1 =? 1) && negb complex_packing then
    add_plain arg0 (nth 0 arg1 0%Q)
  else
    p <-? encode arg1 (chain_index arg0) (scale arg0) complex_packing ;;
    let chain_ind0 := chain_index arg0 in
    let chain_ind1 := plaintext_chain_index p in
    if negb (chain_ind0 =? chain_ind1)%N
    then Err (CheckFailure "Chain inds don't match")
    else evaluator_add_plain arg0 p.

(** [scalar_add_seal(const HEPlaintext&, const HEPlaintext&, HEPlaintext&)]:
    an operand of size 1 is added to every entry of the other; otherwise the
    entries are added up to the smaller size. *)
Definition scalar_add_seal_plain_plain (arg0 arg1 : HEPlaintext)
  : HEPlaintext :=
  if List.length arg0 =? 1 then
    map (fun x => (x + nth 0 arg0 0)%Q) arg1
  else if List.length arg1 =? 1 then
    map (fun x => (x + nth 0 arg1 0)%Q) arg0
  else
    let min_size := Nat.min (List.length arg0) (List.length arg1) in
    map (fun i => (nth i arg0 0 + nth i arg1 0)%Q) (seq 0 min_size).

(** [out.complex_packing() = v]. *)
Definition set_complex_packing (h : HEType) (v : bool) : HEType :=
  {| complex_packing := v;
     plaintext_packing := plaintext_packing h;
     batch_size := batch_size h;
     he_value := he_value h |}.

(** The ciphertext of [out], made empty first when [out] holds none. *)
Definition out_ciphertext (out : HEType) : SealCiphertextWrapper :=
  match he_value out with
  | Cipher c => c
  | Plain _ => create_empty_ciphertext
  end.

(** [scalar_add_seal(HEType&, HEType&, HEType&, he_seal_backend)]. *)
Definition scalar_add_seal (he_seal_backend : HESealBackend)
    (arg0 arg1 out : HEType) : Result (HEType * HEType * HEType) :=
  if negb (Bool.eqb (complex_packing arg0) (complex_packing arg1))
  then Err (CheckFailure "Complex packing types don't match")
  else
    let out := set_complex_packing out (complex_packing arg0) in
    match he_value arg0, he_value arg1 with
    | Cipher c0, Cipher c1 =>
        r <-? scalar_add_seal_cipher_cipher he_seal_backend c0 c1
                (out_ciphertext out) ;;
        let '(c0', c1', sum) := r in
        Ok (set_ciphertext arg0 c0', set_ciphertext arg1 c1',
            set_ciphertext out sum)
    | Cipher c0, Plain p1 =>
        sum <-? scalar_add_seal_cipher_plain c0 p1 (complex_packing arg0) ;;
        Ok (arg0, arg1, set_ciphertext out sum)
    | Plain p0, Cipher c1 =>
        sum <-? scalar_add_seal_cipher_plain c1 p0 (complex_packing arg0) ;;
        Ok (arg0, arg1, set_ciphertext out sum)
    | Plain p0, Plain p1 =>
        Ok (arg0, arg1, set_plaintext out (scalar_add_seal_plain_plain p0 p1))
    end.

(** The loop of [add_seal] from slot [i] on. *)
Fixpoint add_slots (he_seal_backend : HESealBackend)
    (indices : list nat) (arg0 arg1 out : list HEType)
  : Result (list HEType * list HEType * list HEType) :=
  match indices with
  | [] => Ok (arg0, arg1, out)
  | i :: rest =>
      a0 <-? at_index arg0 i ;;
      a1 <-? at_index arg1 i ;;
      o <-? at_index out i ;;
      r <-? scalar_add_seal he_seal_backend a0 a1 o ;;
      let '(a0', a1', o') := r in
      arg0' <-? assign arg0 i a0' ;;
      arg1' <-? assign arg1 i a1' ;;
      out' <-? assign out i o' ;;
      add_slots he_seal_backend rest arg0' arg1' out'
  end.

(** [add_seal], on three vectors that share no slot. *)
Definition add_seal (arg0 arg1 out : list HEType) (count : nat)
    (element_type : element_Type) (he_seal_backend : HESealBackend)
  : Result (list HEType * list HEType * list HEType) :=
  if negb (is_supported_type element_type)
  then Err (CheckFailure "Unsupported type")
  else if negb (count <=? List.length arg0)
  then Err (CheckFailure "Count is too large for arg0")
  else if negb (count <=? List.length arg1)
  then Err (CheckFailure "Count is too large for arg1")
  else add_slots he_seal_backend (seq 0 count) arg0 arg1 out.

(** What [add_seal] does to the slot at index [i] of its three vectors. *)
Definition added_at (he_seal_backend : HESealBackend)
    (arg0 arg1 out arg0' arg1' out' : list HEType) (i : nat) : Prop :=
  exists a0 a1 o a0' a1' o',
    nth_error arg0 i = Some a0 /\ nth_error arg1 i = Some a1
    /\ nth_error out i = Some o
    /\ scalar_add_seal he_seal_backend a0 a1 o = Ok (a0', a1', o')
    /\ nth_error arg0' i = Some a0' /\ nth_error arg1' i = Some a1'
    /\ nth_error out' i = Some o'.

End Kernel.

(** An evaluator for examples, on ciphertexts that carry their scaled
    values in the clear. *)
Definition toy_sum (a b : SealCiphertextWrapper) : SealCiphertextWrapper :=
  {| chain_index := chain_index a;
     scale := scale a;
     payload := map (fun xy => (fst xy + snd xy)%Q)
                    (combine (payload a) (payload b)) |}.

Definition toy_evaluator : Evaluator :=
  {| SealPlaintextWrapper := (N * list Q)%type;
     match_modulus_and_scale_inplace :=
       SealUtil.match_modulus_and_scale_inplace SealUtil.toy_context;
     evaluator_add := fun a b => Ok (toy_sum a b);
     inline_add := fun out a => Ok (toy_sum out a);
     add_plain := fun c x =>
       Ok {| chain_index := chain_index c;
             scale := scale c;
             payload := map (fun y => (y + x * scale c)%Q) (payload c) |};
     encode := fun p chain_ind scale _ =>
       Ok (chain_ind, map (fun x => (x * scale)%Q) p);
     plaintext_chain_index := fst;
     evaluator_add_plain := fun c p =>
       Ok {| chain_index := chain_index c;
             scale := scale c;
             payload := map (fun xy => (fst xy + snd xy)%Q)
                            (combine (payload c) (snd p)) |};
     create_empty_ciphertext :=
       {| chain_index := 0; scale := 1; payload := [] |} |}.

End AddSeal.

(** ** Encryption parameters

    [src/seal/he_seal_encryption_parameters.cpp]. *)

Module EncryptionParameters.

(** What the file takes from the SEAL library and from the machine:
    [seal::EncryptionParameters] with its equality, its polynomial modulus
    degree and its own serialisation; whether a [seal::SEALContext] built
    from the parameters at a security level has its parameters set; and
    [double], with its [==] and the 64 bits of its object representation. *)
Class SealLibrary : Type := {
  double : Type;
  double_eqb : double -> double -> bool;
  double_to_bits : double -> N;
  double_of_bits : N -> double;
  seal_EncryptionParameters : Type;
  seal_parms_eqb :
    seal_EncryptionParameters -> seal_EncryptionParameters -> bool;
  seal_poly_modulus_degree : seal_EncryptionParameters -> N;
  seal_save : seal_EncryptionParameters -> list Byte.byte;
  seal_load :
    list Byte.byte -> Result (seal_EncryptionParameters * list Byte.byte);
  parameters_set : seal_EncryptionParameters -> N -> bool
}.

Section Parameters.

Context {lib : SealLibrary}.

Local Open Scope string_scope.
Local Open Scope N_scope.
Local Open Scope list_scope.

Record HESealEncryptionParameters : Type := {
  m_scheme_name : string;
  m_seal_encryption_parameters : seal_EncryptionParameters;
  m_security_level : N;
  m_scale : double;
  m_complex_packing : bool
}.

Definition poly_modulus_degree (p : HESealEncryptionParameters) : N :=
  seal_poly_modulus_degree (m_seal_encryption_parameters p).

Definition valid_poly_modulus : list N :=
  [1024; 2048; 4096; 8192; 16384; 32768].

Definition valid_security_level : list N := [0; 128; 192; 256].

Definition check (cond : bool) (msg : string) : Result unit :=
  if cond then Ok tt else Err (CheckFailure msg).

(** [HESealEncryptionParameters::validate_parameters]. *)
Definition validate_parameters (p : HESealEncryptionParameters)
  : Result unit :=
  _ <-? check (String.eqb (m_scheme_name p) "HE_SEAL")
              "Invalid scheme name" ;;
  _ <-? check (existsb (N.eqb (poly_modulus_degree p)) valid_poly_modulus)
              "poly_modulus_degree must be 1024, 2048, 4096, 8192, 16384, 32768" ;;
  _ <-? check (existsb (N.eqb (m_security_level p)) valid_security_level)
              "security_level must be 0, 128, 192, 256" ;;
  check (parameters_set (m_seal_encryption_parameters p)
                        (m_security_level p))
        "Invalid parameters".

(** The constructor from a [seal::EncryptionParameters], which validates. *)
Definition HESealEncryptionParameters_new (scheme_name : string)
    (parms : seal_EncryptionParameters) (security_level : N)
    (scale : double) (complex_packing : bool)
  : Result HESealEncryptionParameters :=
  let p := {| m_scheme_name := scheme_name;
              m_seal_encryption_parameters := parms;
              m_security_level := security_level;
              m_scale := scale;
              m_complex_packing := complex_packing |} in
  _ <-? validate_parameters p ;; Ok p.

(** [this->operator==(other)]. *)
Definition equal (this other : HESealEncryptionParameters) : bool :=
  String.eqb (m_scheme_name other) (m_scheme_name this)
  && seal_parms_eqb (m_seal_encryption_parameters other)
                    (m_seal_encryption_parameters this)
  && (m_security_level other =? m_security_level this)
  && double_eqb (m_scale other) (m_scale this)
  && Bool.eqb (m_complex_packing other) (m_complex_packing this).

(** [HESealEncryptionParameters::same_context]. *)
Definition same_context (parms1 parms2 : HESealEncryptionParameters) : bool :=
  let p1 := {| m_scheme_name := m_scheme_name parms1;
               m_seal_encryption_parameters :=
                 m_seal_encryption_parameters parms1;
               m_security_level := m_security_level parms2;
               m_scale := m_scale parms2;
               m_complex_packing := m_complex_packing parms2 |} in
  let p2 := parms2 in
  equal p1 p2.

(** The object representation of an unsigned integer of [count] bytes, in
    the byte order of the host, which is taken to be little-endian. *)
Definition byte_of_N (n : N) : Byte.byte :=
  match Byte.of_N n with
  | Some b => b
  | None => Byte.x00
  end.

Fixpoint le_bytes (count : nat) (n : N) : list Byte.byte :=
  match count with
  | O => []
  | S c => byte_of_N (n mod 256) :: le_bytes c (n / 256)
  end.

Fixpoint le_value (bytes : list Byte.byte) : N :=
  match bytes with
  | [] => 0
  | b :: rest => Byte.to_N b + 256 * le_value rest
  end.

(** [stream.read(buffer, count)]; the source does not look at the state of
    the stream after a short read, which the model turns into an error. *)
Definition read (count : nat) (stream : list Byte.byte)
  : Result (list Byte.byte * list Byte.byte) :=
  if (count <=? List.length stream)%nat
  then Ok (firstn count stream, skipn count stream)
  else Err out_of_range.

(** [HESealEncryptionParameters::save]: what it appends to the stream. *)
Definition save (p : HESealEncryptionParameters) : list Byte.byte :=
  le_bytes 8 (double_to_bits (m_scale p))
  ++ [if m_complex_packing p then Byte.x01 else Byte.x00]
  ++ le_bytes 8 (m_security_level p)
  ++ seal_save (m_seal_encryption_parameters p).

(** [HESealEncryptionParameters::load]: the parameters and the rest of the
    stream. *)
Definition load (stream : list Byte.byte)
  : Result (HESealEncryptionParameters * list Byte.byte) :=
  r <-? read 8 stream ;;
  let scale := double_of_bits (le_value (fst r)) in
  r <-? read 1 (snd r) ;;
  let complex_packing := negb (le_value (fst r) =? 0) in
  r <-? read 8 (snd r) ;;
  let security_level := le_value (fst r) in
  r <-? seal_load (snd r) ;;
  p <-? HESealEncryptionParameters_new "HE_SEAL" (fst r) security_level
          scale complex_packing ;;
  Ok (p, snd r).

End Parameters.

(** A library for examples: a [double] is its bit pattern, and the SEAL
    parameters are the polynomial modulus degree, saved in two bytes. *)
Definition toy_library : SealLibrary :=
  {| double := N;
     double_eqb := N.eqb;
     double_to_bits := fun d => d;
     double_of_bits := fun b => b;
     seal_EncryptionParameters := N;
     seal_parms_eqb := N.eqb;
     seal_poly_modulus_degree := fun s => s;
     seal_save := fun s => le_bytes 2 s;
     seal_load := fun stream =>
       r <-? read 2 stream ;; Ok (le_value (fst r), snd r);
     parameters_set := fun _ _ => true |}.

Definition toy_parameters : @HESealEncryptionParameters toy_library :=
  @Build_HESealEncryptionParameters toy_library
    "HE_SEAL" 1024%N 128%N 1073741824%N true.

End EncryptionParameters.

(** ** The session thread: keys, the inference shape and the client's inputs

    The part of [HESealExecutable::handle_message] that precedes the results
    of offloaded operations, with the members it touches. *)

Module Session.

(** What these functions call outside [he_seal_executable.cpp]: the loaders
    of the SEAL keys, the fields of a wire tensor, the wire tensor
    [send_inference_shape] fills in for a parameter (its shape, its first
    provenance tag or else its name, and whether it is packed),
    [param_originates_from_name], [HETensor::batch_size], the slot count of
    the CKKS encoder, and the loader that continues a tensor, with the
    tensor's [done_loading]. *)
Class SessionEnv {env : SealEnv} : Type := {
  seal_PublicKey : Type;
  seal_RelinKeys : Type;
  public_key_load : string -> Result seal_PublicKey;
  relin_keys_load : string -> Result seal_RelinKeys;
  pb_tensor_name : pb_HETensor -> string;
  pb_tensor_shape : pb_HETensor -> list nat;
  pb_tensor_packed : pb_HETensor -> bool;
  inference_shape_tensor : ParameterNode -> pb_HETensor;
  param_originates_from_name : ParameterNode -> string -> bool;
  HETensor_batch_size : list nat -> bool -> nat;
  slot_count : nat;
  load_into_tensor : HETensor -> pb_HETensor -> Result HETensor;
  done_loading : HETensor -> bool
}.

Section Server.

Context {env : SealEnv} {senv : SessionEnv}.

Local Open Scope string_scope.
Local Open Scope nat_scope.
Local Open Scope list_scope.

(** A [pb::TCPMessage] with the keys it may carry. *)
Record KeyMessage : Type := {
  pb_message : Message;
  public_key : option string;
  eval_key : option string
}.

(** The members the key exchange and the receipt of the client's inputs
    touch, after those of [HESealExecutable] above; the keys and the complex
    packing are the backend's. *)
Record Server : Type := {
  executable : HESealExecutable;
  m_client_public_key_set : bool;
  m_client_eval_key_set : bool;
  m_sent_inference_shape : bool;
  m_client_inputs : list (option HETensor);
  m_client_inputs_received : bool;
  m_batch_size : nat;
  m_public_key : option seal_PublicKey;
  m_relin_keys : option seal_RelinKeys;
  backend_complex_packing : bool
}.

Definition with_executable (s : Server) (e : HESealExecutable) : Server :=
  {| executable := e;
     m_client_public_key_set := m_client_public_key_set s;
     m_client_eval_key_set := m_client_eval_key_set s;
     m_sent_inference_shape := m_sent_inference_shape s;
     m_client_inputs := m_client_inputs s;
     m_client_inputs_received := m_client_inputs_received s;
     m_batch_size := m_batch_size s;
     m_public_key := m_public_key s;
     m_relin_keys := m_relin_keys s;
     backend_complex_packing := backend_complex_packing s |}.

Definition with_public_key (s : Server) (key : seal_PublicKey) : Server :=
  {| executable := executable s;
     m_client_public_key_set := true;
     m_client_eval_key_set := m_client_eval_key_set s;
     m_sent_inference_shape := m_sent_inference_shape s;
     m_client_inputs := m_client_inputs s;
     m_client_inputs_received := m_client_inputs_received s;
     m_batch_size := m_batch_size s;
     m_public_key := Some key;
     m_relin_keys := m_relin_keys s;
     backend_complex_packing := backend_complex_packing s |}.

Definition with_relin_keys (s : Server) (keys : seal_RelinKeys) : Server :=
  {| executable := executable s;
     m_client_public_key_set := m_client_public_key_set s;
     m_client_eval_key_set := true;
     m_sent_inference_shape := m_sent_inference_shape s;
     m_client_inputs := m_client_inputs s;
     m_client_inputs_received := m_client_inputs_received s;
     m_batch_size := m_batch_size s;
     m_public_key := m_public_key s;
     m_relin_keys := Some keys;
     backend_complex_packing := backend_complex_packing s |}.

Definition with_sent_inference_shape (s : Server) (v : bool) : Server :=
  {| executable := executable s;
     m_client_public_key_set := m_client_public_key_set s;
     m_client_eval_key_set := m_client_eval_key_set s;
     m_sent_inference_shape := v;
     m_client_inputs := m_client_inputs s;
     m_client_inputs_received := m_client_inputs_received s;
     m_batch_size := m_batch_size s;
     m_public_key := m_public_key s;
     m_relin_keys := m_relin_keys s;
     backend_complex_packing := backend_complex_packing s |}.

Definition with_client_inputs (s : Server) (v : list (option HETensor))
  : Server :=
  {| executable := executable s;
     m_client_public_key_set := m_client_public_key_set s;
     m_client_eval_key_set := m_client_eval_key_set s;
     m_sent_inference_shape := m_sent_inference_shape s;
     m_client_inputs := v;
     m_client_inputs_received := m_client_inputs_received s;
     m_batch_size := m_batch_size s;
     m_public_key := m_public_key s;
     m_relin_keys := m_relin_keys s;
     backend_complex_packing := backend_complex_packing s |}.

Definition with_client_inputs_received (s : Server) (v : bool) : Server :=
  {| executable := executable s;
     m_client_public_key_set := m_client_public_key_set s;
     m_client_eval_key_set := m_client_eval_key_set s;
     m_sent_inference_shape := m_sent_inference_shape s;
     m_client_inputs := m_client_inputs s;
     m_client_inputs_received := v;
     m_batch_size := m_batch_size s;
     m_public_key := m_public_key s;
     m_relin_keys := m_relin_keys s;
     backend_complex_packing := backend_complex_packing s |}.

Definition with_batch_size (s : Server) (v : nat) : Server :=
  {| executable := executable s;
     m_client_public_key_set := m_client_public_key_set s;
     m_client_eval_key_set := m_client_eval_key_set s;
     m_sent_inference_shape := m_sent_inference_shape s;
     m_client_inputs := m_client_inputs s;
     m_client_inputs_received := m_client_inputs_received s;
     m_batch_size := v;
     m_public_key := m_public_key s;
     m_relin_keys := m_relin_keys s;
     backend_complex_packing := backend_complex_packing s |}.

(** A member function: the members after the call, also when it throws, and
    the result or the exception. *)
Definition Run (A : Type) : Type := Server -> Server * Result A.

Definition done {A} (a : A) : Run A := fun s => (s, Ok a).

Definition and_then {A B} (c : Run A) (k : A -> Run B) : Run B :=
  fun s =>
    match c s with
    | (s', Ok a) => k a s'
    | (s', Err e) => (s', Err e)
    end.

Definition check (cond : bool) (msg : string) : Run unit :=
  fun s => (s, if cond then Ok tt else Err (CheckFailure msg)).

Definition update (f : Server -> Server) : Run unit := fun s => (f s, Ok tt).

Definition returned {A} (r : Result A) : Run A := fun s => (s, r).

Definition when (cond : bool) (c : Run unit) : Run unit :=
  if cond then c else done tt.

(** A member function of the executable above, run on its members. *)
Definition on_executable {A} (c : Exec A) : Run A :=
  fun s =>
    let (e, r) := c (executable s) in (with_executable s e, r).

Definition is_some {A} (o : option A) : bool :=
  match o with Some _ => true | None => false end.

(** [HESealExecutable::load_public_key]. *)
Definition load_public_key (message : KeyMessage) : Run unit :=
  and_then (check (is_some (public_key message))
                  "pb_message doesn't have public key") (fun _ =>
  and_then (returned (match public_key message with
                      | Some pk_str => public_key_load pk_str
                      | None => Err out_of_range
                      end)) (fun key =>
  update (fun s => with_public_key s key))).

(** [HESealExecutable::load_eval_key]. *)
Definition load_eval_key (message : KeyMessage) : Run unit :=
  and_then (check (is_some (eval_key message))
                  "pb_message doesn't have eval key") (fun _ =>
  and_then (returned (match eval_key message with
                      | Some evk_str => relin_keys_load evk_str
                      | None => Err out_of_range
                      end)) (fun keys =>
  update (fun s => with_relin_keys s keys))).

(** The message of [send_inference_shape]: a tensor for each parameter from
    the client, in the order of the parameters. *)
Definition inference_shape_message (parameters : list ParameterNode)
  : Message :=
  {| msg_type := REQUEST;
     msg_function := Some "Parameter";
     he_tensors := map inference_shape_tensor (filter from_client parameters);
     has_encryption_parameters := false |}.

(** [HESealExecutable::send_inference_shape]. *)
Definition send_inference_shape : Run unit :=
  and_then (update (fun s => with_sent_inference_shape s true)) (fun _ =>
  fun s =>
    on_executable
      (session_write (inference_shape_message (m_parameters (executable s))))
      s).

(** [HESealExecutable::set_batch_size]. *)
Definition set_batch_size (batch_size : nat) : Run unit :=
  fun s =>
    let max_batch_size :=
      if backend_complex_packing s then slot_count * 2 else slot_count in
    and_then (check (batch_size <=? max_batch_size) "Batch size too large")
             (fun _ => update (fun s => with_batch_size s batch_size)) s.

(** The lambda [find_matching_parameter_index], from [param_idx] on. *)
Fixpoint find_matching_parameter_index (input_parameters : list ParameterNode)
    (tensor_name : string) (param_idx : nat) : option nat :=
  match input_parameters with
  | [] => None
  | parameter :: rest =>
      if param_originates_from_name parameter tensor_name
      then Some param_idx
      else find_matching_parameter_index rest tensor_name (S param_idx)
  end.

(** The lambda [done_loading], from [parm_idx] on. *)
Fixpoint inputs_done_loading (input_parameters : list ParameterNode)
    (client_inputs : list (option HETensor)) (parm_idx : nat)
  : Result bool :=
  match input_parameters with
  | [] => Ok true
  | param :: rest =>
      if from_client param then
        input <-? at_index client_inputs parm_idx ;;
        match input with
        | None => Ok false
        | Some tensor =>
            if negb (done_loading tensor) then Ok false
            else inputs_done_loading rest client_inputs (S parm_idx)
        end
      else inputs_done_loading rest client_inputs (S parm_idx)
  end.

(** [HESealExecutable::handle_client_ciphers]. *)
Definition handle_client_ciphers (message : KeyMessage) : Run unit :=
  let tensors := he_tensors (pb_message message) in
  and_then (check (0 <? List.length tensors)
                  "Client received empty tensor message") (fun _ =>
  and_then (check (List.length tensors =? 1)
                  "Client only supports 1 client tensor") (fun _ =>
  and_then (returned (at_index tensors 0)) (fun pb_tensor =>
  and_then (set_batch_size
              (HETensor_batch_size (pb_tensor_shape pb_tensor)
                                   (pb_tensor_packed pb_tensor))) (fun _ =>
  fun s =>
    let input_parameters := m_parameters (executable s) in
    match find_matching_parameter_index input_parameters
            (pb_tensor_name pb_tensor) 0 with
    | None =>
        (s, Err (CheckFailure "Could not find matching parameter name"))
    | Some param_idx =>
        and_then (returned (at_index (m_client_inputs s) param_idx))
          (fun client_input =>
        and_then (returned (match client_input with
                            | None => load_from_pb_tensor pb_tensor
                            | Some he_tensor =>
                                load_into_tensor he_tensor pb_tensor
                            end)) (fun he_tensor =>
        and_then (returned (assign (m_client_inputs s) param_idx
                                   (Some he_tensor))) (fun client_inputs =>
        and_then (update (fun s => with_client_inputs s client_inputs))
          (fun _ =>
        and_then (returned (inputs_done_loading input_parameters
                                                client_inputs 0))
          (fun all_loaded =>
        when all_loaded
             (update (fun s => with_client_inputs_received s true)))))))
          s
    end)))).

(** [HESealExecutable::handle_message], whole: the keys and the inference
    shape come before the results of offloaded operations, which are the
    part of a [RESPONSE] that [handle_message] above models. *)
Definition handle_message (message : KeyMessage) : Run unit :=
  match msg_type (pb_message message) with
  | RESPONSE =>
      and_then (when (is_some (public_key message))
                     (load_public_key message)) (fun _ =>
      and_then (when (is_some (eval_key message))
                     (load_eval_key message)) (fun _ =>
      and_then (fun s =>
                  when (negb (m_sent_inference_shape s)
                        && m_client_public_key_set s
                        && m_client_eval_key_set s)
                       send_inference_shape s) (fun _ =>
      on_executable (handle_message (pb_message message)))))
  | REQUEST =>
      when (0 <? List.length (he_tensors (pb_message message)))
           (handle_client_ciphers message)
  | UNKNOWN => check false "Unknonwn TCPMessage type"
  end.

(** The session thread, handling the messages it reads one after the
    other. *)
Fixpoint handle_messages (messages : list KeyMessage) : Run unit :=
  match messages with
  | [] => done tt
  | message :: rest =>
      and_then (handle_message message) (fun _ => handle_messages rest)
  end.

End Server.

(** A session for examples, over the small environment: one parameter
    [x] from the client, tensors named [x], and four slots. *)
Definition toy_session_env : @SessionEnv toy_env :=
  @Build_SessionEnv toy_env
    string string
    (fun s => Ok s)
    (fun s => Ok s)
    (fun _ => "x"%string)
    (fun pb : list HEType => [1; List.length pb])
    (fun _ => false)
    (fun _ => @nil HEType)
    (fun p name => String.eqb (param_name p) name)
    (fun shape packed => if packed then hd 1 shape else 1)
    4
    (fun t (pb : list HEType) => Ok (set_data t (data t ++ pb)))
    (fun _ => true).

(** The server before any message: no key, no input. *)
Definition toy_server : @Server toy_env toy_session_env :=
  @Build_Server toy_env toy_session_env
    toy_client_executable false false false [None] false 1 None None false.

Definition toy_keys_message : @KeyMessage toy_env :=
  @Build_KeyMessage toy_env
    (@Build_TCPMessage (list HEType) RESPONSE None [] false)
    (Some "pk"%string) (Some "evk"%string).

Definition toy_inputs_message (tensors : list (list HEType))
  : @KeyMessage toy_env :=
  @Build_KeyMessage toy_env
    (@Build_TCPMessage (list HEType) REQUEST None tensors false)
    None None.

End Session.

(** ** Further examples *)

Section MoreExamples.

Local Open Scope string_scope.
Local Open Scope nat_scope.
Local Open Scope list_scope.

(** A node with the given axes (for Softmax, and as reduction axes for Max)
    and upper bounds (for Slice). *)
Definition toy_axes_node (op : OP_TYPEID.t) (name : string)
    (axes upper_bounds : list nat) : Node :=
  {| node_typeid := op;
     description := name;
     get_alpha := 6%Q;
     get_reduction_axes := axes;
     get_axes := axes;
     get_upper_bounds := upper_bounds |}.

(** A packed tensor of shape [{2, 3}]: three slots, each a batch of two. *)
Definition toy_packed_tensor : HETensor := HETensor_new [2; 3] true.

(** The small environment with an Add kernel that throws. *)
Definition toy_failing_env : SealEnv :=
  {| pb_HETensor := list HEType;
     data_size := @List.length HEType;
     write_to_pb_tensors := fun t => [data t];
     load_from_pb_tensor := fun pb =>
       Ok (set_data (HETensor_new [1; List.length pb] false) pb);
     client_reply := toy_client_reply;
     create_tensor := fun _ _ => HETensor_new [1] false;
     match_to_smallest_chain_index :=
       SealUtil.match_to_smallest_chain_index;
     max_pool_seal_max_list := fun _ => [];
     scalar_relu_seal := toy_relu;
     scalar_bounded_relu_seal := toy_bounded_relu;
     mod_reduce_seal := fun _ d => Ok d;
     rescale_seal := fun _ d => Ok d;
     add_seal := fun _ _ _ _ => Err ScaleMismatch;
     avg_pool_seal := toy_kernel;
     batch_norm_inference_seal := toy_kernel;
     bounded_relu_seal := toy_kernel;
     broadcast_seal := toy_kernel;
     concat_seal := toy_kernel;
     constant_seal := toy_kernel;
     convolution_seal := toy_kernel;
     divide_seal := toy_kernel;
     dot_seal := toy_kernel;
     exp_seal := toy_kernel;
     max_seal := toy_kernel;
     max_pool_seal := toy_kernel;
     minimum_seal := toy_kernel;
     multiply_seal := toy_kernel;
     negate_seal := toy_kernel;
     pad_seal := toy_kernel;
     power_seal := toy_kernel;
     relu_seal := toy_kernel;
     reshape_seal := toy_kernel;
     result_seal := toy_kernel;
     reverse_seal := toy_kernel;
     slice_seal := toy_kernel;
     softmax_seal := toy_kernel;
     subtract_seal := toy_kernel;
     sum_seal := toy_kernel |}.

(** An executable of that environment with lazy mod set. *)
Definition toy_failing_executable : @HESealExecutable toy_failing_env :=
  @Build_HESealExecutable toy_failing_env
    {| m_lazy_mod := true; m_enable_client := false |}
    [] [] [] false [] [] 0 [] false [] [].

End MoreExamples.

(** * Properties *)

(** ** Results *)

Lemma rbind_ok {A B} (r : Result A) (k : A -> Result B) (b : B) :
  rbind r k = Ok b -> exists a, r = Ok a /\ k a = Ok b.
Proof.
  destruct r as [a|e]; simpl; intro H; [exists a; auto | discriminate].
Qed.

Lemma mapR_pointwise {A B} (f : A -> Result B) (g : A -> B) (l : list A) :
  (forall x, In x l -> f x = Ok (g x)) -> mapR f l = Ok (map g l).
Proof.
  induction l as [|x xs IH]; intro H; simpl.
  - reflexivity.
  - rewrite (H x (or_introl eq_refl)). simpl.
    rewrite IH by (intros y Hy; apply H; right; exact Hy).
    reflexivity.
Qed.

Lemma at_index_ok {A} (v : list A) (i : nat) (x : A) :
  at_index v i = Ok x <-> nth_error v i = Some x.
Proof.
  unfold at_index. destruct (nth_error v i); split; intro H;
    try discriminate; inversion H; reflexivity.
Qed.

(** ** The modulus-chain manager *)

Section ModulusChain.

Import SealUtil.
Local Open Scope Q_scope.

Lemma Qlt_bool_iff (x y : Q) : Qlt_bool x y = true <-> x < y.
Proof.
  unfold Qlt_bool. rewrite negb_true_iff. split; intro H.
  - apply Qnot_le_lt. intro L. apply Qle_bool_iff in L. congruence.
  - destruct (Qle_bool y x) eqn:E; [|reflexivity].
    apply Qle_bool_iff in E. exfalso. apply (Qlt_not_le _ _ H E).
Qed.

Lemma scale_close_iff (ctx : SEALContext) (sa sb : Q) :
  scale_close ctx sa sb = true <-> sa < tol ctx * sb /\ sb < tol ctx * sa.
Proof.
  unfold scale_close. rewrite andb_true_iff, !Qlt_bool_iff. tauto.
Qed.

Lemma scale_close_sym (ctx : SEALContext) (sa sb : Q) :
  scale_close ctx sa sb = scale_close ctx sb sa.
Proof. unfold scale_close. apply andb_comm. Qed.

Lemma ratio_close (t sa sb : Q) :
  1 < t -> 0 < sa -> 0 < sb -> sa < t * sb -> sb < t * sa ->
  Qabs (sa / sb - 1) <= t - 1.
Proof.
  intros Ht Ha Hb Hab Hba.
  assert (Hr : sa / sb * sb == sa) by (field; lra).
  set (r := sa / sb) in *.
  assert (0 < r) by (subst r; apply Qlt_shift_div_l; lra).
  apply Qabs_Qle_condition. split; nra.
Qed.

Lemma div_close (t sa sb x : Q) :
  1 < t -> 0 < sa -> 0 < sb -> sa < t * sb -> sb < t * sa ->
  Qabs (x / sb - x / sa) <= (t - 1) * Qabs (x / sa).
Proof.
  intros Ht Ha Hb Hab Hba.
  assert (E : x / sb - x / sa == (x / sa) * (sa / sb - 1)) by (field; lra).
  rewrite E, Qabs_Qmult, Qmult_comm.
  apply Qmult_le_compat_r.
  - apply ratio_close; assumption.
  - apply Qabs_nonneg.
Qed.

Lemma all_close_refl (ctx : SEALContext) (xs : HEPlaintext) :
  1 < tol ctx -> all_close ctx xs xs.
Proof.
  intro Ht. induction xs as [|x xs IH]; constructor; [|exact IH].
  assert (E : x - x == 0) by ring. rewrite E. simpl.
  apply Qmult_le_0_compat; [lra | apply Qabs_nonneg].
Qed.

Lemma all_close_rescaled (ctx : SEALContext) (sa sb : Q) (p : list Q) :
  1 < tol ctx -> 0 < sa -> 0 < sb -> scale_close ctx sa sb = true ->
  all_close ctx (map (fun x => x / sb) p) (map (fun x => x / sa) p).
Proof.
  intros Ht Ha Hb Hc. apply scale_close_iff in Hc. destruct Hc as [H1 H2].
  induction p as [|x p IH]; simpl; constructor; [|exact IH].
  apply div_close; assumption.
Qed.

(** Mod-switching moves down the chain and touches nothing else. *)
Lemma mod_switch_down_inv (k : nat) :
  forall c c', mod_switch_down k c = Ok c' ->
    (N.of_nat k <= chain_index c)%N
    /\ chain_index c' = (chain_index c - N.of_nat k)%N
    /\ scale c' = scale c /\ payload c' = payload c.
Proof.
  induction k as [|k IH]; intros c c' H.
  - simpl in H. inversion H; subst. repeat split; lia.
  - cbn [mod_switch_down] in H. apply rbind_ok in H.
    destruct H as (c1 & H1 & H2). unfold mod_switch_to_next in H1.
    destruct (chain_index c =? 0)%N eqn:E; [discriminate|].
    apply N.eqb_neq in E. inversion H1; subst c1; clear H1.
    apply IH in H2. simpl in H2. destruct H2 as (L & I & S & P).
    repeat split; try assumption; lia.
Qed.

Lemma mod_switch_down_ok (k : nat) :
  forall c, (N.of_nat k <= chain_index c)%N ->
    exists c', mod_switch_down k c = Ok c'.
Proof.
  induction k as [|k IH]; intros c L.
  - exists c. reflexivity.
  - cbn [mod_switch_down]. unfold mod_switch_to_next.
    destruct (chain_index c =? 0)%N eqn:E.
    + apply N.eqb_eq in E. lia.
    + simpl. apply IH. simpl. lia.
Qed.

Lemma mod_switch_to_ok (c : SealCiphertextWrapper) (target : N) :
  (target <= chain_index c)%N ->
  exists c', mod_switch_to c target = Ok c'
    /\ chain_index c' = target
    /\ scale c' = scale c /\ payload c' = payload c.
Proof.
  intro L. unfold mod_switch_to.
  destruct (@mod_switch_down_ok (N.to_nat (chain_index c - target)) c) as [c' H];
    [lia|].
  exists c'. split; [exact H|].
  apply mod_switch_down_inv in H. destruct H as (_ & I & S & P).
  repeat split; try assumption. lia.
Qed.

(** Step 1 of the manager: both operands end at the smaller chain index. *)
Lemma match_chain_indices (a b : SealCiphertextWrapper) :
  exists a1 b1,
    match_modulus a b = Ok (a1, b1)
    /\ chain_index a1 = N.min (chain_index a) (chain_index b)
    /\ chain_index b1 = N.min (chain_index a) (chain_index b)
    /\ scale a1 = scale a /\ payload a1 = payload a
    /\ scale b1 = scale b /\ payload b1 = payload b.
Proof.
  unfold match_modulus. cbv zeta.
  destruct (chain_index b <? chain_index a)%N eqn:Eba;
    destruct (chain_index a <? chain_index b)%N eqn:Eab;
    try apply N.ltb_lt in Eba; try apply N.ltb_lt in Eab;
    try apply N.ltb_ge in Eba; try apply N.ltb_ge in Eab.
  - lia.
  - destruct (@mod_switch_to_ok a (chain_index b)) as (a1 & H & I & S & P); [lia|].
    exists a1, b. rewrite H. cbn [rbind].
    repeat split; try assumption; try reflexivity; lia.
  - destruct (@mod_switch_to_ok b (chain_index a)) as (b1 & H & I & S & P); [lia|].
    exists a, b1. rewrite H. cbn [rbind].
    repeat split; try assumption; try reflexivity; lia.
  - exists a, b. cbn [rbind]. repeat split; try reflexivity; lia.
Qed.

Lemma match_modulus_inv (a b a' b' : SealCiphertextWrapper) :
  match_modulus a b = Ok (a', b') ->
  chain_index a' = chain_index b'
  /\ scale a' = scale a /\ payload a' = payload a
  /\ scale b' = scale b /\ payload b' = payload b.
Proof.
  intro H.
  destruct (match_chain_indices a b)
    as (a1 & b1 & E & Ia & Ib & Sa & Pa & Sb & Pb).
  rewrite E in H. inversion H; subst a1 b1.
  repeat split; congruence.
Qed.

Lemma prime_positive (q : positive) : 0 < inject_Z (Zpos q).
Proof. unfold Qlt, inject_Z. simpl. lia. Qed.

(** Rescaling goes one step down and divides scale and values by the prime
    of the level it leaves. *)
Lemma rescale_to_next_inv (ctx : SEALContext) (c c' : SealCiphertextWrapper) :
  rescale_to_next ctx c = Ok c' ->
  exists q,
    nth_error (coeff_modulus ctx) (N.to_nat (chain_index c)) = Some q
    /\ chain_index c' = N.pred (chain_index c)
    /\ scale c' = scale c / inject_Z (Zpos q)
    /\ payload c' = map (fun x => x / inject_Z (Zpos q)) (payload c).
Proof.
  unfold rescale_to_next. intro H.
  destruct (chain_index c =? 0)%N; [discriminate|].
  destruct (nth_error (coeff_modulus ctx) (N.to_nat (chain_index c))) as [q|];
    [|discriminate].
  inversion H; subst c'; clear H. exists q. repeat split.
Qed.

Lemma all_close_of_Qeq (ctx : SEALContext) (xs ys : HEPlaintext) :
  1 < tol ctx -> Forall2 Qeq xs ys -> all_close ctx xs ys.
Proof.
  intros Ht H. induction H as [|x y xs ys E H IH]; constructor; [|exact IH].
  assert (Z : x - y == 0) by (rewrite E; ring). rewrite Z. simpl.
  apply Qmult_le_0_compat; [lra | apply Qabs_nonneg].
Qed.

Lemma all_close_Qeq_r (ctx : SEALContext) (xs ys zs : HEPlaintext) :
  all_close ctx xs ys -> Forall2 Qeq ys zs -> all_close ctx xs zs.
Proof.
  intro H. revert zs.
  induction H as [|x y xs ys C H IH]; intros zs Hz; inversion Hz; subst;
    constructor; [|apply IH; assumption].
  match goal with E : y == _ |- _ => rewrite <- E end. exact C.
Qed.

(** A rescaled ciphertext decodes to the same values. *)
Lemma rescaled_values (q s : Q) (p : list Q) :
  0 < q -> 0 < s ->
  Forall2 Qeq (map (fun x => x / (s / q)) (map (fun x => x / q) p))
              (map (fun x => x / s) p).
Proof.
  intros Hq Hs. induction p as [|x p IH]; simpl; constructor; [|exact IH].
  field. split; lra.
Qed.

Lemma Forall2_Qeq_refl (p : list Q) : Forall2 Qeq p p.
Proof. induction p; constructor; [reflexivity | assumption]. Qed.




(** What a completed call leaves, for operands with positive scales. *)
Lemma match_modulus_and_scale_inplace_inv (ctx : SEALContext)
    (a b a' b' : SealCiphertextWrapper) :
  1 < tol ctx -> 0 < scale a -> 0 < scale b ->
  match_modulus_and_scale_inplace ctx a b = Ok (a', b') ->
  matched_pair ctx a' b' a b.
Proof.
  intros Ht Ha Hb H. unfold match_modulus_and_scale_inplace in H.
  cbv zeta in H. unfold matched_pair.
  destruct (Qeq_bool (scale a) (scale b)) eqn:Eq.
  { apply Qeq_bool_iff in Eq. apply match_modulus_inv in H.
    destruct H as (I & Sa & Pa & Sb & Pb).
    split; [exact I|]. split.
    - rewrite Sa, Sb. apply scale_close_iff. split; nra.
    - unfold decrypt. rewrite Sa, Pa, Sb, Pb.
      split; apply all_close_refl; exact Ht. }
  destruct (scale_close ctx (scale a) (scale b)) eqn:Hc.
  { apply rbind_ok in H. destruct H as ([a1 b1] & M & R).
    inversion R; subst a' b'; clear R. apply match_modulus_inv in M.
    destruct M as (I & Sa & Pa & Sb & Pb). cbn [fst snd].
    split; [exact I|]. split.
    - simpl. rewrite Sb. apply scale_close_iff. split; nra.
    - unfold decrypt. simpl. rewrite Pa, Sb, Pb.
      split; [|apply all_close_refl; exact Ht].
      apply all_close_rescaled; assumption. }
  destruct (differ_by_matching_prime ctx a (scale b)) eqn:Da.
  { apply rbind_ok in H. destruct H as (a1 & R & M).
    apply rescale_to_next_inv in R. destruct R as (q & Nq & _ & Sa1 & Pa1).
    unfold differ_by_matching_prime in Da. rewrite Nq in Da.
    apply Qeq_bool_iff in Da. pose proof (prime_positive q) as Hq.
    apply match_modulus_inv in M. destruct M as (I & Sa & Pa & Sb & Pb).
    assert (E : scale a / inject_Z (Zpos q) == scale b)
      by (rewrite Da; field; lra).
    split; [exact I|]. split.
    - rewrite Sa, Sb, Sa1. apply scale_close_iff. rewrite E. split; nra.
    - unfold decrypt. rewrite Sa, Pa, Sb, Pb, Sa1, Pa1.
      split; [|apply all_close_refl; exact Ht].
      apply all_close_of_Qeq; [exact Ht|].
      apply rescaled_values; assumption. }
  destruct (differ_by_matching_prime ctx b (scale a)) eqn:Db; [|discriminate].
  apply rbind_ok in H. destruct H as (b1 & R & M).
  apply rescale_to_next_inv in R. destruct R as (q & Nq & _ & Sb1 & Pb1).
  unfold differ_by_matching_prime in Db. rewrite Nq in Db.
  apply Qeq_bool_iff in Db. pose proof (prime_positive q) as Hq.
  apply match_modulus_inv in M. destruct M as (I & Sa & Pa & Sb & Pb).
  assert (E : scale b / inject_Z (Zpos q) == scale a)
    by (rewrite Db; field; lra).
  split; [exact I|]. split.
  - rewrite Sa, Sb, Sb1. apply scale_close_iff. rewrite E. split; nra.
  - unfold decrypt. rewrite Sa, Pa, Sb, Pb, Sb1, Pb1.
    split; [apply all_close_refl; exact Ht|].
    apply all_close_of_Qeq; [exact Ht|].
    apply rescaled_values; assumption.
Qed.

Lemma matched_pair_values (ctx : SEALContext)
    (a' b' a b a0 b0 : SealCiphertextWrapper) :
  matched_pair ctx a' b' a b ->
  Forall2 Qeq (decrypt a) (decrypt a0) ->
  Forall2 Qeq (decrypt b) (decrypt b0) ->
  matched_pair ctx a' b' a0 b0.
Proof.
  intros (I & S & Va & Vb) Ea Eb. unfold matched_pair.
  repeat split; try assumption; eapply all_close_Qeq_r; eassumption.
Qed.

(** Operands with scales within epsilon of each other are matched whatever
    their chain indices: the call completes. *)
Lemma matched_close_scales (ctx : SEALContext) (a b a0 b0 : SealCiphertextWrapper) :
  1 < tol ctx -> 0 < scale a -> 0 < scale b ->
  scale_close ctx (scale a) (scale b) = true ->
  scale a = scale a0 -> payload a = payload a0 ->
  scale b = scale b0 -> payload b = payload b0 ->
  matched ctx a b a0 b0.
Proof.
  intros Ht Ha Hb Hc Sa Pa Sb Pb.
  assert (V : forall c c0 : SealCiphertextWrapper,
             scale c = scale c0 -> payload c = payload c0 ->
             Forall2 Qeq (decrypt c) (decrypt c0)).
  { intros c c0 S P. unfold decrypt. rewrite S, P. apply Forall2_Qeq_refl. }
  destruct (match_chain_indices a b) as (a1 & b1 & M & _).
  assert (exists a' b', match_modulus_and_scale_inplace ctx a b = Ok (a', b'))
    as (a' & b' & E).
  { unfold match_modulus_and_scale_inplace. cbv zeta. rewrite Hc, M.
    destruct (Qeq_bool (scale a) (scale b)); eexists; eexists; reflexivity. }
  exists a', b'. split; [exact E|].
  eapply matched_pair_values; [| apply V; eassumption | apply V; eassumption].
  apply match_modulus_and_scale_inplace_inv; assumption.
Qed.

(** The call completes on operands whose scales are within epsilon of each
    other, each after any number of mod-switches, in either argument
    order. *)
Lemma match_modulus_and_scale_inplace_after_mod_switch
    (ctx : SEALContext) (a0 b0 a b : SealCiphertextWrapper) (j k : nat) :
  1 < tol ctx -> 0 < scale a0 -> 0 < scale b0 ->
  scale_close ctx (scale a0) (scale b0) = true ->
  mod_switch_down j a0 = Ok a ->
  mod_switch_down k b0 = Ok b ->
  matched ctx a b a0 b0 /\ matched ctx b a b0 a0.
Proof.
  intros Ht Ha Hb Hc Hj Hk.
  apply mod_switch_down_inv in Hj. destruct Hj as (_ & _ & Sa & Pa).
  apply mod_switch_down_inv in Hk. destruct Hk as (_ & _ & Sb & Pb).
  split; apply matched_close_scales; try assumption; try congruence.
  rewrite scale_close_sym. congruence.
Qed.



(** The same operands the other way round. *)
Lemma match_modulus_and_scale_inplace_reversed :
  let b := encrypt toy_context (107 # 1) [1; 2; 3] in
  exists a b' a',
    rescale_to_next toy_context b = Ok a
    /\ match_modulus_and_scale_inplace toy_context b a = Ok (b', a')
    /\ chain_index b' = 2%N /\ chain_index a' = 2%N.
Proof.
  cbv zeta. eexists. eexists. eexists.
  split; [vm_compute; reflexivity|].
  split; [vm_compute; reflexivity|].
  split; reflexivity.
Qed.

(** [fold_left N.min] is a lower bound of its arguments. *)
Lemma fold_min_le (l : list N) :
  forall m, (fold_left N.min l m <= m)%N
            /\ forall x, In x l -> (fold_left N.min l m <= x)%N.
Proof.
  induction l as [|y l IH]; intro m; simpl.
  - split; [lia | intros x []].
  - destruct (IH (N.min m y)) as [H1 H2]. split; [lia|].
    intros x [->|Hx]; [lia | apply H2; exact Hx].
Qed.

Lemma fold_min_in (l : list N) :
  forall m, fold_left N.min l m = m \/ In (fold_left N.min l m) l.
Proof.
  induction l as [|y l IH]; intro m; simpl.
  - left. reflexivity.
  - destruct (IH (N.min m y)) as [H|H].
    + rewrite H. destruct (N.min_spec m y) as [[_ E]|[_ E]]; rewrite E; auto.
    + right. right. exact H.
Qed.

Lemma in_cipher_chain_indices (slots : list HEType) (i : N) :
  In i (cipher_chain_indices slots) <->
  exists s c, In s slots /\ he_value s = Cipher c /\ chain_index c = i.
Proof.
  unfold cipher_chain_indices. rewrite in_flat_map. split.
  - intros (s & Hs & Hi). destruct (he_value s) as [p|c] eqn:E; [destruct Hi|].
    destruct Hi as [<-|[]]. exists s, c. auto.
  - intros (s & c & Hs & E & <-). exists s. split; [exact Hs|].
    rewrite E. left. reflexivity.
Qed.

Lemma cipher_chain_indices_nil (slots : list HEType) :
  (forall s, In s slots -> is_ciphertext s = false) ->
  cipher_chain_indices slots = [].
Proof.
  unfold cipher_chain_indices.
  induction slots as [|s l IH]; intro Hnone; [reflexivity|]. simpl.
  pose proof (Hnone s (or_introl eq_refl)) as Hs. unfold is_ciphertext in Hs.
  destruct (he_value s); [|discriminate]. simpl.
  apply IH. intros s' Hs'. apply Hnone. right. exact Hs'.
Qed.

Lemma switch_slot_to_lowered (smallest : N) (s : HEType) :
  (forall c, he_value s = Cipher c -> (smallest <= chain_index c)%N) ->
  switch_slot_to smallest s = Ok (lowered smallest s).
Proof.
  intro H. unfold switch_slot_to, lowered.
  destruct s as [cp pp bs [p|c]]; simpl in *; [reflexivity|].
  specialize (H c eq_refl).
  destruct (smallest <? chain_index c)%N eqn:E.
  - destruct (@mod_switch_to_ok c smallest H) as (c' & -> & I & S & P).
    simpl. unfold set_ciphertext. simpl.
    destruct c'; simpl in *; subst. reflexivity.
  - apply N.ltb_ge in E. assert (chain_index c = smallest) by lia.
    unfold set_ciphertext. simpl. destruct c; simpl in *; subst. reflexivity.
Qed.

(** C2.  On a vector whose chain indices are [size_t] values,
    [match_to_smallest_chain_index] returns [SIZE_MAX] when no slot is a
    ciphertext and the minimum chain index of the ciphertext slots
    otherwise; it keeps the number of slots, leaves every plaintext slot as
    it was, and leaves every ciphertext slot at the returned index. *)
Theorem match_to_smallest_chain_index_min (slots : list HEType) :
  (forall s c, In s slots -> he_value s = Cipher c ->
               (chain_index c <= SIZE_MAX)%N) ->
  exists smallest slots',
    match_to_smallest_chain_index slots = Ok (smallest, slots')
    /\ ((forall s, In s slots -> is_ciphertext s = false) ->
        smallest = SIZE_MAX)
    /\ ((exists s, In s slots /\ is_ciphertext s = true) ->
        (exists s c, In s slots /\ he_value s = Cipher c
                     /\ chain_index c = smallest)
        /\ (forall s c, In s slots -> he_value s = Cipher c ->
                        (smallest <= chain_index c)%N))
    /\ List.length slots' = List.length slots
    /\ (forall n s, nth_error slots n = Some s ->
          match he_value s with
          | Plain _ => nth_error slots' n = Some s
          | Cipher c =>
              exists c', nth_error slots' n = Some (set_ciphertext s c')
                         /\ chain_index c' = smallest
                         /\ scale c' = scale c /\ payload c' = payload c
          end).
Proof.
  intro Hmax.
  set (smallest := smallest_chain_index slots).
  assert (Hlow : forall s c, In s slots -> he_value s = Cipher c ->
                             (smallest <= chain_index c)%N).
  { intros s c Hs E. subst smallest. unfold smallest_chain_index.
    apply fold_min_le. apply in_cipher_chain_indices. exists s, c. auto. }
  exists smallest, (map (lowered smallest) slots).
  split.
  { unfold match_to_smallest_chain_index. fold smallest.
    rewrite (@mapR_pointwise _ _ _ (lowered smallest)); [reflexivity|].
    intros s Hs. apply switch_slot_to_lowered. intros c E. eauto. }
  split.
  { intro Hnone. subst smallest. unfold smallest_chain_index.
    rewrite cipher_chain_indices_nil by exact Hnone. reflexivity. }
  split.
  { intros (s & Hs & Hc). split; [|exact Hlow].
    unfold is_ciphertext in Hc. destruct (he_value s) as [p|c] eqn:E;
      [discriminate|].
    apply in_cipher_chain_indices.
    destruct (fold_min_in (cipher_chain_indices slots) SIZE_MAX) as [H|H];
      [|exact H].
    fold (smallest_chain_index slots) in H. fold smallest in H.
    assert (chain_index c = smallest).
    { pose proof (Hmax s c Hs E). pose proof (Hlow s c Hs E). lia. }
    apply in_cipher_chain_indices. exists s, c. auto. }
  split; [apply length_map|].
  intros n s Hn. rewrite nth_error_map, Hn. simpl. unfold lowered.
  destruct (he_value s) as [p|c] eqn:E; [reflexivity|].
  eexists. split; [reflexivity|]. simpl. auto.
Qed.

(** A vector with two ciphertexts at different levels around a plaintext. *)
Lemma match_to_smallest_chain_index_min_witness :
  let c3 := encrypt toy_context (107 # 1) [1; 2; 3] in
  let c1 := {| chain_index := 1; scale := 107 # 1; payload := [107 # 1] |} in
  let slots := [ cipher_slot c3 false; plain_slot [1; 2; 3] false;
                 cipher_slot c1 false ] in
  exists slots',
    match_to_smallest_chain_index slots = Ok (1%N, slots')
    /\ List.length slots' = 3%nat.
Proof.
  cbv zeta.
  destruct (@match_to_smallest_chain_index_min
              [ cipher_slot (encrypt toy_context (107 # 1) [1; 2; 3]) false;
                plain_slot [1; 2; 3] false;
                cipher_slot {| chain_index := 1; scale := 107 # 1;
                               payload := [107 # 1] |} false ])
    as (smallest & slots' & H & _ & _ & L & _).
  - intros s c [<-|[<-|[<-|[]]]] E; inversion E; subst; vm_compute; discriminate.
  - exists slots'. split; [|exact L].
    rewrite H. vm_compute in H. inversion H. reflexivity.
Defined.

End ModulusChain.

(** ** The state monad *)

Section ExecFacts.

Context {env : SealEnv}.

Lemma bind_ok {A B} (c : Exec A) (k : A -> Exec B) st st' (b : B) :
  bind c k st = (st', Ok b) ->
  exists st1 a, c st = (st1, Ok a) /\ k a st1 = (st', Ok b).
Proof.
  unfold bind. destruct (c st) as [st1 [a|e]]; intro H.
  - exists st1, a. auto.
  - discriminate.
Qed.

Lemma ret_ok {A} (a a' : A) st st' :
  ret a st = (st', Ok a') -> st' = st /\ a' = a.
Proof. unfold ret. intro H. inversion H. auto. Qed.

Lemma lift_ok {A} (r : Result A) (a : A) st st' :
  lift r st = (st', Ok a) -> st' = st /\ r = Ok a.
Proof. unfold lift. intro H. inversion H. auto. Qed.

Lemma get_ok st st' (s : HESealExecutable) :
  get st = (st', Ok s) -> st' = st /\ s = st.
Proof. unfold get. intro H. inversion H. auto. Qed.

Lemma modify_ok f st st' (u : unit) :
  modify f st = (st', Ok u) -> st' = f st.
Proof. unfold modify. intro H. inversion H. auto. Qed.

Lemma NGRAPH_CHECK_ok cond msg st st' (u : unit) :
  NGRAPH_CHECK cond msg st = (st', Ok u) -> st' = st /\ cond = true.
Proof.
  unfold NGRAPH_CHECK. destruct cond; intro H; inversion H. auto.
Qed.

Lemma session_write_ok m st st' (u : unit) :
  session_write m st = (st', Ok u) ->
  st' = with_session st (m_session st ++ [write_message m]).
Proof. unfold session_write. apply modify_ok. Qed.

Lemma session_wait_ok e st st' (u : unit) :
  session_wait e st = (st', Ok u) ->
  st' = with_session st (m_session st ++ [e]).
Proof. unfold session_wait. apply modify_ok. Qed.

Lemma assign_head {A} (v v' : list A) (x : A) :
  assign v 0 x = Ok v' -> at_index v' 0 = Ok x /\ tl v' = tl v.
Proof.
  destruct v as [|h t]; simpl; intro H; inversion H. auto.
Qed.

End ExecFacts.

(** Invert a successful run of a monadic computation, bind by bind. *)
Ltac exec_inv H :=
  lazymatch type of H with
  | bind _ _ _ = (_, Ok _) =>
      let st1 := fresh "st" in
      let a := fresh "a" in
      let H1 := fresh "H" in
      let H2 := fresh "H" in
      apply bind_ok in H; destruct H as (st1 & a & H1 & H2);
      exec_inv H1; exec_inv H2
  | ret _ _ = (_, Ok _) =>
      apply ret_ok in H; destruct H; subst
  | lift _ _ = (_, Ok _) =>
      apply lift_ok in H;
      let E := fresh "E" in destruct H as [? E]; subst
  | get _ = (_, Ok _) =>
      apply get_ok in H; destruct H; subst
  | modify _ _ = (_, Ok _) =>
      apply modify_ok in H; subst
  | session_write _ _ = (_, Ok _) =>
      apply session_write_ok in H; subst
  | session_wait _ _ = (_, Ok _) =>
      apply session_wait_ok in H; subst
  | NGRAPH_CHECK _ _ _ = (_, Ok _) =>
      apply NGRAPH_CHECK_ok in H;
      let E := fresh "C" in destruct H as [? E]; subst
  | _ => idtac
  end.

(** ** Kernel dispatch *)

Section Dispatch.

Context {env : SealEnv}.

Lemma run_kernel_ok (k : kernel) node out args st st' out' :
  run_kernel k node out args st = (st', Ok out') ->
  st' = st /\
  exists out0 d,
    at_index out 0 = Ok out0
    /\ k (m_he_seal_backend st) node args out0 = Ok d
    /\ at_index out' 0 = Ok (set_data out0 d).
Proof.
  unfold run_kernel. intro H. exec_inv H.
  split; [reflexivity|].
  match goal with
  | A : at_index out 0 = Ok ?o, K : k _ _ _ _ = Ok ?d |- _ =>
      exists o, d; repeat split; try assumption
  end.
  match goal with
  | A : assign out 0 _ = Ok _ |- _ => apply assign_head in A; apply A
  end.
Qed.

Lemma on_out0_ok f out st st' out' :
  on_out0 f out st = (st', Ok out') ->
  st' = st /\
  exists out0 d,
    at_index out 0 = Ok out0
    /\ f (m_he_seal_backend st) (data out0) = Ok d
    /\ at_index out' 0 = Ok (set_data out0 d).
Proof.
  unfold on_out0. intro H. exec_inv H.
  split; [reflexivity|].
  match goal with
  | A : at_index out 0 = Ok ?o, K : f _ _ = Ok ?d |- _ =>
      exists o, d; repeat split; try assumption
  end.
  match goal with
  | A : assign out 0 _ = Ok _ |- _ => apply assign_head in A; apply A
  end.
Qed.

Lemma reduce_and_rescale_ok out st st' out' :
  reduce_and_rescale out st = (st', Ok out') ->
  st' = st /\
  exists out0 reduced rescaled,
    at_index out 0 = Ok out0
    /\ (if lazy_mod st
        then mod_reduce_seal (m_he_seal_backend st) (data out0)
        else Ok (data out0)) = Ok reduced
    /\ rescale_seal (m_he_seal_backend st) reduced = Ok rescaled
    /\ at_index out' 0 = Ok (set_data out0 rescaled).
Proof.
  unfold reduce_and_rescale. intro H. exec_inv H.
  destruct (lazy_mod st) eqn:L.
  - match goal with
    | A : on_out0 mod_reduce_seal _ _ = _ |- _ =>
        apply on_out0_ok in A; destruct A as (-> & o & d & A0 & A1 & A2)
    end.
    match goal with
    | A : on_out0 rescale_seal _ _ = _ |- _ =>
        apply on_out0_ok in A; destruct A as (-> & o' & d' & B0 & B1 & B2)
    end.
    split; [reflexivity|].
    rewrite A2 in B0. inversion B0; subst o'. simpl in B1.
    exists o, d, d'. repeat split; assumption.
  - match goal with
    | A : ret _ _ = _ |- _ => exec_inv A
    end.
    match goal with
    | A : on_out0 rescale_seal _ _ = _ |- _ =>
        apply on_out0_ok in A; destruct A as (-> & o' & d' & B0 & B1 & B2)
    end.
    split; [reflexivity|].
    exists o', (data o'), d'. repeat split; assumption.
Qed.

Lemma set_lazy_mod_restore (b : HESealBackend) :
  m_lazy_mod b = true -> set_lazy_mod (set_lazy_mod b false) true = b.
Proof. destruct b; simpl; intros ->; reflexivity. Qed.

Lemma with_backend_restore st b :
  with_backend (with_backend st b) (m_he_seal_backend st) = st.
Proof. destruct st; reflexivity. Qed.

Lemma without_lazy_mod_ok (k : kernel) node out args st st' out' :
  without_lazy_mod k node out args st = (st', Ok out') ->
  st' = st /\
  exists out0 d,
    at_index out 0 = Ok out0
    /\ k (if lazy_mod st
          then set_lazy_mod (m_he_seal_backend st) false
          else m_he_seal_backend st) node args out0 = Ok d
    /\ at_index out' 0 = Ok (set_data out0 d).
Proof.
  unfold without_lazy_mod. intro H. exec_inv H.
  destruct (lazy_mod st) eqn:L.
  - exec_inv H1.
    match goal with
    | A : run_kernel _ _ _ _ _ = _ |- _ =>
        apply run_kernel_ok in A; destruct A as (-> & o & d & A0 & A1 & A2)
    end.
    simpl in *. split.
    + rewrite set_lazy_mod_restore by exact L.
      destruct st; reflexivity.
    + exists o, d. repeat split; assumption.
  - apply run_kernel_ok in H1. destruct H1 as (-> & o & d & A0 & A1 & A2).
    split; [reflexivity|]. exists o, d. repeat split; assumption.
Qed.

(** C3.  For a Dot, Convolution or AvgPool node that completes, the first
    output tensor holds what [rescale_seal] returns for the whole slot vector
    the kernel produced, passed through [mod_reduce_seal] first when
    [lazy_mod] is set; for a Multiply node it holds what [rescale_seal]
    returns for the slot vector of [multiply_seal].  The state of the
    executable is as before. *)
Theorem multiplicative_nodes_are_rescaled
    (node : Node) (k : kernel) (out args : list HETensor)
    (st st' : HESealExecutable) (r : list HETensor * list HETensor) :
  generate_calls node out args st = (st', Ok r) ->
  ((node_typeid node = OP_TYPEID.Dot /\ k = dot_seal)
   \/ (node_typeid node = OP_TYPEID.Convolution /\ k = convolution_seal)
   \/ (node_typeid node = OP_TYPEID.AvgPool /\ k = avg_pool_seal) ->
   exists out0 produced reduced rescaled,
     at_index out 0 = Ok out0
     /\ k (m_he_seal_backend st) node args out0 = Ok produced
     /\ (if lazy_mod st
         then mod_reduce_seal (m_he_seal_backend st) produced
         else Ok produced) = Ok reduced
     /\ rescale_seal (m_he_seal_backend st) reduced = Ok rescaled
     /\ at_index (fst r) 0 = Ok (set_data out0 rescaled)
     /\ st' = st)
  /\ (node_typeid node = OP_TYPEID.Multiply ->
      exists out0 produced rescaled,
        at_index out 0 = Ok out0
        /\ multiply_seal (set_lazy_mod (m_he_seal_backend st) false)
                         node args out0 = Ok produced
        /\ rescale_seal (m_he_seal_backend st) produced = Ok rescaled
        /\ at_index (fst r) 0 = Ok (set_data out0 rescaled)
        /\ st' = st).
Proof.
  intro H. split.
  - intros Hk.
    assert (G : (out1 <- run_kernel k node out args ;;
                 out' <- reduce_and_rescale out1 ;; ret (out', args)) st
                = (st', Ok r)).
    { unfold generate_calls in H.
      destruct Hk as [[E ->]|[[E ->]|[E ->]]]; rewrite E in H; exact H. }
    clear H. exec_inv G.
    match goal with
    | A : run_kernel _ _ _ _ _ = _ |- _ =>
        apply run_kernel_ok in A; destruct A as (-> & o & d & A0 & A1 & A2)
    end.
    match goal with
    | A : reduce_and_rescale _ _ = _ |- _ =>
        apply reduce_and_rescale_ok in A;
        destruct A as (-> & o' & d1 & d2 & B0 & B1 & B2 & B3)
    end.
    rewrite A2 in B0. inversion B0; subst o'. simpl in B1.
    exists o, d, d1, d2. simpl. repeat split; assumption.
  - intro E. unfold generate_calls in H. rewrite E in H. exec_inv H.
    match goal with
    | A : without_lazy_mod _ _ _ _ _ = _ |- _ =>
        apply without_lazy_mod_ok in A;
        destruct A as (-> & o & d & A0 & A1 & A2)
    end.
    match goal with
    | A : on_out0 _ _ _ = _ |- _ =>
        apply on_out0_ok in A; destruct A as (-> & o' & d' & B0 & B1 & B2)
    end.
    rewrite A2 in B0. inversion B0; subst o'. simpl in B1.
    exists o, d, d'. simpl. repeat split; try assumption.
    destruct (lazy_mod st) eqn:L; [exact A1|].
    replace (set_lazy_mod (m_he_seal_backend st) false)
      with (m_he_seal_backend st); [exact A1|].
    unfold lazy_mod in L. destruct (m_he_seal_backend st); simpl in *.
    subst. reflexivity.
Qed.

(** C7.  An Add or Multiply node that completes ran its kernel with
    [lazy_mod] cleared when the flag was set and with the backend as it was
    when the flag was not set, and leaves the flag (and the whole backend)
    as it found it. *)
Theorem lazy_mod_restored_after_add_and_multiply
    (node : Node) (k : kernel) (out args : list HETensor)
    (st st' : HESealExecutable) (r : list HETensor * list HETensor) :
  (node_typeid node = OP_TYPEID.Add /\ k = add_seal)
  \/ (node_typeid node = OP_TYPEID.Multiply /\ k = multiply_seal) ->
  generate_calls node out args st = (st', Ok r) ->
  let at_call :=
    if lazy_mod st
    then set_lazy_mod (m_he_seal_backend st) false
    else m_he_seal_backend st in
  (exists out0 produced,
     at_index out 0 = Ok out0 /\ k at_call node args out0 = Ok produced)
  /\ m_lazy_mod at_call = false
  /\ (lazy_mod st = false -> at_call = m_he_seal_backend st)
  /\ lazy_mod st' = lazy_mod st
  /\ m_he_seal_backend st' = m_he_seal_backend st.
Proof.
  intros Hk H at_call.
  assert (G : exists out1,
             without_lazy_mod k node out args st = (st', Ok out1)).
  { unfold generate_calls in H.
    destruct Hk as [[E ->]|[E ->]]; rewrite E in H; exec_inv H.
    - eexists; eassumption.
    - match goal with
      | A : on_out0 _ _ _ = _ |- _ => apply on_out0_ok in A; destruct A as [-> _]
      end.
      eexists; eassumption. }
  destruct G as [out1 G]. apply without_lazy_mod_ok in G.
  destruct G as (-> & o & d & A0 & A1 & _).
  split; [exists o, d; split; assumption|].
  subst at_call. unfold lazy_mod in *.
  destruct (m_lazy_mod (m_he_seal_backend st)) eqn:L; simpl;
    repeat split; auto; discriminate.
Qed.

(** C8, dispatch.  A node whose operator is outside the supported set makes
    [generate_calls] throw [unsupported_op]; nothing is written to the
    output, and the executable is left as it was. *)
Lemma generate_calls_unsupported (node : Node) (out args : list HETensor)
    (st : HESealExecutable) :
  OP_TYPEID.supported (node_typeid node) = false ->
  generate_calls node out args st
  = (st, Err (unsupported_op ("Unsupported op '" ++ description node ++ "'"))).
Proof.
  intro H. unfold generate_calls.
  destruct (node_typeid node); try discriminate H; reflexivity.
Qed.

End Dispatch.

(** ** The compilation check and the dispatch of unsupported operators *)

Section Unsupported.

Context {env : SealEnv}.

Lemma supported_ops_pass_rejects (op : Node) (ops : list Node) :
  In op ops -> is_supported op = false ->
  exists rejected,
    supported_ops_pass ops
    = Err (unsupported_op ("Unsupported op " ++ description rejected))
    /\ In rejected ops /\ is_supported rejected = false.
Proof.
  intros Hin Hno. unfold supported_ops_pass.
  destruct (find (fun o => negb (is_supported o)) ops) as [o|] eqn:F.
  - apply find_some in F. destruct F as [Ho Hs].
    apply negb_true_iff in Hs. exists o. auto.
  - apply (find_none _ _ F) in Hin. rewrite Hno in Hin. discriminate.
Qed.

(** C8.  A node whose operator identifier lies outside the supported set
    makes kernel dispatch raise [unsupported_op] with no output written and
    the executable unchanged, and compilation rejects every graph that holds
    the node: the check fails with [unsupported_op] on a node of the graph
    whose operator is outside the supported set. *)
Theorem unsupported_operators_are_rejected (node : Node) :
  OP_TYPEID.supported (node_typeid node) = false ->
  (forall (out args : list HETensor) (st : HESealExecutable),
     generate_calls node out args st
     = (st, Err (unsupported_op
                   ("Unsupported op '" ++ description node ++ "'"))))
  /\ (forall ops : list Node, In node ops ->
        exists rejected,
          In rejected ops
          /\ OP_TYPEID.supported (node_typeid rejected) = false
          /\ supported_ops_pass ops
             = Err (unsupported_op
                      ("Unsupported op " ++ description rejected))).
Proof.
  intro H. split.
  - intros out args st. apply generate_calls_unsupported. exact H.
  - intros ops Hin.
    destruct (@supported_ops_pass_rejects node ops Hin H) as (r & E & I & U).
    exists r. repeat split; assumption.
Qed.

End Unsupported.

(** A graph with an [Xor] node after a [Relu] node: the dispatch throws on
    the [Xor] node and the compilation check rejects the graph. *)
Lemma unsupported_operators_are_rejected_witness :
  let node := toy_node OP_TYPEID.Xor "Xor" in
  @generate_calls toy_env node [] [] toy_client_executable
  = (toy_client_executable, Err (unsupported_op "Unsupported op 'Xor'"))
  /\ exists rejected,
       In rejected [toy_node OP_TYPEID.Relu "Relu"; node]
       /\ OP_TYPEID.supported (node_typeid rejected) = false
       /\ supported_ops_pass [toy_node OP_TYPEID.Relu "Relu"; node]
          = Err (unsupported_op ("Unsupported op " ++ description rejected)).
Proof.
  cbv zeta.
  destruct (@unsupported_operators_are_rejected toy_env
              (toy_node OP_TYPEID.Xor "Xor") eq_refl) as [D P].
  split.
  - apply D.
  - apply P. right. left. reflexivity.
Defined.

(** Examples for the multiplicative nodes and the lazy-mod switch. *)
Lemma multiplicative_nodes_are_rescaled_witness :
  let node := toy_node OP_TYPEID.Dot "Dot" in
  let out := [toy_tensor []] in
  let args := [toy_tensor [toy_cipher 2]; toy_tensor [toy_cipher 3]] in
  let st := toy_executable true false [] [] [] in
  exists out0 produced reduced rescaled,
    at_index out 0 = Ok out0
    /\ @dot_seal toy_env (m_he_seal_backend st) node args out0 = Ok produced
    /\ (if lazy_mod st
        then @mod_reduce_seal toy_env (m_he_seal_backend st) produced
        else Ok produced) = Ok reduced
    /\ @rescale_seal toy_env (m_he_seal_backend st) reduced = Ok rescaled
    /\ rescaled = [toy_cipher 2].
Proof.
  cbv zeta.
  destruct (@multiplicative_nodes_are_rescaled toy_env
              (toy_node OP_TYPEID.Dot "Dot") (@dot_seal toy_env)
              [toy_tensor []]
              [toy_tensor [toy_cipher 2]; toy_tensor [toy_cipher 3]]
              (toy_executable true false [] [] []) _ _ eq_refl) as [D _].
  destruct D as (o & p & m & r & A & K & M & R & O & _).
  - left. split; reflexivity.
  - exists o, p, m, r. repeat split; try assumption.
    vm_compute in A. inversion A; subst o.
    vm_compute in K. inversion K; subst p.
    vm_compute in M. inversion M; subst m.
    vm_compute in R. inversion R. reflexivity.
Defined.

Lemma lazy_mod_restored_after_add_and_multiply_witness :
  let node := toy_node OP_TYPEID.Add "Add" in
  let out := [toy_tensor []] in
  let args := [toy_tensor [toy_cipher 2]; toy_tensor [toy_cipher 3]] in
  let st := toy_executable true false [] [] [] in
  exists st' r,
    @generate_calls toy_env node out args st = (st', Ok r)
    /\ lazy_mod st = true /\ lazy_mod st' = true.
Proof.
  cbv zeta. eexists. eexists. split; [reflexivity|]. split; [reflexivity|].
  apply (@lazy_mod_restored_after_add_and_multiply toy_env
           (toy_node OP_TYPEID.Add "Add") (@add_seal toy_env)
           [toy_tensor []]
           [toy_tensor [toy_cipher 2]; toy_tensor [toy_cipher 3]]
           (toy_executable true false [] [] []) _ _
           (or_introl (conj eq_refl eq_refl)) eq_refl).
Defined.

(** ** Client mode *)

Section ClientMode.

Context {env : SealEnv}.

Lemma with_session_same (st : HESealExecutable) :
  with_session st (m_session st) = st.
Proof. destruct st; reflexivity. Qed.

Lemma for_each_session_write {A} (f : A -> Message) (l : list A) :
  forall st,
    for_each l (fun x => session_write (f x)) st
    = (with_session st (m_session st ++ map (fun x => write_message (f x)) l),
       Ok tt).
Proof.
  induction l as [|x l IH]; intro st; simpl.
  - rewrite app_nil_r, with_session_same. reflexivity.
  - unfold bind at 1. unfold session_write at 1. unfold modify.
    rewrite IH. simpl. rewrite <- app_assoc. reflexivity.
Qed.

Lemma check_client_supports_function_ok st st' (u : unit) :
  check_client_supports_function st = (st', Ok u) ->
  st' = st
  /\ List.length (m_results st) = 1
  /\ exists p, In p (m_parameters st) /\ from_client p = true.
Proof.
  unfold check_client_supports_function. intro H. exec_inv H.
  split; [reflexivity|]. split.
  - apply Nat.eqb_eq. assumption.
  - match goal with
    | C : (0 <? _) = true |- _ => apply Nat.ltb_lt in C; rename C into L
    end.
    destruct (filter from_client (m_parameters st)) as [|p l] eqn:F;
      [simpl in L; lia|].
    assert (Hp : In p (filter from_client (m_parameters st)))
      by (rewrite F; left; reflexivity).
    apply filter_In in Hp. exists p. exact Hp.
Qed.

Lemma check_client_supports_function_fails st :
  List.length (m_results st) <> 1
  \/ (forall p, In p (m_parameters st) -> from_client p = false) ->
  exists msg,
    check_client_supports_function st = (st, Err (CheckFailure msg)).
Proof.
  intro H. unfold check_client_supports_function, bind, get, NGRAPH_CHECK.
  destruct (List.length (m_results st) =? 1) eqn:E.
  - destruct H as [H|H]; [apply Nat.eqb_eq in E; contradiction|].
    replace (filter from_client (m_parameters st)) with (@nil ParameterNode).
    + simpl. eexists. reflexivity.
    + symmetry. induction (m_parameters st) as [|p l IH]; [reflexivity|].
      simpl. rewrite (H p (or_introl eq_refl)).
      apply IH. intros q Hq. apply H. right. exact Hq.
  - simpl. eexists. reflexivity.
Qed.

Lemma send_client_results_ok st st' (u : unit) :
  send_client_results st = (st', Ok u) ->
  List.length (m_client_outputs st) = 1
  /\ m_client_outputs st' = m_client_outputs st.
Proof.
  unfold send_client_results. intro H. exec_inv H.
  match goal with
  | F : for_each _ _ _ = _ |- _ => rewrite for_each_session_write in F;
                                   inversion F; subst; clear F
  end.
  split; [apply Nat.eqb_eq; assumption | reflexivity].
Qed.

(** C10.  The set-up of the server throws when the function does not have
    exactly one result or has no parameter from the client; sending the
    results throws unless there is exactly one client output tensor; so a
    first call in client mode that returns has passed all three checks. *)
Theorem client_mode_needs_one_result_and_a_client_parameter :
  (forall st, m_server_setup st = false ->
     List.length (m_results st) <> 1
     \/ (forall p, In p (m_parameters st) -> from_client p = false) ->
     exists msg, server_setup st = (st, Err (CheckFailure msg)))
  /\ (forall st, List.length (m_client_outputs st) <> 1 ->
        exists msg, send_client_results st = (st, Err (CheckFailure msg)))
  /\ (forall tensor_map st st' returned,
        enable_client st = true -> m_server_setup st = false ->
        call tensor_map st = (st', Ok returned) ->
        List.length (m_results st) = 1
        /\ (exists p, In p (m_parameters st) /\ from_client p = true)
        /\ List.length (m_client_outputs st') = 1).
Proof.
  split; [|split].
  - intros st S H. unfold server_setup, bind, get. rewrite S. simpl.
    destruct (check_client_supports_function_fails st H) as [msg E].
    rewrite E. exists msg. reflexivity.
  - intros st H. unfold send_client_results, bind, get, NGRAPH_CHECK.
    apply Nat.eqb_neq in H. rewrite H. simpl. eexists. reflexivity.
  - intros tm st st' b C S H. unfold call in H. exec_inv H.
    rewrite C in *.
    match goal with
    | A : server_setup _ = (_, Ok ?ok) |- _ =>
        unfold server_setup in A; exec_inv A; rewrite S in *; simpl in *
    end.
    match goal with
    | A : bind check_client_supports_function _ _ = _ |- _ => exec_inv A
    end.
    match goal with
    | A : check_client_supports_function _ = _ |- _ =>
        apply check_client_supports_function_ok in A;
        destruct A as (-> & R & P)
    end.
    simpl in *.
    match goal with
    | A : bind (call_ops _ _) _ _ = _ |- _ => exec_inv A
    end.
    match goal with
    | A : send_client_results _ = _ |- _ =>
        apply send_client_results_ok in A; destruct A as [L K]
    end.
    repeat split; try assumption. congruence.
Qed.

End ClientMode.

(** The small graph, served to a client that sends its parameter. *)
Lemma client_mode_needs_one_result_and_a_client_parameter_witness :
  exists st',
    @call toy_env [(0, toy_tensor toy_mixed_slots)] toy_client_executable
    = (st', Ok true)
    /\ List.length (m_client_outputs st') = 1.
Proof.
  eexists. split; [vm_compute; reflexivity|].
  eapply (proj2 (proj2 (@client_mode_needs_one_result_and_a_client_parameter
                          toy_env))
            [(0, toy_tensor toy_mixed_slots)] toy_client_executable);
    [reflexivity | reflexivity | vm_compute; reflexivity].
Defined.

(** ** The session thread *)

Section SessionThread.

Context {env : SealEnv}.

Lemma for_each_preserves {A} (R : HESealExecutable -> HESealExecutable -> Prop)
    (body : A -> Exec unit) (l : list A) :
  (forall st, R st st) ->
  (forall a b c, R a b -> R b c -> R a c) ->
  (forall x st st' u, In x l -> body x st = (st', Ok u) -> R st st') ->
  forall st st' u, for_each l body st = (st', Ok u) -> R st st'.
Proof.
  intros Hrefl Htrans. induction l as [|x l IH]; intros Hbody st st' u H.
  - simpl in H. exec_inv H. apply Hrefl.
  - simpl in H. exec_inv H.
    eapply Htrans.
    + eapply Hbody; [left; reflexivity | eassumption].
    + eapply IH; [|eassumption].
      intros y s s' v Hy. apply Hbody. right. exact Hy.
Qed.

Lemma singleton_of_length {A} (l : list A) (x : A) :
  List.length l = 1 -> at_index l 0 = Ok x -> l = [x].
Proof.
  destruct l as [|y [|z l]]; simpl; intros L E; try discriminate.
  inversion E. reflexivity.
Qed.

Lemma relu_frame_refl st : relu_frame st st.
Proof. unfold relu_frame. repeat split. Qed.

Lemma relu_frame_trans a b c :
  relu_frame a b -> relu_frame b c -> relu_frame a c.
Proof.
  unfold relu_frame.
  intros (S1 & U1 & D1 & F1 & L1 & N1) (S2 & U2 & D2 & F2 & L2 & N2).
  repeat split; try congruence.
  intros i Hi. rewrite N2, N1; [reflexivity | exact Hi | congruence].
Qed.

Lemma assign_spec {A} (v : list A) :
  forall i x v', assign v i x = Ok v' ->
    List.length v' = List.length v
    /\ nth_error v' i = Some x
    /\ forall j, j <> i -> nth_error v' j = nth_error v j.
Proof.
  induction v as [|h t IH]; intros i x v' H; simpl in H; [discriminate|].
  destruct i as [|i].
  - inversion H; subst. repeat split.
    intros [|j] Hj; [contradiction | reflexivity].
  - apply rbind_ok in H. destruct H as (t' & Ht & E). inversion E; subst.
    apply IH in Ht. destruct Ht as (L & N & O).
    simpl. repeat split; [congruence | exact N |].
    intros [|j] Hj; [reflexivity | simpl; apply O; congruence].
Qed.

Lemma handle_relu_result_frame m st st' (u : unit) :
  handle_relu_result m st = (st', Ok u) -> relu_frame st st'.
Proof.
  unfold handle_relu_result. intro H. exec_inv H.
  match goal with
  | F : for_each _ _ _ = _ |- _ =>
      apply (for_each_preserves relu_frame) in F;
        [ destruct F as (S & U & D & F & L & N);
          unfold relu_frame; simpl; repeat split; assumption
        | apply relu_frame_refl | apply relu_frame_trans |]
  end.
  intros x s s' v _ B. exec_inv B. unfold relu_frame. simpl.
  match goal with
  | G : assign _ _ _ = Ok _ |- _ =>
      apply assign_spec in G; destruct G as (L & _ & O)
  end.
  repeat split; try assumption.
  intros i Hi. apply O. intro; subst i. apply Hi.
  match goal with
  | G : at_index (m_unknown_relu_idx s) _ = Ok _ |- _ =>
      apply at_index_ok in G; eapply nth_error_In; exact G
  end.
Qed.

Lemma handle_max_pool_result_ok m st st' (u : unit) :
  handle_max_pool_result m st = (st', Ok u) ->
  exists pb_tensor tensor slot,
    he_tensors m = [pb_tensor]
    /\ data_size pb_tensor = 1
    /\ load_from_pb_tensor pb_tensor = Ok tensor
    /\ at_index (data tensor) 0 = Ok slot
    /\ m_max_pool_data st' = m_max_pool_data st ++ [slot]
    /\ m_max_pool_done st' = true
    /\ m_session st' = m_session st.
Proof.
  unfold handle_max_pool_result. intro H. exec_inv H.
  match goal with
  | L : (List.length (he_tensors m) =? 1) = true,
    P : at_index (he_tensors m) 0 = Ok ?pb,
    T : load_from_pb_tensor _ = Ok ?t,
    S : at_index (data _) 0 = Ok ?s |- _ =>
      exists pb, t, s; apply Nat.eqb_eq in L;
      rewrite (singleton_of_length _ L P)
  end.
  simpl. repeat split; try assumption.
  apply Nat.eqb_eq. assumption.
Qed.

(** A response whose tensor does not carry exactly one entry is rejected. *)
Lemma handle_max_pool_result_rejects m st pb_tensor :
  he_tensors m = [pb_tensor] -> data_size pb_tensor <> 1 ->
  handle_max_pool_result m st
  = (st, Err (CheckFailure "Maxpool only supports result_count 1")).
Proof.
  intros T D. unfold handle_max_pool_result, bind, NGRAPH_CHECK, lift.
  rewrite T. simpl. apply Nat.eqb_neq in D. rewrite D. reflexivity.
Qed.

Lemma handle_message_cases m st st' (u : unit) :
  handle_message m st = (st', Ok u) ->
  st' = st
  \/ handle_relu_result m st = (st', Ok u)
  \/ handle_max_pool_result m st = (st', Ok u).
Proof.
  unfold handle_message. intro H.
  destruct (msg_type m).
  - exec_inv H. left. reflexivity.
  - destruct (msg_function m) as [name|]; [|exec_inv H; left; reflexivity].
    exec_inv H.
    destruct (String.eqb name "Relu"); [right; left; assumption|].
    destruct (String.eqb name "BoundedRelu"); [right; left; assumption|].
    destruct (String.eqb name "MaxPool"); [right; right; assumption|].
    exec_inv H1. left. reflexivity.
  - exec_inv H. discriminate.
Qed.

End SessionThread.

(** ** MaxPool *)

Section MaxPool.

Context {env : SealEnv}.

Lemma mapR_nil_inv {A B} (f : A -> Result B) (l : list A) :
  mapR f l = Ok [] -> l = [].
Proof.
  destruct l as [|x l]; [reflexivity|]. simpl. intro H.
  apply rbind_ok in H. destruct H as (y & _ & H).
  apply rbind_ok in H. destruct H as (ys & _ & H). discriminate.
Qed.

Lemma await_ok e in_flight pred st st' (u : unit) :
  await e in_flight pred st = (st', Ok u) ->
  for_each in_flight (fun request => handle_message (client_reply request))
           (with_session st (m_session st ++ [e])) = (st', Ok tt)
  /\ pred st' = true.
Proof.
  unfold await. intro H. exec_inv H.
  match goal with
  | P : (if pred ?s then _ else _) ?s = _ |- _ =>
      destruct (pred s) eqn:Hp; [exec_inv P | discriminate]
  end.
  split; [|exact Hp].
  match goal with
  | F : for_each _ _ _ = (_, Ok ?a) |- _ => destruct a; exact F
  end.
Qed.

Lemma for_each_one {A} (body : A -> Exec unit) (x : A) st st' (u : unit) :
  for_each [x] body st = (st', Ok u) -> body x st = (st', Ok tt).
Proof.
  simpl. intro H. exec_inv H.
  match goal with
  | F : body x st = (_, Ok ?a) |- _ => destruct a; exact F
  end.
Qed.

(** One cell of the loop: one request, one wait, one slot appended. *)
Lemma max_pool_cell_ok arg node maximize_list st st' (u : unit) :
  m_max_pool_done st = false ->
  max_pool_cell arg node maximize_list st = (st', Ok u) ->
  exists request slot,
    max_pool_request arg node maximize_list request
    /\ max_pool_reply request slot
    /\ m_session st'
       = m_session st ++ [write_message request; wait_max_pool_done]
    /\ m_max_pool_data st' = m_max_pool_data st ++ [slot]
    /\ m_max_pool_done st' = false.
Proof.
  intros Hdone H. unfold max_pool_cell in H. exec_inv H.
  match goal with
  | B : mapR _ maximize_list = Ok ?batch,
    N : negb (List.length ?batch =? 0) = true,
    T : max_pool_tensor ?batch = Ok ?tensor,
    L : (List.length (write_to_pb_tensors ?tensor) =? 1) = true,
    P : at_index (write_to_pb_tensors ?tensor) 0 = Ok ?pb,
    W : await _ _ _ _ = (?st0, _) |- _ =>
      rename B into Hbatch, N into Hnonempty, T into Htensor, L into Hone,
             P into Hpb, W into Hwait;
      set (request := offload_request node pb) in *
  end.
  apply await_ok in Hwait. destruct Hwait as [Hserve Hpred].
  apply for_each_one in Hserve.
  apply Nat.eqb_eq in Hone.
  pose proof (singleton_of_length _ Hone Hpb) as Hwritten.
  assert (Hreply : exists slot,
             max_pool_reply request slot
             /\ m_max_pool_data st0 = m_max_pool_data st ++ [slot]
             /\ m_session st0
                = m_session st ++ [write_message request; wait_max_pool_done]).
  { apply handle_message_cases in Hserve. destruct Hserve as [M|[M|M]].
    - subst st0. simpl in Hpred. congruence.
    - apply handle_relu_result_frame in M.
      destruct M as (_ & _ & _ & F & _). simpl in F. congruence.
    - apply handle_max_pool_result_ok in M.
      destruct M as (pb' & t & slot & T & D & Ld & S & Data & _ & Sess).
      exists slot. split; [exists pb', t; repeat split; assumption|].
      split; [rewrite Data; reflexivity|].
      rewrite Sess. simpl. rewrite <- app_assoc. reflexivity. }
  destruct Hreply as (slot & Hslot & Hdata & Hsess).
  exists request, slot. split; [|split; [exact Hslot|]].
  - split.
    + intro; subst maximize_list. simpl in Hbatch. inversion Hbatch; subst.
      simpl in Hnonempty. discriminate.
    + match type of Hbatch with
      | _ = Ok ?batch =>
          match type of Htensor with
          | _ = Ok ?tensor =>
              match type of Hpb with
              | _ = Ok ?pb => exists batch, tensor, pb
              end
          end
      end.
      repeat split; try assumption.
      unfold max_pool_tensor in Htensor. apply rbind_ok in Htensor.
      destruct Htensor as (f & _ & Htensor). inversion Htensor. reflexivity.
  - simpl. repeat split; assumption.
Qed.

Lemma max_pool_cells_ok arg node (lists : list (list nat)) :
  forall st st' (u : unit),
    m_max_pool_done st = false ->
    for_each lists (max_pool_cell arg node) st = (st', Ok u) ->
    exists requests slots,
      Forall2 (max_pool_request arg node) lists requests
      /\ Forall2 max_pool_reply requests slots
      /\ m_session st' = m_session st ++ max_pool_script requests
      /\ m_max_pool_data st' = m_max_pool_data st ++ slots
      /\ m_max_pool_done st' = false.
Proof.
  induction lists as [|l lists IH]; intros st st' u Hdone H.
  - simpl in H. exec_inv H. exists [], [].
    simpl. rewrite !app_nil_r. repeat split; auto; constructor.
  - simpl in H. exec_inv H.
    match goal with
    | C : max_pool_cell _ _ _ _ = _ |- _ =>
        apply max_pool_cell_ok in C; [|exact Hdone];
        destruct C as (rq & slot & Rq & Rp & S & D & F)
    end.
    match goal with
    | C : for_each _ _ _ = _ |- _ =>
        apply IH in C; [|exact F];
        destruct C as (rqs & slots & Rqs & Rps & S' & D' & F')
    end.
    exists (rq :: rqs), (slot :: slots).
    split; [constructor; assumption|].
    split; [constructor; assumption|].
    split.
    { rewrite S', S. unfold max_pool_script. simpl.
      rewrite <- app_assoc. reflexivity. }
    split; [|exact F'].
    rewrite D', D, <- app_assoc. reflexivity.
Qed.

(** C6.  A client-aided MaxPool node that completes has written exactly one
    request per output cell, each carrying the slots at the indices of the
    cell's maximize list, none of which is empty, and has waited for its
    answer before the next; each answer holds one entry, and the output
    tensor holds these entries in the order of the cells.  A response whose
    tensor holds another number of entries is rejected. *)
Theorem max_pool_one_request_per_output_cell
    (arg out : HETensor) (node : Node) (st st' : HESealExecutable)
    (out' : HETensor) :
  handle_server_max_pool_op arg out node st = (st', Ok out') ->
  (exists requests,
     Forall2 (max_pool_request arg node) (max_pool_seal_max_list node) requests
     /\ m_session st' = m_session st ++ max_pool_script requests
     /\ Forall2 max_pool_reply requests (data out')
     /\ List.length (data out') = List.length (max_pool_seal_max_list node))
  /\ (forall response s pb_tensor,
        he_tensors response = [pb_tensor] -> data_size pb_tensor <> 1 ->
        exists msg,
          handle_max_pool_result response s = (s, Err (CheckFailure msg))).
Proof.
  intro H. split.
  - unfold handle_server_max_pool_op in H. exec_inv H.
    match goal with
    | F : for_each _ _ _ = _ |- _ =>
        apply max_pool_cells_ok in F; [|reflexivity];
        destruct F as (rqs & slots & Rqs & Rps & S & D & _)
    end.
    simpl in S, D. exists rqs. simpl. rewrite D.
    repeat split; try assumption.
    rewrite (Forall2_length Rqs). symmetry. apply (Forall2_length Rps).
  - intros response s pb T D. eexists.
    apply handle_max_pool_result_rejects with (pb_tensor := pb); assumption.
Qed.

End MaxPool.

(** A 2-by-2 pooling of four ciphertexts: two cells, two requests. *)
Lemma max_pool_one_request_per_output_cell_witness :
  let arg := toy_tensor [toy_cipher 1; toy_cipher 5; toy_cipher 2; toy_cipher 3] in
  let node := toy_node OP_TYPEID.MaxPool "MaxPool" in
  let run := @handle_server_max_pool_op toy_env arg (toy_tensor []) node
                                        toy_client_executable in
  exists requests,
    snd run = Ok (set_data (toy_tensor []) [toy_cipher 1; toy_cipher 2])
    /\ m_session (fst run) = max_pool_script requests
    /\ List.length requests = 2.
Proof.
  cbv zeta.
  assert (H : @handle_server_max_pool_op toy_env
                (toy_tensor [toy_cipher 1; toy_cipher 5;
                             toy_cipher 2; toy_cipher 3])
                (toy_tensor []) (toy_node OP_TYPEID.MaxPool "MaxPool")
                toy_client_executable
              = (fst (@handle_server_max_pool_op toy_env
                        (toy_tensor [toy_cipher 1; toy_cipher 5;
                                     toy_cipher 2; toy_cipher 3])
                        (toy_tensor []) (toy_node OP_TYPEID.MaxPool "MaxPool")
                        toy_client_executable),
                 Ok (set_data (toy_tensor []) [toy_cipher 1; toy_cipher 2])))
    by (vm_compute; reflexivity).
  destruct (proj1 (max_pool_one_request_per_output_cell _ _ _ _ H))
    as (requests & Rq & S & _ & _).
  exists requests. split; [vm_compute; reflexivity|]. split; [exact S|].
  symmetry. apply (Forall2_length Rq).
Defined.

(** ** Relu and BoundedRelu *)

Section Relu.

Context {env : SealEnv}.

Lemma message_frame_refl st : message_frame st st.
Proof. unfold message_frame. repeat split. Qed.

Lemma message_frame_trans a b c :
  message_frame a b -> message_frame b c -> message_frame a c.
Proof.
  unfold message_frame.
  intros (S1 & U1 & L1 & N1) (S2 & U2 & L2 & N2).
  repeat split; try congruence.
  intros i Hi. rewrite N2, N1; [reflexivity | exact Hi | congruence].
Qed.

Lemma handle_message_frame m st st' (u : unit) :
  handle_message m st = (st', Ok u) -> message_frame st st'.
Proof.
  intro H. apply handle_message_cases in H. destruct H as [H|[H|H]].
  - subst. apply message_frame_refl.
  - apply handle_relu_result_frame in H.
    destruct H as (S & U & _ & _ & L & N). repeat split; assumption.
  - unfold handle_max_pool_result in H. exec_inv H.
    unfold message_frame. simpl. repeat split.
Qed.

(** One iteration of "process known values". *)
Lemma relu_known_value_ok d node i st st' (u : unit) :
  relu_known_value d node i st = (st', Ok u) ->
  m_session st' = m_session st
  /\ m_relu_done_count st' = m_relu_done_count st
  /\ List.length (m_relu_data st') = List.length (m_relu_data st)
  /\ (forall j, j <> i ->
        nth_error (m_relu_data st') j = nth_error (m_relu_data st) j)
  /\ exists slot,
       nth_error d i = Some slot
       /\ match he_value slot with
          | Plain p =>
              m_unknown_relu_idx st' = m_unknown_relu_idx st
              /\ exists old,
                   nth_error (m_relu_data st') i
                   = Some (set_plaintext old (scalar_result node p))
          | Cipher _ =>
              m_unknown_relu_idx st' = m_unknown_relu_idx st ++ [i]
          end.
Proof.
  unfold relu_known_value. intro H. exec_inv H.
  match goal with
  | A : at_index d i = Ok ?slot |- _ =>
      apply at_index_ok in A; rename A into Hslot;
      destruct (he_value slot) as [p|c] eqn:V
  end.
  - exec_inv H1.
    match goal with
    | G : assign _ _ _ = Ok _ |- _ =>
        apply assign_spec in G; destruct G as (L & N & O)
    end.
    simpl. repeat split; try assumption.
    eexists. split; [exact Hslot|]. rewrite V.
    split; [reflexivity|]. eexists. exact N.
  - exec_inv H1. simpl. repeat split.
    eexists. split; [exact Hslot|]. rewrite V. reflexivity.
Qed.

Lemma unknown_at_slot d i slot :
  nth_error d i = Some slot -> unknown_at d i = is_ciphertext slot.
Proof. unfold unknown_at. intros ->. reflexivity. Qed.

(** "Process known values", from slot [s] on. *)
Lemma relu_known_values_ok d node (n : nat) :
  forall s st st' (u : unit),
    for_each (seq s n) (relu_known_value d node) st = (st', Ok u) ->
    m_session st' = m_session st
    /\ m_relu_done_count st' = m_relu_done_count st
    /\ List.length (m_relu_data st') = List.length (m_relu_data st)
    /\ m_unknown_relu_idx st'
       = m_unknown_relu_idx st ++ filter (unknown_at d) (seq s n)
    /\ (forall j, j < s ->
          nth_error (m_relu_data st') j = nth_error (m_relu_data st) j)
    /\ (forall i slot p,
          s <= i < s + n -> nth_error d i = Some slot ->
          he_value slot = Plain p ->
          exists old,
            nth_error (m_relu_data st') i
            = Some (set_plaintext old (scalar_result node p))).
Proof.
  induction n as [|n IH]; intros s st st' u H.
  - simpl in H. exec_inv H. simpl. rewrite app_nil_r.
    repeat split. intros i slot p Hi. lia.
  - cbn [seq for_each] in H. exec_inv H.
    match goal with
    | K : relu_known_value _ _ _ _ = _ |- _ =>
        apply relu_known_value_ok in K;
        destruct K as (S1 & C1 & L1 & O1 & slot & Hslot & Hcase)
    end.
    match goal with
    | K : for_each _ _ _ = _ |- _ =>
        apply IH in K; destruct K as (S2 & C2 & L2 & U2 & B2 & P2)
    end.
    split; [congruence|]. split; [congruence|]. split; [congruence|].
    split; [|split].
    + rewrite U2. cbn [seq filter]. rewrite (unknown_at_slot _ _ Hslot).
      unfold is_ciphertext. destruct (he_value slot).
      * destruct Hcase as [-> _]. reflexivity.
      * rewrite Hcase, <- app_assoc. reflexivity.
    + intros j Hj. rewrite B2 by lia. apply O1. lia.
    + intros i slot' p Hi Hs Hv.
      destruct (Nat.eq_dec i s) as [->|Hne].
      * rewrite B2 by lia. rewrite Hs in Hslot. inversion Hslot; subst slot'.
        rewrite Hv in Hcase. destruct Hcase as [_ Hold]. exact Hold.
      * apply (P2 i slot' p); [lia | assumption | assumption].
Qed.

Lemma process_unknown_relu_ciphers_batch_ok arg node batch st st' sent :
  process_unknown_relu_ciphers_batch arg node batch st = (st', Ok sent) ->
  batch <> []
  /\ sent = relu_requests arg node batch
  /\ st' = with_session st (m_session st ++ map write_message sent).
Proof.
  unfold process_unknown_relu_ciphers_batch. intro H. exec_inv H.
  match goal with
  | F : for_each _ _ _ = _ |- _ =>
      rewrite for_each_session_write in F; inversion F; subst; clear F
  end.
  match goal with
  | T : relu_tensor arg batch = Ok _ |- _ =>
      unfold relu_requests; rewrite T;
      unfold relu_tensor in T; apply rbind_ok in T;
      destruct T as (f & Hf & _)
  end.
  split.
  - intro; subst batch. discriminate.
  - rewrite map_map. split; reflexivity.
Qed.

(** "Process unknown values": full batches are flushed as they fill up. *)
Lemma relu_unknown_values_ok arg node (unknown : list nat) :
  forall batch st st' left sent,
    List.length batch < max_relu_message_cnt ->
    relu_unknown_values arg node unknown batch st = (st', Ok (left, sent)) ->
    exists slots batches,
      mapR (at_index (data arg)) unknown = Ok slots
      /\ batch ++ slots = List.concat batches ++ left
      /\ Forall (fun b => List.length b = max_relu_message_cnt) batches
      /\ List.length left < max_relu_message_cnt
      /\ sent = flat_map (relu_requests arg node) batches
      /\ m_session st' = m_session st ++ map write_message sent
      /\ m_relu_data st' = m_relu_data st
      /\ m_unknown_relu_idx st' = m_unknown_relu_idx st
      /\ m_relu_done_count st' = m_relu_done_count st.
Proof.
  induction unknown as [|idx rest IH]; intros batch st st' left sent Hlen H.
  - simpl in H. exec_inv H.
    match goal with
    | E : (_, _) = (_, _) |- _ => inversion E; subst; clear E
    end.
    exists [], []. simpl. rewrite !app_nil_r. repeat split; auto.
  - cbn [relu_unknown_values] in H. exec_inv H.
    match goal with
    | A : at_index (data arg) idx = Ok ?slot,
      B : (if _ then _ else _) _ = _ |- _ =>
        rename A into Hslot, B into Hloop, slot into slot0
    end.
    destruct (List.length (batch ++ [slot0]) =? max_relu_message_cnt) eqn:Full.
    + exec_inv Hloop.
      match goal with
      | E : (_, _) = (_, _) |- _ => inversion E; subst left sent; clear E
      end.
      match goal with
      | P : process_unknown_relu_ciphers_batch _ _ _ _ = _ |- _ =>
          apply process_unknown_relu_ciphers_batch_ok in P;
          destruct P as (_ & Hsent & ->)
      end.
      match goal with
      | R : relu_unknown_values _ _ _ _ _ = (_, Ok ?r) |- _ =>
          destruct r as [left' sent'];
          apply IH in R; [|unfold max_relu_message_cnt; simpl; lia];
          destruct R as (slots & batches & M & Eq & Fb & Ll & Se & Ss & Rd & Ui & Dc)
      end.
      cbn [fst snd] in *.
      exists (slot0 :: slots), ((batch ++ [slot0]) :: batches).
      cbn [mapR]. rewrite Hslot, M. cbn [rbind].
      split; [reflexivity|].
      split. { cbn [List.concat]. rewrite <- !app_assoc. cbn [app] in *.
               rewrite <- Eq. reflexivity. }
      split. { constructor; [apply Nat.eqb_eq; exact Full | exact Fb]. }
      split; [exact Ll|].
      split. { cbn [flat_map]. rewrite Se, Hsent. reflexivity. }
      split. { rewrite Ss. cbn [m_session with_session].
               rewrite map_app, <- app_assoc. reflexivity. }
      cbn [m_relu_data m_unknown_relu_idx m_relu_done_count with_session] in *.
      repeat split; assumption.
    + apply IH in Hloop.
      * destruct Hloop as (slots & batches & M & Eq & Fb & Ll & Se & Ss & Rd & Ui & Dc).
        exists (slot0 :: slots), batches.
        cbn [mapR]. rewrite Hslot, M. cbn [rbind].
        split; [reflexivity|].
        split. { rewrite <- Eq, <- app_assoc. reflexivity. }
        repeat split; assumption.
      * apply Nat.eqb_neq in Full. rewrite length_app in *.
        cbn [List.length] in *. lia.
Qed.

End Relu.

(** ** The partition of a Relu node's slots *)

Section ReluOffload.
Context {env : SealEnv}.

Lemma serving_frame (requests : list Message) st st' (u : unit) :
  for_each requests (fun request => handle_message (client_reply request)) st
  = (st', Ok u) ->
  message_frame st st'.
Proof.
  apply (for_each_preserves message_frame).
  - apply message_frame_refl.
  - apply message_frame_trans.
  - intros x s s' v _ H. eapply handle_message_frame. exact H.
Qed.

(** What a call of [handle_server_relu_op] that returns has done. *)
Lemma handle_server_relu_op_ok
    (arg out : HETensor) (node : Node) (st st' : HESealExecutable)
    (arg' out' : HETensor) :
  handle_server_relu_op arg out node st = (st', Ok (arg', out')) ->
  exists smallest batches,
    match_to_smallest_chain_index (data arg) = Ok (smallest, data arg')
    /\ (node_typeid node = OP_TYPEID.Relu
        \/ node_typeid node = OP_TYPEID.BoundedRelu)
    /\ m_unknown_relu_idx st'
       = filter (unknown_at (data arg')) (seq 0 (List.length (data arg)))
    /\ mapR (at_index (data arg')) (m_unknown_relu_idx st')
       = Ok (List.concat batches)
    /\ Forall (fun b => 0 < List.length b <= max_relu_message_cnt) batches
    /\ m_session st'
       = m_session st
         ++ map write_message (flat_map (relu_requests arg' node) batches)
         ++ [wait_relu_done (List.length (m_unknown_relu_idx st'))]
    /\ (forall i slot p,
          i < List.length (data arg) ->
          nth_error (data arg') i = Some slot ->
          he_value slot = Plain p ->
          exists r,
            nth_error (data out') i = Some r
            /\ he_value r = Plain (scalar_result node p)).
Proof.
  intro H. unfold handle_server_relu_op in H. exec_inv H.
  match goal with
  | E : (_, _) = (_, _) |- _ => inversion E; subst arg' out'; clear E
  end.
  match goal with
  | C : match node_typeid node with _ => _ end = true,
    M : match_to_smallest_chain_index _ = Ok ?m,
    K : for_each (seq 0 _) _ _ = (?s0, _),
    U : relu_unknown_values _ _ _ _ _ = (?s1, Ok ?r),
    F : (if _ then _ else _) ?s1 = (?s2, Ok ?l),
    W : await _ _ _ _ = (?s3, _) |- _ =>
      rename C into Htype, M into Hmatch, K into Hknown, U into Hunknown,
             F into Hflush, W into Hwait;
      destruct m as [smallest matched]; destruct r as [left sent];
      rename s0 into st_known, s1 into st_sent, s2 into st_flushed,
             s3 into st_served, l into last
  end.
  cbn [fst snd data set_data] in *.
  apply relu_known_values_ok in Hknown.
  destruct Hknown as (Ks & _ & _ & Ku & _ & Kp).
  cbn [m_session m_unknown_relu_idx with_unknown_relu_idx with_relu_data app]
    in Ks, Ku.
  apply relu_unknown_values_ok in Hunknown;
    [|unfold max_relu_message_cnt; cbn [List.length]; lia].
  destruct Hunknown
    as (slots & batches & Um & Ueq & Ufull & Uleft & Usent & Us & Ud & Ui & _).
  cbn [app data set_data] in Um, Ueq.
  assert (Hflushed :
            exists tail,
              List.concat (batches ++ tail) = slots
              /\ Forall (fun b => 0 < List.length b <= max_relu_message_cnt)
                        (batches ++ tail)
              /\ m_session st_flushed
                 = m_session st
                   ++ map write_message
                        (flat_map (relu_requests (set_data arg matched) node)
                                  (batches ++ tail))
              /\ sent ++ last
                 = flat_map (relu_requests (set_data arg matched) node)
                            (batches ++ tail)
              /\ m_relu_data st_flushed = m_relu_data st_known
              /\ m_unknown_relu_idx st_flushed = m_unknown_relu_idx st_known).
  { assert (Hfull : Forall (fun b => 0 < List.length b <= max_relu_message_cnt)
                           batches).
    { eapply Forall_impl; [|exact Ufull]. simpl. intros b ->.
      unfold max_relu_message_cnt. lia. }
    destruct left as [|l0 left].
    - cbn [List.length Nat.eqb negb] in Hflush. exec_inv Hflush.
      exists []. rewrite !app_nil_r in *.
      repeat split; try assumption; try congruence.
    - cbn [List.length Nat.eqb negb] in Hflush.
      apply process_unknown_relu_ciphers_batch_ok in Hflush.
      destruct Hflush as (_ & -> & ->).
      exists [l0 :: left].
      split. { rewrite concat_app. cbn [List.concat]. rewrite app_nil_r.
               symmetry. exact Ueq. }
      split. { apply Forall_app. split; [exact Hfull|].
               constructor; [|constructor]. cbn [List.length] in *. lia. }
      cbn [m_session m_relu_data m_unknown_relu_idx with_session].
      rewrite flat_map_app. cbn [flat_map]. rewrite app_nil_r.
      split. { rewrite Us, Ks, Usent, map_app, <- app_assoc. reflexivity. }
      split. { rewrite Usent. reflexivity. }
      split; assumption. }
  destruct Hflushed as (tail & Fc & Fb & Fs & Fsent & Fd & Fi).
  apply await_ok in Hwait. destruct Hwait as [Hserve _].
  apply serving_frame in Hserve.
  destruct Hserve as (Ss & Su & _ & Sn).
  cbn [m_session m_unknown_relu_idx m_relu_data with_session] in Ss, Su, Sn.
  exists smallest, (batches ++ tail).
  cbn [m_session m_unknown_relu_idx with_relu_done_count data set_data].
  split; [exact Hmatch|].
  split. { destruct (node_typeid node); try discriminate Htype; auto. }
  assert (Hidx : m_unknown_relu_idx st_served
                 = filter (unknown_at matched)
                          (seq 0 (List.length (data arg)))).
  { rewrite Su, Fi, Ku. reflexivity. }
  split; [exact Hidx|].
  split. { rewrite Su, Fi, Fc. exact Um. }
  split; [exact Fb|].
  split. { rewrite Ss, Fs, Su, Fi, <- app_assoc. reflexivity. }
  intros i slot p Hi Hslot Hplain.
  destruct (Kp i slot p) as [old Hold]; [lia | exact Hslot | exact Hplain |].
  exists (set_plaintext old (scalar_result node p)).
  split; [|reflexivity].
  rewrite Sn, Fd; [exact Hold|].
  rewrite Fi, Ku. intro Hin. apply filter_In in Hin. destruct Hin as [_ Hu].
  rewrite (unknown_at_slot _ _ Hslot) in Hu. unfold is_ciphertext in Hu.
  rewrite Hplain in Hu. discriminate.
Qed.

Lemma mapR_Forall2 {A B} (f : A -> Result B) (l : list A) :
  forall l', mapR f l = Ok l' -> Forall2 (fun x y => f x = Ok y) l l'.
Proof.
  induction l as [|x l IH]; intros l' H; simpl in H.
  - inversion H. constructor.
  - apply rbind_ok in H. destruct H as (y & Hy & H).
    apply rbind_ok in H. destruct H as (ys & Hys & H).
    inversion H; subst l'. constructor; [exact Hy | apply IH; exact Hys].
Qed.

(** The slots at the unknown indices are ciphertexts. *)
Lemma unknown_slots_are_ciphertexts (d : list HEType) (n : nat)
    (slots : list HEType) :
  mapR (at_index d) (filter (unknown_at d) (seq 0 n)) = Ok slots ->
  Forall (fun slot => is_ciphertext slot = true) slots.
Proof.
  intro H. apply mapR_Forall2 in H.
  assert (U : Forall (fun i => unknown_at d i = true)
                     (filter (unknown_at d) (seq 0 n))).
  { apply Forall_forall. intros i Hi. apply filter_In in Hi. apply Hi. }
  induction H as [|i slot idx rest Hslot H IH]; constructor.
  - inversion U; subst. apply at_index_ok in Hslot.
    rewrite <- (unknown_at_slot _ _ Hslot). assumption.
  - apply IH. inversion U; assumption.
Qed.

(** What [relu_requests] writes for a batch that is not empty. *)
Lemma relu_requests_carry_the_batch (arg : HETensor) (node : Node)
    (cipher_batch : list HEType) :
  0 < List.length cipher_batch ->
  Forall (fun slot => is_ciphertext slot = true) cipher_batch ->
  relu_batch_requests arg node cipher_batch
                      (relu_requests arg node cipher_batch).
Proof.
  intros Hlen Hc. unfold relu_batch_requests.
  split. { destruct cipher_batch; [simpl in Hlen; lia | discriminate]. }
  split; [exact Hc|].
  unfold relu_requests, relu_tensor.
  destruct cipher_batch as [|first rest]; [simpl in Hlen; lia|].
  cbn [at_index nth_error rbind].
  exists (set_data (HETensor_new [batch_size first;
                                   List.length (first :: rest)]
                                  (is_packed arg))
                    (first :: rest)).
  split; [reflexivity|]. split; [reflexivity|].
  induction (write_to_pb_tensors _) as [|pb pbs IH]; simpl; constructor;
    [repeat split | exact IH].
Qed.

Lemma Forall_concat_batches {A} (P : A -> Prop) (ls : list (list A)) :
  Forall P (List.concat ls) -> Forall (Forall P) ls.
Proof.
  induction ls as [|l ls IH]; simpl; intro H; constructor.
  - apply Forall_app in H. apply H.
  - apply IH. apply Forall_app in H. apply H.
Qed.

(** C5.  A client-aided Relu or BoundedRelu node that completes has, on
    the slot vector as [match_to_smallest_chain_index] left it: recorded the
    index of every ciphertext slot, and of no other, in
    [m_unknown_relu_idx]; written these slots to the client, in order, in
    batches of at least one and at most 1000 ciphertext slots, each request
    carrying an encoding of a tensor whose slots are the batch, before its
    one wait; and put in every plaintext slot of the output the value of the
    scalar plaintext routine, [scalar_relu_seal] for Relu and
    [scalar_bounded_relu_seal] with the node's alpha for BoundedRelu. *)
Theorem relu_offload_partition
    (arg out : HETensor) (node : Node) (st st' : HESealExecutable)
    (arg' out' : HETensor) :
  handle_server_relu_op arg out node st = (st', Ok (arg', out')) ->
  exists smallest batches requests,
    match_to_smallest_chain_index (data arg) = Ok (smallest, data arg')
    /\ (node_typeid node = OP_TYPEID.Relu
        \/ node_typeid node = OP_TYPEID.BoundedRelu)
    /\ m_unknown_relu_idx st'
       = filter (unknown_at (data arg')) (seq 0 (List.length (data arg)))
    /\ mapR (at_index (data arg')) (m_unknown_relu_idx st')
       = Ok (List.concat batches)
    /\ Forall (fun b => 0 < List.length b <= max_relu_message_cnt) batches
    /\ Forall2 (relu_batch_requests arg' node) batches requests
    /\ m_session st'
       = m_session st
         ++ map write_message (List.concat requests)
         ++ [wait_relu_done (List.length (m_unknown_relu_idx st'))]
    /\ (forall i slot p,
          i < List.length (data arg) ->
          nth_error (data arg') i = Some slot ->
          he_value slot = Plain p ->
          exists r,
            nth_error (data out') i = Some r
            /\ (node_typeid node = OP_TYPEID.Relu ->
                he_value r = Plain (scalar_relu_seal p))
            /\ (node_typeid node = OP_TYPEID.BoundedRelu ->
                he_value r
                = Plain (scalar_bounded_relu_seal p (get_alpha node)))).
Proof.
  intro H. apply handle_server_relu_op_ok in H.
  destruct H as (smallest & batches & Hm & Ht & Hu & Hs & Hb & Hw & Hp).
  exists smallest, batches, (map (relu_requests arg' node) batches).
  split; [exact Hm|]. split; [exact Ht|]. split; [exact Hu|].
  split; [exact Hs|]. split; [exact Hb|].
  split.
  { rewrite Hu in Hs. apply unknown_slots_are_ciphertexts in Hs.
    apply Forall_concat_batches in Hs. clear - Hb Hs.
    induction batches as [|b bs IH]; simpl; constructor.
    - inversion Hb; inversion Hs; subst.
      apply relu_requests_carry_the_batch; [lia | assumption].
    - inversion Hb; inversion Hs; subst. apply IH; assumption. }
  split. { rewrite <- flat_map_concat_map. exact Hw. }
  intros i slot p Hi Hslot Hplain.
  destruct (Hp i slot p Hi Hslot Hplain) as (r & Hr & Hv).
  exists r. split; [exact Hr|].
  unfold scalar_result in Hv.
  split; intro T; rewrite T in Hv; exact Hv.
Qed.

End ReluOffload.

(** A tensor with two ciphertexts around a plaintext: the indices 0 and 2
    are unknown, one request carries the two ciphertexts, and the plaintext
    slot of the output holds the values of [scalar_relu_seal]. *)
Lemma relu_offload_partition_witness :
  let node := toy_node OP_TYPEID.Relu "Relu" in
  let run := @handle_server_relu_op toy_env (toy_tensor toy_mixed_slots)
                                    (toy_tensor []) node
                                    toy_client_executable in
  is_ok (snd run) = true
  /\ m_unknown_relu_idx (fst run) = [0; 2]
  /\ m_session (fst run)
     = [ write_message
           (@Build_TCPMessage (list HEType) REQUEST (Some "Relu"%string)
              [[toy_cipher (-1); toy_cipher 2]] false);
         wait_relu_done 2 ]
  /\ exists r, nth_error (m_relu_data (fst run)) 1 = Some r
               /\ he_value r = Plain (@scalar_relu_seal toy_env [(-2)%Q; 3%Q])
               /\ he_value r = Plain [0%Q; 3%Q].
Proof.
  cbv zeta.
  assert (H : @handle_server_relu_op toy_env (toy_tensor toy_mixed_slots)
                (toy_tensor []) (toy_node OP_TYPEID.Relu "Relu")
                toy_client_executable
              = (fst (@handle_server_relu_op toy_env
                        (toy_tensor toy_mixed_slots) (toy_tensor [])
                        (toy_node OP_TYPEID.Relu "Relu")
                        toy_client_executable),
                 Ok (toy_tensor toy_mixed_slots,
                     set_data (toy_tensor [])
                       [toy_cipher (-1); plain_slot [0%Q; 3%Q] false;
                        toy_cipher 2])))
    by (vm_compute; reflexivity).
  destruct (relu_offload_partition _ _ _ _ H)
    as (smallest & batches & requests & _ & _ & U & _ & _ & _ & _ & P).
  split; [vm_compute; reflexivity|].
  split; [rewrite U; vm_compute; reflexivity|].
  split; [vm_compute; reflexivity|].
  destruct (P 1%nat (plain_slot [(-2)%Q; 3%Q] false) [(-2)%Q; 3%Q])
    as (r & Hr & Hrelu & _); [vm_compute; lia | reflexivity | reflexivity |].
  vm_compute. eexists. repeat split; reflexivity.
Defined.

(** ** Requests in flight *)

Section InFlight.

Context {env : SealEnv}.





End InFlight.



(** * Further properties of the executable *)

(** ** The set-up of the server *)

Section ServerSetup.

Context {env : SealEnv}.

(** X1.  The set-up of the server runs once.  A first call that returns has
    waited for the session, written the parameters message and nothing else,
    and set [m_server_setup]; a call with [m_server_setup] set returns
    [true] and leaves the executable alone, so a second call writes nothing. *)
Theorem server_setup_runs_once (st st' : HESealExecutable) (b : bool) :
  server_setup st = (st', Ok b) ->
  b = true
  /\ m_server_setup st' = true
  /\ (m_server_setup st = false ->
      m_session st'
      = m_session st ++ [wait_session_started; write_message parms_message])
  /\ (m_server_setup st = true -> st' = st)
  /\ server_setup st' = (st', Ok true).
Proof.
  intro H. unfold server_setup in H. exec_inv H.
  destruct (m_server_setup st) eqn:S; simpl in *.
  - exec_inv H1. repeat split; try congruence.
    unfold server_setup, bind, get. rewrite S. reflexivity.
  - exec_inv H1.
    match goal with
    | A : check_client_supports_function _ = _ |- _ =>
        apply check_client_supports_function_ok in A; destruct A as (-> & _ & _)
    end.
    split; [reflexivity|]. split; [reflexivity|].
    split; [intros _; simpl; rewrite <- app_assoc; reflexivity|].
    split; [discriminate|]. reflexivity.
Qed.

End ServerSetup.

Lemma server_setup_runs_once_witness :
  exists st',
    @server_setup toy_env toy_client_executable = (st', Ok true)
    /\ m_session st' = [wait_session_started; write_message parms_message]
    /\ @server_setup toy_env st' = (st', Ok true).
Proof.
  eexists. split; [vm_compute; reflexivity|].
  destruct (@server_setup_runs_once toy_env toy_client_executable _ true
              eq_refl) as (_ & _ & S & _ & R).
  split; [apply S; reflexivity | exact R].
Defined.

(** ** Kernel dispatch without a client *)

Section OutputSize.

Context {env : SealEnv}.

Lemma check_output_size_ok args st st' (u : unit) :
  check_output_size args st = (st', Ok u) ->
  st' = st
  /\ exists arg0,
       at_index args 0 = Ok arg0
       /\ get_batched_element_count arg0 = List.length (data arg0).
Proof.
  unfold check_output_size. intro H. exec_inv H.
  split; [reflexivity|]. eexists. split; [eassumption|].
  apply Nat.eqb_eq. assumption.
Qed.

End OutputSize.

(** One step of the inversion of a run of [generate_calls]. *)
Ltac dispatch_step :=
  match goal with
  | A : run_kernel _ _ _ _ _ = (_, Ok _) |- _ =>
      apply run_kernel_ok in A; destruct A as [-> _]
  | A : on_out0 _ _ _ = (_, Ok _) |- _ =>
      apply on_out0_ok in A; destruct A as [-> _]
  | A : reduce_and_rescale _ _ = (_, Ok _) |- _ =>
      apply reduce_and_rescale_ok in A; destruct A as [-> _]
  | A : without_lazy_mod _ _ _ _ _ = (_, Ok _) |- _ =>
      apply without_lazy_mod_ok in A; destruct A as [-> _]
  | A : check_output_size _ _ = (_, Ok _) |- _ =>
      apply check_output_size_ok in A; destruct A as [-> _]
  | A : (if ?c then _ else _) _ = (_, Ok _) |- _ =>
      destruct c eqn:?; try discriminate; exec_inv A
  | A : match ?l with [] => _ | _ :: _ => _ end _ = (_, Ok _) |- _ =>
      destruct l eqn:?; exec_inv A
  | A : bind _ _ _ = (_, Ok _) |- _ => exec_inv A
  | A : ret _ _ = (_, Ok _) |- _ => exec_inv A
  | A : throw _ _ = (_, Ok _) |- _ => discriminate A
  end.

Section LocalDispatch.

Context {env : SealEnv}.

Lemma generate_calls_local
    (node : Node) (out args : list HETensor) (st st' : HESealExecutable)
    (r : list HETensor * list HETensor) :
  enable_client st = false ->
  generate_calls node out args st = (st', Ok r) ->
  st' = st.
Proof.
  intros C H. unfold generate_calls in H.
  destruct (node_typeid node); try discriminate H;
    exec_inv H; repeat dispatch_step; try rewrite C in *;
    try discriminate; repeat dispatch_step; auto.
Qed.

(** X2.  Without a client, a node that [generate_calls] completes leaves the
    executable as it was: no member is written, the session log and the
    buffers of the offload protocol included. *)
Theorem generate_calls_without_client
    (node : Node) (out args : list HETensor) (st st' : HESealExecutable)
    (r : list HETensor * list HETensor) :
  enable_client st = false ->
  generate_calls node out args st = (st', Ok r) ->
  st' = st.
Proof. apply generate_calls_local. Qed.

Lemma call_ops_local (ops : list Op) :
  forall tensor_map st st' tensor_map',
    enable_client st = false ->
    call_ops tensor_map ops st = (st', Ok tensor_map') -> st' = st.
Proof.
  induction ops as [|op ops IH]; intros tm st st' tm' C H.
  - simpl in H. exec_inv H. reflexivity.
  - cbn [call_ops] in H. exec_inv H.
    match goal with
    | A : call_op _ _ _ = (?s, _), B : call_ops _ _ _ = _ |- _ =>
        assert (Hs : s = st);
        [ unfold call_op in A; destruct (is_parameter op);
          [ exec_inv A; reflexivity
          | exec_inv A; rewrite C in *; simpl in *;
            repeat match goal with
                   | G : ret _ _ = _ |- _ => exec_inv G
                   | G : bind _ _ _ = _ |- _ => exec_inv G
                   end;
            match goal with
            | G : generate_calls _ _ _ _ = _ |- _ =>
                apply generate_calls_local in G; [exact G | exact C]
            end ]
        | subst s; apply (IH _ _ _ _ C B) ]
    end.
Qed.

(** X3.  A call without a client is local: when it returns, it returns [true],
    and the executable is as it was, with nothing on the session and no
    buffer of the offload protocol touched. *)
Theorem call_without_client_is_local
    (tensor_map : TensorMap) (st st' : HESealExecutable) (returned : bool) :
  enable_client st = false ->
  call tensor_map st = (st', Ok returned) ->
  st' = st /\ returned = true.
Proof.
  intros C H. unfold call in H. exec_inv H. rewrite C in *.
  repeat match goal with
         | A : ret _ _ = (_, Ok _) |- _ => exec_inv A
         | A : bind _ _ _ = (_, Ok _) |- _ => exec_inv A
         | A : (if negb true then _ else _) _ = _ |- _ => simpl in A
         end.
  match goal with
  | A : call_ops _ _ _ = _ |- _ => apply call_ops_local in A; [|exact C]
  end.
  auto.
Qed.

End LocalDispatch.

Lemma generate_calls_without_client_witness :
  let st := toy_executable true false [] [] [] in
  exists r,
    @generate_calls toy_env (toy_node OP_TYPEID.Relu "Relu")
      [toy_tensor [toy_cipher 1]] [toy_tensor [toy_cipher 2]] st = (st, Ok r).
Proof.
  cbv zeta.
  assert (H : @generate_calls toy_env (toy_node OP_TYPEID.Relu "Relu")
                [toy_tensor [toy_cipher 1]] [toy_tensor [toy_cipher 2]]
                (toy_executable true false [] [] [])
              = (fst (@generate_calls toy_env (toy_node OP_TYPEID.Relu "Relu")
                        [toy_tensor [toy_cipher 1]]
                        [toy_tensor [toy_cipher 2]]
                        (toy_executable true false [] [] [])),
                 Ok ([set_data (toy_tensor [toy_cipher 1]) [toy_cipher 2]],
                     [toy_tensor [toy_cipher 2]])))
    by (vm_compute; reflexivity).
  pose proof (@generate_calls_without_client toy_env _ _ _
                (toy_executable true false [] [] []) _ _ eq_refl H) as S.
  eexists. rewrite H. rewrite S. reflexivity.
Defined.

Lemma call_without_client_is_local_witness :
  let st := toy_executable true false [] [] toy_graph in
  @call toy_env [(0, toy_tensor toy_mixed_slots)] st = (st, Ok true).
Proof.
  cbv zeta.
  assert (H : @call toy_env [(0, toy_tensor toy_mixed_slots)]
                (toy_executable true false [] [] toy_graph)
              = (fst (@call toy_env [(0, toy_tensor toy_mixed_slots)]
                        (toy_executable true false [] [] toy_graph)),
                 Ok true))
    by (vm_compute; reflexivity).
  destruct (@call_without_client_is_local toy_env _
              (toy_executable true false [] [] toy_graph) _ _ eq_refl H)
    as [S _].
  rewrite H. rewrite S. reflexivity.
Defined.

(** ** Checks that precede the kernels *)

Section DispatchChecks.

Context {env : SealEnv}.

(** X4.  Exp and Max have no client-aided implementation: with the client
    enabled, [generate_calls] throws a [CheckFailure] for them before any
    kernel runs, and the executable is left as it was. *)
Theorem exp_and_max_are_rejected_with_a_client
    (node : Node) (out args : list HETensor) (st : HESealExecutable) :
  enable_client st = true ->
  (node_typeid node = OP_TYPEID.Exp ->
   generate_calls node out args st
   = (st, Err (CheckFailure "Exp not implemented for client-aided model ")))
  /\ (node_typeid node = OP_TYPEID.Max ->
      forall arg0, at_index args 0 = Ok arg0 ->
      exists msg,
        generate_calls node out args st = (st, Err (CheckFailure msg))).
Proof.
  intro C. split.
  - intro E. unfold generate_calls. rewrite E.
    unfold bind, get. rewrite C. reflexivity.
  - intros E arg0 A. unfold generate_calls. rewrite E.
    unfold bind, get, lift. rewrite A.
    destruct (negb (is_packed arg0)
              || negb (contains_0 (get_reduction_axes node))); simpl.
    + rewrite C. simpl. eexists. reflexivity.
    + eexists. reflexivity.
Qed.

(** X5.  A packed tensor holds its batch along axis 0, and the reductions do not
    cross it: Softmax and Max over a set of axes that contains 0 throw for a
    packed argument, whatever else the node holds. *)
Theorem packed_tensors_reject_axis_0
    (node : Node) (out args : list HETensor) (st : HESealExecutable)
    (arg0 : HETensor) :
  at_index args 0 = Ok arg0 ->
  is_packed arg0 = true ->
  (node_typeid node = OP_TYPEID.Softmax ->
   contains_0 (get_axes node) = true ->
   generate_calls node out args st
   = (st, Err (CheckFailure
                 "Softmax axes cannot contain 0 for packed tensors")))
  /\ (node_typeid node = OP_TYPEID.Max ->
      contains_0 (get_reduction_axes node) = true ->
      generate_calls node out args st
      = (st, Err (CheckFailure
                    "Max reduction axes cannot contain 0 for packed tensors"))).
Proof.
  intros A P. split; intros E Z; unfold generate_calls; rewrite E;
    unfold bind, get, lift; rewrite A, P, Z; reflexivity.
Qed.

(** X6.  The local kernels of the nonlinear operators run only on an argument
    whose slot vector has [get_batched_element_count] entries: a Relu,
    BoundedRelu, MaxPool or Max node that completes without a client had
    such an argument, and its first output holds what the operator's kernel
    returned. *)
Theorem local_nonlinear_kernels_need_all_slots
    (node : Node) (k : kernel) (out args : list HETensor)
    (st st' : HESealExecutable) (r : list HETensor * list HETensor) :
  enable_client st = false ->
  (node_typeid node = OP_TYPEID.Relu /\ k = relu_seal)
  \/ (node_typeid node = OP_TYPEID.BoundedRelu /\ k = bounded_relu_seal)
  \/ (node_typeid node = OP_TYPEID.MaxPool /\ k = max_pool_seal)
  \/ (node_typeid node = OP_TYPEID.Max /\ k = max_seal) ->
  generate_calls node out args st = (st', Ok r) ->
  exists arg0 out0 d,
    at_index args 0 = Ok arg0
    /\ get_batched_element_count arg0 = List.length (data arg0)
    /\ at_index out 0 = Ok out0
    /\ k (m_he_seal_backend st) node args out0 = Ok d
    /\ at_index (fst r) 0 = Ok (set_data out0 d).
Proof.
  intros C Hk H. unfold generate_calls in H.
  destruct Hk as [[E ->]|[[E ->]|[[E ->]|[E ->]]]]; rewrite E in H;
    exec_inv H; try rewrite C in *; simpl in *;
    repeat match goal with
           | A : bind _ _ _ = (_, Ok _) |- _ => exec_inv A
           end;
    match goal with
    | A : check_output_size _ _ = _ |- _ =>
        apply check_output_size_ok in A;
        destruct A as (-> & first_arg & A0 & A1)
    end;
    match goal with
    | A : run_kernel _ _ _ _ _ = _ |- _ =>
        apply run_kernel_ok in A;
        destruct A as (-> & first_out & produced & B0 & B1 & B2)
    end;
    exists first_arg, first_out, produced; simpl; repeat split; assumption.
Qed.

(** X7.  A slice whose upper bound on the batch axis exceeds the packed shape
    takes whole batches: the bound has to equal the batch size of the output
    tensor, and the kernel is run with that bound set to 1. *)
Theorem slice_of_the_batch_axis
    (node : Node) (out args : list HETensor) (st st' : HESealExecutable)
    (r : list HETensor * list HETensor)
    (arg0 : HETensor) (ub0 in0 : nat) (ub_rest in_rest : list nat) :
  node_typeid node = OP_TYPEID.Slice ->
  at_index args 0 = Ok arg0 ->
  get_upper_bounds node = ub0 :: ub_rest ->
  get_packed_shape arg0 = in0 :: in_rest ->
  in0 < ub0 ->
  generate_calls node out args st = (st', Ok r) ->
  exists out0 d,
    at_index out 0 = Ok out0
    /\ ub0 = get_batch_size out0
    /\ slice_seal (m_he_seal_backend st)
                  (set_upper_bounds node (1 :: ub_rest)) args out0 = Ok d
    /\ at_index (fst r) 0 = Ok (set_data out0 d)
    /\ st' = st.
Proof.
  intros E A U S L H. unfold generate_calls in H. rewrite E in H.
  exec_inv H.
  match goal with
  | B : at_index args 0 = Ok ?a |- _ =>
      rewrite A in B; inversion B; subst a; clear B
  end.
  rewrite U, S in *.
  apply Nat.ltb_lt in L. rewrite L in *.
  match goal with
  | B : bind _ _ _ = (_, Ok _) |- _ => exec_inv B
  end.
  match goal with
  | B : run_kernel _ _ _ _ _ = _ |- _ =>
      apply run_kernel_ok in B; destruct B as (-> & o & d & B0 & B1 & B2)
  end.
  match goal with
  | B : at_index out 0 = Ok ?o', B' : at_index out 0 = Ok o |- _ =>
      rewrite B in B'; inversion B'; subst
  end.
  exists o, d. simpl. repeat split; try assumption.
  apply Nat.eqb_eq. assumption.
Qed.

End DispatchChecks.

Lemma exp_and_max_are_rejected_with_a_client_witness :
  @generate_calls toy_env (toy_node OP_TYPEID.Exp "Exp") [] []
    toy_client_executable
  = (toy_client_executable,
     Err (CheckFailure "Exp not implemented for client-aided model ")).
Proof.
  apply (proj1 (@exp_and_max_are_rejected_with_a_client toy_env
                  (toy_node OP_TYPEID.Exp "Exp") [] []
                  toy_client_executable eq_refl)).
  reflexivity.
Defined.

Lemma packed_tensors_reject_axis_0_witness :
  @generate_calls toy_env (toy_axes_node OP_TYPEID.Softmax "Softmax" [0] [])
    [toy_packed_tensor] [toy_packed_tensor] (toy_executable false false [] [] [])
  = (toy_executable false false [] [] [],
     Err (CheckFailure "Softmax axes cannot contain 0 for packed tensors")).
Proof.
  apply (proj1 (@packed_tensors_reject_axis_0 toy_env
                  (toy_axes_node OP_TYPEID.Softmax "Softmax" [0] [])
                  [toy_packed_tensor] [toy_packed_tensor]
                  (toy_executable false false [] [] [])
                  toy_packed_tensor eq_refl eq_refl));
    reflexivity.
Defined.

Lemma local_nonlinear_kernels_need_all_slots_witness :
  exists arg0 out0 d,
    at_index [toy_tensor [toy_cipher 2]] 0 = Ok arg0
    /\ get_batched_element_count arg0 = List.length (data arg0)
    /\ at_index [toy_tensor [toy_cipher 1]] 0 = Ok out0
    /\ @relu_seal toy_env {| m_lazy_mod := true; m_enable_client := false |}
         (toy_node OP_TYPEID.Relu "Relu") [toy_tensor [toy_cipher 2]] out0
       = Ok d
    /\ d = [toy_cipher 2].
Proof.
  destruct (@local_nonlinear_kernels_need_all_slots toy_env
              (toy_node OP_TYPEID.Relu "Relu") (@relu_seal toy_env)
              [toy_tensor [toy_cipher 1]] [toy_tensor [toy_cipher 2]]
              (toy_executable true false [] [] [])
              (toy_executable true false [] [] [])
              ([set_data (toy_tensor [toy_cipher 1]) [toy_cipher 2]],
               [toy_tensor [toy_cipher 2]]))
    as (a & o & d & A & L & O & K & _).
  - reflexivity.
  - left. split; reflexivity.
  - vm_compute. reflexivity.
  - exists a, o, d. repeat split; try assumption.
    vm_compute in O. inversion O; subst o.
    vm_compute in K. inversion K. reflexivity.
Defined.

Lemma slice_of_the_batch_axis_witness :
  let node := toy_axes_node OP_TYPEID.Slice "Slice" [] [2; 3] in
  let st := toy_executable false false [] [] [] in
  exists out0 d,
    at_index [toy_packed_tensor] 0 = Ok out0
    /\ 2 = get_batch_size out0
    /\ @slice_seal toy_env (m_he_seal_backend st)
         (set_upper_bounds node [1; 3]) [toy_packed_tensor] out0 = Ok d.
Proof.
  cbv zeta.
  destruct (@slice_of_the_batch_axis toy_env
              (toy_axes_node OP_TYPEID.Slice "Slice" [] [2; 3])
              [toy_packed_tensor] [toy_packed_tensor]
              (toy_executable false false [] [] [])
              (toy_executable false false [] [] [])
              ([toy_packed_tensor], [toy_packed_tensor])
              toy_packed_tensor 2 1 [3] [3])
    as (o & d & O & B & K & _).
  - reflexivity.
  - reflexivity.
  - reflexivity.
  - reflexivity.
  - lia.
  - vm_compute. reflexivity.
  - exists o, d. repeat split; assumption.
Defined.

(** ** Where the answers of the client go *)

Section ReluAnswers.

Context {env : SealEnv}.

Lemma placed_nil st : placed st st [].
Proof.
  unfold placed. simpl. rewrite Nat.add_0_r.
  repeat split; auto. intros [|k] slot H; discriminate.
Qed.

Lemma placed_app a b c (s1 s2 : list HEType) :
  NoDup (m_unknown_relu_idx a) ->
  placed a b s1 -> placed b c s2 -> placed a c (s1 ++ s2).
Proof.
  intros ND (U1 & D1 & L1 & P1 & F1) (U2 & D2 & L2 & P2 & F2).
  unfold placed. rewrite length_app.
  split; [congruence|]. split; [lia|]. split; [congruence|]. split.
  - intros k slot H.
    destruct (Nat.lt_ge_cases k (List.length s1)) as [Lt|Ge].
    + rewrite nth_error_app1 in H by exact Lt.
      destruct (P1 k slot H) as (idx & I & V).
      exists idx. split; [exact I|].
      rewrite F2; [exact V|].
      intros k' Hk' E. rewrite U1, D1 in E. rewrite <- I in E.
      apply (proj1 (NoDup_nth_error _) ND) in E; [lia|].
      apply nth_error_Some. rewrite E, I. discriminate.
    + rewrite nth_error_app2 in H by exact Ge.
      destruct (P2 _ slot H) as (idx & I & V).
      exists idx. split; [|exact V].
      rewrite U1, D1 in I.
      replace (m_relu_done_count a + k)
        with (m_relu_done_count a + List.length s1 + (k - List.length s1))
        by lia.
      exact I.
  - intros i H. rewrite F2, F1; [reflexivity| |].
    + intros k Hk. apply H. lia.
    + intros k Hk. rewrite U1, D1.
      replace (m_relu_done_count a + List.length s1 + k)
        with (m_relu_done_count a + (List.length s1 + k)) by lia.
      apply H. lia.
Qed.

(** The loop of [handle_relu_result] over the entries of one tensor. *)
Lemma relu_result_loop (he_tensor : HETensor) (n : nat) :
  forall s st st' (u : unit),
    for_each (seq s n) (fun result_idx =>
      st <- get ;;
      idx <- lift (at_index (m_unknown_relu_idx st)
                            (result_idx + m_relu_done_count st)) ;;
      slot <- lift (at_index (data he_tensor) result_idx) ;;
      relu_data <- lift (assign (m_relu_data st) idx slot) ;;
      modify (fun st => with_relu_data st relu_data)) st = (st', Ok u) ->
    NoDup (m_unknown_relu_idx st) ->
    m_unknown_relu_idx st' = m_unknown_relu_idx st
    /\ m_relu_done_count st' = m_relu_done_count st
    /\ List.length (m_relu_data st') = List.length (m_relu_data st)
    /\ (forall k, s <= k < s + n ->
          exists idx slot,
            nth_error (m_unknown_relu_idx st) (k + m_relu_done_count st)
            = Some idx
            /\ nth_error (data he_tensor) k = Some slot
            /\ nth_error (m_relu_data st') idx = Some slot)
    /\ (forall i,
          (forall k, s <= k < s + n ->
             nth_error (m_unknown_relu_idx st) (k + m_relu_done_count st)
             <> Some i) ->
          nth_error (m_relu_data st') i = nth_error (m_relu_data st) i).
Proof.
  induction n as [|n IH]; intros s st st' u H ND.
  - simpl in H. exec_inv H. repeat split; auto. intros k Hk. lia.
  - cbn [seq for_each] in H. exec_inv H.
    match goal with
    | I : at_index (m_unknown_relu_idx st) _ = Ok ?i,
      S : at_index (data he_tensor) s = Ok ?x,
      A : assign (m_relu_data st) _ _ = Ok ?rd,
      F : for_each _ _ _ = _ |- _ =>
        apply at_index_ok in I; apply at_index_ok in S;
        apply assign_spec in A; destruct A as (AL & AN & AO);
        apply IH in F; [|exact ND];
        destruct F as (FU & FD & FL & FP & FF);
        rename I into Hidx, S into Hslot, i into idx0, x into slot0
    end.
    cbn [m_unknown_relu_idx m_relu_done_count m_relu_data with_relu_data]
      in FU, FD, FL, FP, FF.
    split; [exact FU|]. split; [exact FD|]. split; [congruence|]. split.
    + intros k Hk. destruct (Nat.eq_dec k s) as [->|Hne].
      * exists idx0, slot0. split; [exact Hidx|]. split; [exact Hslot|].
        rewrite FF; [exact AN|].
        intros k' Hk' E. rewrite <- Hidx in E.
        apply (proj1 (NoDup_nth_error _) ND) in E; [lia|].
        apply nth_error_Some. rewrite E, Hidx. discriminate.
      * apply FP. lia.
    + intros i Hi. rewrite FF.
      * apply AO. intro; subst i. apply (Hi s); [lia | exact Hidx].
      * intros k Hk. apply Hi. lia.
Qed.

Lemma firstn_nth_error {A} (l : list A) (n k : nat) :
  k < n -> nth_error (firstn n l) k = nth_error l k.
Proof.
  revert l k. induction n as [|n IH]; intros l k H; [lia|].
  destruct l as [|x l]; [destruct k; reflexivity|].
  destruct k as [|k]; [reflexivity|]. simpl. apply IH. lia.
Qed.

Lemma handle_relu_result_places m st st' (u : unit) :
  handle_relu_result m st = (st', Ok u) ->
  NoDup (m_unknown_relu_idx st) ->
  exists pb_tensor he_tensor,
    he_tensors m = [pb_tensor]
    /\ load_from_pb_tensor pb_tensor = Ok he_tensor
    /\ placed st st' (firstn (data_size pb_tensor) (data he_tensor)).
Proof.
  unfold handle_relu_result. intros H ND. exec_inv H.
  match goal with
  | L : (List.length (he_tensors m) =? 1) = true,
    P : at_index (he_tensors m) 0 = Ok ?pb,
    T : load_from_pb_tensor _ = Ok ?t,
    F : for_each _ _ _ = _ |- _ =>
      apply Nat.eqb_eq in L; pose proof (singleton_of_length _ L P) as Hone;
      apply relu_result_loop in F; [|exact ND];
      destruct F as (FU & FD & FL & FP & FF);
      exists pb, t; rename pb into pb0, t into t0
  end.
  split; [exact Hone|]. split; [assumption|].
  assert (Hlen : List.length (firstn (data_size pb0) (data t0))
                 = data_size pb0).
  { rewrite length_firstn. apply Nat.min_l.
    destruct (data_size pb0) as [|n] eqn:En; [lia|].
    destruct (FP n) as (idx & slot & _ & S & _); [lia|].
    apply Nat.le_succ_l. apply nth_error_Some. rewrite S. discriminate. }
  unfold placed.
  cbn [m_unknown_relu_idx m_relu_done_count m_relu_data with_relu_done_count].
  rewrite Hlen. repeat split; try assumption.
  - congruence.
  - intros k slot Hk.
    assert (Lt : k < data_size pb0).
    { rewrite <- Hlen. apply nth_error_Some. rewrite Hk. discriminate. }
    destruct (FP k) as (idx & slot' & I & S & V); [lia|].
    rewrite firstn_nth_error in Hk by exact Lt.
    exists idx. rewrite Nat.add_comm. split; [exact I|]. congruence.
  - intros i Hi. apply FF. intros k Hk. rewrite Nat.add_comm.
    apply Hi. lia.
Qed.

Lemma relu_reply_slots_other (m : Message) (name : string) :
  msg_function m = Some name ->
  String.eqb name "Relu" = false -> String.eqb name "BoundedRelu" = false ->
  relu_reply_slots m = [].
Proof.
  intros F R B. unfold relu_reply_slots. rewrite F, R, B. simpl.
  destruct (msg_type m); try reflexivity.
  destruct (he_tensors m) as [|pb [|pb' l]]; reflexivity.
Qed.

Lemma handle_message_places m st st' (u : unit) :
  handle_message m st = (st', Ok u) ->
  NoDup (m_unknown_relu_idx st) ->
  placed st st' (relu_reply_slots m).
Proof.
  unfold handle_message. intros H ND.
  destruct (msg_type m) eqn:T.
  - exec_inv H. unfold relu_reply_slots. rewrite T. apply placed_nil.
  - destruct (msg_function m) as [name|] eqn:F.
    + exec_inv H.
      assert (Relu : handle_relu_result m st = (st', Ok u) ->
                     String.eqb name "Relu" || String.eqb name "BoundedRelu"
                     = true ->
                     placed st st' (relu_reply_slots m)).
      { intros R E. apply handle_relu_result_places in R; [|exact ND].
        destruct R as (pb & t & Hone & Hload & P).
        unfold relu_reply_slots. rewrite T, F, Hone, E, Hload. exact P. }
      destruct (String.eqb name "Relu") eqn:E1.
      { apply Relu; [assumption | reflexivity]. }
      destruct (String.eqb name "BoundedRelu") eqn:E2.
      { apply Relu; [assumption | reflexivity]. }
      rewrite (relu_reply_slots_other m F E1 E2).
      destruct (String.eqb name "MaxPool").
      * match goal with
        | M : handle_max_pool_result _ _ = _ |- _ =>
            unfold handle_max_pool_result in M; exec_inv M
        end.
        unfold placed. simpl. rewrite Nat.add_0_r.
        repeat split; auto. intros [|k] slot K; discriminate.
      * match goal with
        | M : ret _ _ = _ |- _ => exec_inv M
        end.
        apply placed_nil.
    + exec_inv H. unfold relu_reply_slots. rewrite T, F. apply placed_nil.
  - exec_inv H. discriminate.
Qed.

(** The session thread, serving the answers to the requests in flight. *)
Lemma serving_places (requests : list Message) :
  forall st st' (u : unit),
    for_each requests (fun request => handle_message (client_reply request)) st
    = (st', Ok u) ->
    NoDup (m_unknown_relu_idx st) ->
    placed st st'
           (flat_map (fun request => relu_reply_slots (client_reply request))
                     requests).
Proof.
  induction requests as [|rq requests IH]; intros st st' u H ND.
  - simpl in H. exec_inv H. apply placed_nil.
  - cbn [for_each flat_map] in H |- *. exec_inv H.
    match goal with
    | M : handle_message _ _ = (?s, _), F : for_each _ _ _ = _ |- _ =>
        apply handle_message_places in M; [|exact ND];
        apply IH in F; [|rewrite (proj1 M); exact ND];
        exact (placed_app ND M F)
    end.
Qed.

End ReluAnswers.

Section ReluRoundTrip.

Context {env : SealEnv}.

(** X8.  The answers of the client reach the slots they were asked for.  A
    client-aided Relu or BoundedRelu node that starts with
    [m_relu_done_count] at 0 and completes has received, over all the
    answers to its requests, exactly as many slots as it had ciphertext
    slots, and its output holds the [k]-th slot received at the index of its
    [k]-th ciphertext slot.  The output has as many slots as the argument,
    and the counter is back at 0 for the next node. *)
Theorem relu_answers_reach_their_slots
    (arg out : HETensor) (node : Node) (st st' : HESealExecutable)
    (arg' out' : HETensor) :
  m_relu_done_count st = 0 ->
  handle_server_relu_op arg out node st = (st', Ok (arg', out')) ->
  exists requests,
    m_session st'
    = m_session st ++ map write_message requests
        ++ [wait_relu_done (List.length (m_unknown_relu_idx st'))]
    /\ let answers :=
         flat_map (fun request => relu_reply_slots (client_reply request))
                  requests in
       List.length answers = List.length (m_unknown_relu_idx st')
       /\ (forall k idx,
             nth_error (m_unknown_relu_idx st') k = Some idx ->
             nth_error (data out') idx = nth_error answers k)
       /\ List.length (data out') = List.length (data arg)
       /\ m_relu_done_count st' = 0.
Proof.
  intros Hzero H. unfold handle_server_relu_op in H. exec_inv H.
  match goal with
  | E : (_, _) = (_, _) |- _ => inversion E; subst arg' out'; clear E
  end.
  match goal with
  | M : match_to_smallest_chain_index _ = Ok ?m,
    K : for_each (seq 0 _) _ _ = (?s0, _),
    U : relu_unknown_values _ _ _ _ _ = (?s1, Ok ?r),
    F : (if _ then _ else _) ?s1 = (?s2, Ok ?l),
    W : await _ _ _ _ = (?s3, _) |- _ =>
      rename M into Hmatch, K into Hknown, U into Hunknown,
             F into Hflush, W into Hwait;
      destruct m as [smallest matched]; destruct r as [left sent];
      rename s0 into st_known, s1 into st_sent, s2 into st_flushed,
             s3 into st_served, l into last
  end.
  cbn [fst snd data set_data] in *.
  apply relu_known_values_ok in Hknown.
  destruct Hknown as (Ks & Kc & Kl & Ku & _ & _).
  cbn [m_session m_unknown_relu_idx m_relu_done_count m_relu_data
       with_unknown_relu_idx with_relu_data app] in Ks, Kc, Kl, Ku.
  apply relu_unknown_values_ok in Hunknown;
    [|unfold max_relu_message_cnt; cbn [List.length]; lia].
  destruct Hunknown
    as (slots & batches & _ & _ & _ & _ & _ & Us & Ud & Ui & Uc).
  assert (Hflushed :
            m_session st_flushed
            = m_session st ++ map write_message (sent ++ last)
            /\ m_relu_data st_flushed = m_relu_data st_known
            /\ m_unknown_relu_idx st_flushed = m_unknown_relu_idx st_known
            /\ m_relu_done_count st_flushed = 0).
  { destruct left as [|l0 left].
    - cbn [List.length Nat.eqb negb] in Hflush. exec_inv Hflush.
      rewrite app_nil_r.
      split; [rewrite Us, Ks; reflexivity|]. repeat split; congruence.
    - cbn [List.length Nat.eqb negb] in Hflush.
      apply process_unknown_relu_ciphers_batch_ok in Hflush.
      destruct Hflush as (_ & _ & ->).
      cbn [m_session m_relu_data m_unknown_relu_idx m_relu_done_count
           with_session].
      split; [rewrite map_app, app_assoc, Us, Ks; reflexivity|].
      repeat split; congruence. }
  destruct Hflushed as (Fs & Fd & Fi & Fc).
  apply await_ok in Hwait. destruct Hwait as [Hserve Hpred].
  apply Nat.eqb_eq in Hpred.
  assert (ND : NoDup (m_unknown_relu_idx st_flushed)).
  { rewrite Fi, Ku. apply NoDup_filter. apply seq_NoDup. }
  pose proof (serving_frame _ _ Hserve) as (Ss & _).
  cbn [m_session with_session] in Ss.
  apply serving_places in Hserve; [|exact ND].
  destruct Hserve as (Su & Sc & Sl & Sp & _).
  cbn [m_session m_unknown_relu_idx m_relu_done_count m_relu_data
       with_session] in Su, Sc, Sl, Sp.
  rewrite Fc in Sc, Sp. cbn [Nat.add] in Sc, Sp.
  exists (sent ++ last).
  cbn [m_session m_unknown_relu_idx m_relu_done_count with_relu_done_count
       data set_data].
  split.
  { rewrite Ss, Fs, Su, Fi, <- app_assoc. reflexivity. }
  split; [congruence|]. split.
  - intros k idx Hk.
    destruct (nth_error
                (flat_map (fun request =>
                             relu_reply_slots (client_reply request))
                          (sent ++ last)) k) as [slot|] eqn:A.
    + destruct (Sp k slot A) as (idx' & I & V).
      rewrite Su in Hk. congruence.
    + exfalso. apply nth_error_None in A.
      assert (k < List.length (m_unknown_relu_idx st_served)).
      { apply nth_error_Some. rewrite Hk. discriminate. }
      lia.
  - split; [|reflexivity].
    rewrite Sl, Fd, Kl. unfold resize.
    rewrite length_app, length_firstn, repeat_length. lia.
Qed.

End ReluRoundTrip.

(** The tensor with two ciphertexts around a plaintext: the client's answer
    carries two slots. *)
Lemma relu_answers_reach_their_slots_witness :
  let run := @handle_server_relu_op toy_env (toy_tensor toy_mixed_slots)
               (toy_tensor []) (toy_node OP_TYPEID.Relu "Relu")
               toy_client_executable in
  exists requests,
    List.length
      (flat_map (fun request =>
                   relu_reply_slots (@client_reply toy_env request))
                requests)
    = List.length (m_unknown_relu_idx (fst run))
    /\ m_unknown_relu_idx (fst run) = [0; 2]
    /\ m_relu_done_count (fst run) = 0.
Proof.
  cbv zeta.
  assert (H : @handle_server_relu_op toy_env (toy_tensor toy_mixed_slots)
                (toy_tensor []) (toy_node OP_TYPEID.Relu "Relu")
                toy_client_executable
              = (fst (@handle_server_relu_op toy_env
                        (toy_tensor toy_mixed_slots) (toy_tensor [])
                        (toy_node OP_TYPEID.Relu "Relu")
                        toy_client_executable),
                 Ok (toy_tensor toy_mixed_slots,
                     set_data (toy_tensor [])
                       [toy_cipher (-1); plain_slot [0%Q; 3%Q] false;
                        toy_cipher 2])))
    by (vm_compute; reflexivity).
  destruct (@relu_answers_reach_their_slots toy_env _ _ _
              toy_client_executable _ _ _ eq_refl H)
    as (requests & _ & L & _ & _ & Z).
  exists requests. split; [exact L|]. split; [vm_compute; reflexivity|].
  exact Z.
Defined.

(** ** Relu without ciphertexts *)

Section ReluPlain.

Context {env : SealEnv}.

Lemma assign_total {A} (v : list A) :
  forall i x, i < List.length v -> exists v', assign v i x = Ok v'.
Proof.
  induction v as [|h t IH]; intros i x H; simpl in H; [lia|].
  destruct i as [|i]; simpl.
  - eexists. reflexivity.
  - destruct (IH i x) as [t' ->]; [lia|]. eexists. reflexivity.
Qed.

(** "Process known values" runs to its end on plaintext slots. *)
Lemma relu_known_values_total (d : list HEType) (node : Node) (n : nat) :
  forall s st,
    (forall i, s <= i < s + n ->
       exists slot p, nth_error d i = Some slot /\ he_value slot = Plain p) ->
    s + n <= List.length (m_relu_data st) ->
    exists st1,
      for_each (seq s n) (relu_known_value d node) st = (st1, Ok tt)
      /\ m_session st1 = m_session st
      /\ m_unknown_relu_idx st1 = m_unknown_relu_idx st
      /\ m_relu_done_count st1 = m_relu_done_count st
      /\ List.length (m_relu_data st1) = List.length (m_relu_data st).
Proof.
  induction n as [|n IH]; intros s st Hplain Hlen.
  - exists st. simpl. auto.
  - destruct (Hplain s) as (slot & p & Hslot & Hp); [lia|].
    destruct (nth_error (m_relu_data st) s) as [old|] eqn:Hold;
      [|apply nth_error_None in Hold; lia].
    destruct (@assign_total _ (m_relu_data st) s
                (set_plaintext old (scalar_result node p))) as [rd Hrd];
      [lia|].
    pose proof Hrd as Lrd. apply assign_spec in Lrd. destruct Lrd as (Lrd & _).
    destruct (IH (S s) (with_relu_data st rd)) as (st1 & R & S1 & U1 & C1 & L1).
    { intros i Hi. apply Hplain. lia. }
    { simpl. lia. }
    exists st1. cbn [seq for_each].
    unfold bind at 1. unfold relu_known_value at 1.
    unfold bind, lift, get, modify, at_index.
    rewrite Hslot, Hp, Hold, Hrd.
    fold (@bind env). rewrite R.
    simpl in *. repeat split; congruence.
Qed.

(** X9.  A client-aided Relu or BoundedRelu node over a tensor without a
    ciphertext completes without a word to the client: given that the chain
    indices are matched and [m_relu_done_count] is 0, the call returns, the
    one thing it does on the session is a wait that no answer has to end,
    and every slot of the output holds the value of the scalar plaintext
    routine. *)
Theorem relu_on_plaintexts_asks_nothing
    (arg out : HETensor) (node : Node) (st : HESealExecutable)
    (smallest : N) (matched : list HEType) :
  node_typeid node = OP_TYPEID.Relu
  \/ node_typeid node = OP_TYPEID.BoundedRelu ->
  match_to_smallest_chain_index (data arg) = Ok (smallest, matched) ->
  List.length matched = List.length (data arg) ->
  (forall slot, In slot matched -> is_plaintext slot = true) ->
  m_relu_done_count st = 0 ->
  exists st' out',
    handle_server_relu_op arg out node st
    = (st', Ok (set_data arg matched, out'))
    /\ m_session st' = m_session st ++ [wait_relu_done 0]
    /\ (forall i slot p,
          nth_error matched i = Some slot -> he_value slot = Plain p ->
          exists r,
            nth_error (data out') i = Some r
            /\ he_value r = Plain (scalar_result node p)).
Proof.
  intros Htype Hmatch Hlen Hplain Hzero.
  set (st0 := with_unknown_relu_idx
                (with_relu_data st
                   (resize (m_relu_data st) (List.length (data arg))
                           empty_plain_slot)) []).
  destruct (@relu_known_values_total matched node (List.length (data arg))
              0 st0) as (st1 & R & S1 & U1 & C1 & L1).
  { intros i Hi.
    destruct (nth_error matched i) as [slot|] eqn:E;
      [|apply nth_error_None in E; lia].
    pose proof (Hplain slot (nth_error_In _ _ E)) as P.
    unfold is_plaintext in P. destruct (he_value slot) as [p|c] eqn:V;
      [|discriminate].
    exists slot, p. auto. }
  { subst st0. simpl. unfold resize.
    rewrite length_app, length_firstn, repeat_length. lia. }
  assert (Run : exists st' out',
             handle_server_relu_op arg out node st
             = (st', Ok (set_data arg matched, out'))
             /\ m_session st' = m_session st ++ [wait_relu_done 0]).
  { unfold handle_server_relu_op.
    assert (T : match node_typeid node with
                | OP_TYPEID.BoundedRelu | OP_TYPEID.Relu => true
                | _ => false
                end = true)
      by (destruct Htype as [-> | ->]; reflexivity).
    rewrite T.
    unfold bind at 1. unfold NGRAPH_CHECK at 1. unfold ret at 1.
    unfold bind at 1. unfold lift at 1. rewrite Hmatch.
    unfold bind at 1. unfold modify at 1.
    unfold bind at 1. unfold modify at 1.
    cbn [snd data set_data].
    fold st0.
    unfold bind at 1. rewrite R.
    unfold bind at 1. unfold get at 1.
    subst st0. simpl in U1, C1, S1. rewrite U1.
    unfold bind at 1. cbn [relu_unknown_values]. unfold ret at 1.
    cbn [fst snd List.length Nat.eqb negb].
    unfold bind at 1. unfold ret at 1.
    unfold await, bind, session_wait, modify, get, ret.
    cbn [for_each app m_relu_done_count m_unknown_relu_idx with_session
         with_relu_done_count m_session].
    unfold ret. cbv beta iota.
    cbn [m_relu_done_count m_unknown_relu_idx with_session].
    rewrite C1, U1, Hzero. cbn [List.length Nat.eqb]. cbv beta iota.
    eexists. eexists. split; [reflexivity|].
    cbn [m_session with_relu_done_count with_session]. rewrite S1.
    reflexivity. }
  destruct Run as (st' & out' & Hrun & Hsession).
  exists st', out'. split; [exact Hrun|]. split; [exact Hsession|].
  apply handle_server_relu_op_ok in Hrun.
  destruct Hrun as (_ & _ & _ & _ & _ & _ & _ & _ & P).
  intros i slot p Hi Hv. apply (P i slot p); try assumption.
  rewrite <- Hlen. apply nth_error_Some. cbn [data set_data] in Hi.
  rewrite Hi. discriminate.
Qed.

End ReluPlain.

Lemma relu_on_plaintexts_asks_nothing_witness :
  let slots := [plain_slot [(-2)%Q; 3%Q] false; plain_slot [1%Q] false] in
  exists st' out',
    @handle_server_relu_op toy_env (toy_tensor slots) (toy_tensor [])
      (toy_node OP_TYPEID.Relu "Relu") toy_client_executable
    = (st', Ok (set_data (toy_tensor slots) slots, out'))
    /\ m_session st' = [wait_relu_done 0].
Proof.
  cbv zeta.
  destruct (@relu_on_plaintexts_asks_nothing toy_env
              (toy_tensor [plain_slot [(-2)%Q; 3%Q] false;
                           plain_slot [1%Q] false])
              (toy_tensor []) (toy_node OP_TYPEID.Relu "Relu")
              toy_client_executable SealUtil.SIZE_MAX
              [plain_slot [(-2)%Q; 3%Q] false; plain_slot [1%Q] false])
    as (st' & out' & R & S & _).
  - left. reflexivity.
  - reflexivity.
  - reflexivity.
  - intros slot [<-|[<-|[]]]; reflexivity.
  - reflexivity.
  - exists st', out'. split; [exact R | exact S].
Defined.

(** ** The results and the node loop of a call, on the session *)

Section ClientCall.

Context {env : SealEnv}.

Lemma send_client_results_run (st : HESealExecutable) (output : HETensor) :
  m_client_outputs st = [output] ->
  send_client_results st
  = (with_session st
       (m_session st
        ++ map (fun pb_tensor => write_message (result_message pb_tensor))
               (write_to_pb_tensors output)
        ++ [wait_written]),
     Ok tt).
Proof.
  intro H. unfold send_client_results, bind, get, NGRAPH_CHECK, lift.
  rewrite H. simpl.
  rewrite for_each_session_write.
  unfold session_wait, modify. simpl. rewrite <- app_assoc. reflexivity.
Qed.

(** X10.  The results go to the client one message for each wire tensor of the
    one client output, in order, and then the executor waits until they are
    written; nothing else changes.  Without exactly one client output
    nothing is written. *)
Theorem results_are_sent_tensor_by_tensor (st : HESealExecutable) :
  (forall output,
     m_client_outputs st = [output] ->
     send_client_results st
     = (with_session st
          (m_session st
           ++ map (fun pb_tensor => write_message (result_message pb_tensor))
                  (write_to_pb_tensors output)
           ++ [wait_written]),
        Ok tt))
  /\ (List.length (m_client_outputs st) <> 1 ->
      send_client_results st
      = (st, Err (CheckFailure
                    "HESealExecutable only supports output size 1"))).
Proof.
  split.
  - apply send_client_results_run.
  - intro H. unfold send_client_results, bind, get, NGRAPH_CHECK.
    apply Nat.eqb_neq in H. rewrite H. reflexivity.
Qed.

Lemma offload_request_event (node : Node) (pb_tensor : pb_HETensor) :
  is_offload_event (write_message (offload_request node pb_tensor)) = true.
Proof. reflexivity. Qed.

Lemma relu_requests_events (arg : HETensor) (node : Node)
    (batches : list (list HEType)) :
  forallb is_offload_event
          (map write_message (flat_map (relu_requests arg node) batches))
  = true.
Proof.
  induction batches as [|b batches IH]; [reflexivity|].
  change (flat_map (relu_requests arg node) (b :: batches))
    with (relu_requests arg node b
          ++ flat_map (relu_requests arg node) batches).
  rewrite map_app, forallb_app.
  apply andb_true_intro. split; [|exact IH].
  unfold relu_requests. destruct (relu_tensor arg b) as [t|]; [|reflexivity].
  induction (write_to_pb_tensors t) as [|pb l IHl]; [reflexivity|].
  simpl. exact IHl.
Qed.

Lemma max_pool_script_events (arg : HETensor) (node : Node)
    (lists : list (list nat)) (requests : list Message) :
  Forall2 (max_pool_request arg node) lists requests ->
  forallb is_offload_event (max_pool_script requests) = true.
Proof.
  induction 1 as [|l rq lists requests R _ IH]; [reflexivity|].
  destruct R as (_ & batch & t & pb & _ & _ & _ & _ & ->).
  simpl. exact IH.
Qed.

(** A node extends the session log by events of the offload protocol. *)
Lemma generate_calls_extends
    (node : Node) (out args : list HETensor) (st st' : HESealExecutable)
    (r : list HETensor * list HETensor) :
  generate_calls node out args st = (st', Ok r) ->
  exists events,
    m_session st' = m_session st ++ events
    /\ forallb is_offload_event events = true.
Proof.
  intro H.
  assert (Same : st' = st -> exists events,
               m_session st' = m_session st ++ events
               /\ forallb is_offload_event events = true).
  { intros ->. exists []. rewrite app_nil_r. auto. }
  destruct (enable_client st) eqn:C;
    [|apply Same; eapply generate_calls_local; eassumption].
  assert (Relu : forall arg0 out0 s1 served,
             handle_server_relu_op arg0 out0 node st = (s1, Ok served) ->
             exists events,
               m_session s1 = m_session st ++ events
               /\ forallb is_offload_event events = true).
  { intros arg0 out0 s1 [arg' out'] R.
    apply handle_server_relu_op_ok in R.
    destruct R as (smallest & batches & _ & _ & _ & _ & _ & S & _).
    eexists. split; [exact S|].
    rewrite forallb_app. apply andb_true_intro.
    split; [apply relu_requests_events | reflexivity]. }
  assert (MaxPool : forall arg0 out0 s1 out0',
             handle_server_max_pool_op arg0 out0 node st = (s1, Ok out0') ->
             exists events,
               m_session s1 = m_session st ++ events
               /\ forallb is_offload_event events = true).
  { intros arg0 out0 s1 out0' M.
    unfold handle_server_max_pool_op in M. exec_inv M.
    match goal with
    | F : for_each _ _ _ = _ |- _ =>
        apply max_pool_cells_ok in F; [|reflexivity];
        destruct F as (rqs & slots & Rqs & _ & S & _ & _)
    end.
    simpl in S. exists (max_pool_script rqs). simpl.
    split; [exact S|]. eapply max_pool_script_events. exact Rqs. }
  unfold generate_calls in H.
  destruct (node_typeid node); try discriminate H;
    exec_inv H; try rewrite C in *;
    repeat match goal with
           | A : bind _ _ _ = (_, Ok _) |- _ => exec_inv A
           end;
    try match goal with
        | A : handle_server_relu_op _ _ _ _ = _ |- _ =>
            apply Relu in A; exact A
        | A : handle_server_max_pool_op _ _ _ _ = _ |- _ =>
            apply MaxPool in A; exact A
        end;
    apply Same; repeat dispatch_step; try discriminate; auto.
Qed.

Lemma call_ops_extends (ops : list Op) :
  forall tensor_map st st' tensor_map',
    call_ops tensor_map ops st = (st', Ok tensor_map') ->
    exists events,
      m_session st' = m_session st ++ events
      /\ forallb is_offload_event events = true.
Proof.
  induction ops as [|op ops IH]; intros tm st st' tm' H.
  - simpl in H. exec_inv H. exists []. rewrite app_nil_r. auto.
  - cbn [call_ops] in H. exec_inv H.
    match goal with
    | A : call_op _ _ _ = (?s, _), B : call_ops _ _ _ = _ |- _ =>
        apply IH in B; destruct B as (rest & Sr & Fr);
        assert (First : exists events,
                   m_session s = m_session st ++ events
                   /\ forallb is_offload_event events = true);
        [ unfold call_op in A; destruct (is_parameter op);
          [ exec_inv A; exists []; rewrite app_nil_r; auto
          | exec_inv A;
            match goal with
            | G : generate_calls _ _ _ ?s0 = _,
              M : (if _ then _ else _) st = (?s0, _) |- _ =>
                apply generate_calls_extends in G;
                destruct G as (events & Sg & Fg);
                exists events; split; [|exact Fg];
                rewrite Sg; f_equal;
                destruct (enable_client st && is_output op);
                exec_inv M; reflexivity
            end ]
        | destruct First as (first & Sf & Ff);
          exists (first ++ rest); split;
          [ rewrite Sr, Sf, app_assoc; reflexivity
          | rewrite forallb_app; apply andb_true_intro; split;
            [exact Ff | exact Fr] ] ]
    end.
Qed.

(** X11.  The node loop of a call.  What the nodes of the graph put on the
    session are requests of offloaded operations, each of type [REQUEST]
    with its function name and one tensor, and the waits for their answers:
    the loop writes no other message, and what was on the session before
    stays there. *)
Theorem node_loop_writes_offload_events
    (ops : list Op) (tensor_map tensor_map' : TensorMap)
    (st st' : HESealExecutable) :
  call_ops tensor_map ops st = (st', Ok tensor_map') ->
  exists events,
    m_session st' = m_session st ++ events
    /\ forallb is_offload_event events = true.
Proof. apply call_ops_extends. Qed.

End ClientCall.

Lemma results_are_sent_tensor_by_tensor_witness :
  exists st',
    @send_client_results toy_env
      (with_client_outputs toy_client_executable
         [toy_tensor toy_mixed_slots])
    = (st', Ok tt)
    /\ m_session st'
       = [write_message (@result_message toy_env toy_mixed_slots);
          wait_written].
Proof.
  eexists. split.
  - apply (proj1 (@results_are_sent_tensor_by_tensor toy_env
                    (with_client_outputs toy_client_executable
                       [toy_tensor toy_mixed_slots]))).
    reflexivity.
  - reflexivity.
Defined.

Lemma node_loop_writes_offload_events_witness :
  let st' := fst (@call_ops toy_env [(0, toy_tensor toy_mixed_slots)]
                    toy_graph toy_client_executable) in
  m_session st'
  = [ write_message
        (@Build_TCPMessage (list HEType) REQUEST (Some "Relu"%string)
           [[toy_cipher (-1); toy_cipher 2]] false);
      wait_relu_done 2 ]
  /\ exists events,
       m_session st' = m_session toy_client_executable ++ events
       /\ forallb (@is_offload_event toy_env) events = true.
Proof.
  cbv zeta. split; [vm_compute; reflexivity|].
  assert (H : @call_ops toy_env [(0, toy_tensor toy_mixed_slots)] toy_graph
                toy_client_executable
              = (fst (@call_ops toy_env [(0, toy_tensor toy_mixed_slots)]
                        toy_graph toy_client_executable),
                 Ok (match snd (@call_ops toy_env
                                  [(0, toy_tensor toy_mixed_slots)]
                                  toy_graph toy_client_executable) with
                     | Ok m => m
                     | Err _ => []
                     end)))
    by (vm_compute; reflexivity).
  exact (@node_loop_writes_offload_events toy_env toy_graph
           [(0, toy_tensor toy_mixed_slots)]
           (match snd (@call_ops toy_env [(0, toy_tensor toy_mixed_slots)]
                         toy_graph toy_client_executable) with
            | Ok m => m
            | Err _ => []
            end)
           toy_client_executable
           (fst (@call_ops toy_env [(0, toy_tensor toy_mixed_slots)]
                   toy_graph toy_client_executable))
           H).
Defined.

(** ** Exceptions in the Add and Multiply kernels *)

Section LazyModException.

Context {env : SealEnv}.

(** X12.  The lazy-mod flag is restored by a statement after the kernel, not by
    a guard: when the kernel of an Add or Multiply node throws while the
    flag is set, the exception leaves [generate_calls] with the flag
    cleared. *)
Theorem lazy_mod_stays_cleared_when_the_kernel_throws
    (node : Node) (k : kernel) (out args : list HETensor)
    (st : HESealExecutable) (out0 : HETensor) (e : he_error) :
  (node_typeid node = OP_TYPEID.Add /\ k = add_seal)
  \/ (node_typeid node = OP_TYPEID.Multiply /\ k = multiply_seal) ->
  lazy_mod st = true ->
  at_index out 0 = Ok out0 ->
  k (set_lazy_mod (m_he_seal_backend st) false) node args out0 = Err e ->
  exists st',
    generate_calls node out args st = (st', Err e)
    /\ lazy_mod st' = false
    /\ st' = with_backend st (set_lazy_mod (m_he_seal_backend st) false).
Proof.
  intros Hk L O K.
  exists (with_backend st (set_lazy_mod (m_he_seal_backend st) false)).
  split; [|split; reflexivity].
  unfold generate_calls.
  destruct Hk as [[-> ->]|[-> ->]];
    unfold bind, without_lazy_mod, bind, get, modify, run_kernel, bind, get,
      lift;
    rewrite L; simpl; rewrite O, K; reflexivity.
Qed.

End LazyModException.

Lemma lazy_mod_stays_cleared_when_the_kernel_throws_witness :
  exists st',
    @generate_calls toy_failing_env (toy_node OP_TYPEID.Add "Add")
      [toy_tensor []] [toy_tensor [toy_cipher 2]; toy_tensor [toy_cipher 3]]
      toy_failing_executable
    = (st', Err ScaleMismatch)
    /\ lazy_mod toy_failing_executable = true
    /\ lazy_mod st' = false.
Proof.
  destruct (@lazy_mod_stays_cleared_when_the_kernel_throws toy_failing_env
              (toy_node OP_TYPEID.Add "Add") (@add_seal toy_failing_env)
              [toy_tensor []]
              [toy_tensor [toy_cipher 2]; toy_tensor [toy_cipher 3]]
              toy_failing_executable (toy_tensor []) ScaleMismatch)
    as (st' & R & L & _).
  - left. split; reflexivity.
  - reflexivity.
  - reflexivity.
  - reflexivity.
  - exists st'. split; [exact R|]. split; [reflexivity | exact L].
Defined.

(** * The Add kernel *)

Section AddKernel.

Import AddSeal.

Context {ev : Evaluator}.

Lemma Qplus_comm_eq (x y : Q) : (x + y)%Q = (y + x)%Q.
Proof.
  unfold Qplus. f_equal; [apply Z.add_comm | apply Pos.mul_comm].
Qed.

Lemma length_1_inv {A} (l : list A) (d : A) :
  List.length l = 1 -> l = [nth 0 l d].
Proof. destruct l as [|x [|y l]]; simpl; intro H; try discriminate. reflexivity. Qed.

(** X13.  The sum of two plaintexts does not depend on the order of the
    operands, and it has the size of the other operand when one has size 1
    and the smaller of the two sizes otherwise; so the sum of a plaintext of
    size 1 and the empty plaintext is empty. *)
Theorem plaintext_sum_commutes (arg0 arg1 : HEPlaintext) :
  scalar_add_seal_plain_plain arg0 arg1
  = scalar_add_seal_plain_plain arg1 arg0
  /\ List.length (scalar_add_seal_plain_plain arg0 arg1)
     = if List.length arg0 =? 1 then List.length arg1
       else if List.length arg1 =? 1 then List.length arg0
       else Nat.min (List.length arg0) (List.length arg1).
Proof.
  split.
  - unfold scalar_add_seal_plain_plain.
    destruct (List.length arg0 =? 1) eqn:E0;
      destruct (List.length arg1 =? 1) eqn:E1; try reflexivity.
    + apply Nat.eqb_eq in E0, E1.
      rewrite (length_1_inv arg0 0%Q E0), (length_1_inv arg1 0%Q E1).
      simpl. rewrite Qplus_comm_eq. reflexivity.
    + rewrite Nat.min_comm. apply map_ext. intro i. apply Qplus_comm_eq.
  - unfold scalar_add_seal_plain_plain.
    destruct (List.length arg0 =? 1); [apply length_map|].
    destruct (List.length arg1 =? 1); [apply length_map|].
    rewrite length_map, length_seq. reflexivity.
Qed.

(** X14.  The sum of two slots is a ciphertext exactly when one of the operands
    is; it takes the complex packing of the first operand, which is that of
    the second; an operand that is a plaintext is left as it was.  Operands
    whose complex packing differs are rejected. *)
Theorem sum_is_encrypted_when_an_operand_is
    (he_seal_backend : HESealBackend) (arg0 arg1 out : HEType) :
  (complex_packing arg0 <> complex_packing arg1 ->
   scalar_add_seal he_seal_backend arg0 arg1 out
   = Err (CheckFailure "Complex packing types don't match"))
  /\ (forall arg0' arg1' out',
        scalar_add_seal he_seal_backend arg0 arg1 out
        = Ok (arg0', arg1', out') ->
        is_ciphertext out' = is_ciphertext arg0 || is_ciphertext arg1
        /\ complex_packing out' = complex_packing arg0
        /\ complex_packing arg0 = complex_packing arg1
        /\ (is_plaintext arg0 = true -> arg0' = arg0)
        /\ (is_plaintext arg1 = true -> arg1' = arg1)).
Proof.
  split.
  - intro H. unfold scalar_add_seal.
    destruct (Bool.eqb (complex_packing arg0) (complex_packing arg1)) eqn:E;
      [apply Bool.eqb_prop in E; contradiction | reflexivity].
  - intros a0 a1 o H. unfold scalar_add_seal in H.
    destruct (Bool.eqb (complex_packing arg0) (complex_packing arg1)) eqn:E;
      [|discriminate].
    apply Bool.eqb_prop in E. unfold is_ciphertext, is_plaintext.
    destruct (he_value arg0) as [p0|c0] eqn:V0;
      destruct (he_value arg1) as [p1|c1] eqn:V1; simpl in H.
    + inversion H; subst. simpl. auto.
    + apply rbind_ok in H. destruct H as (s & _ & H).
      inversion H; subst. simpl. repeat split; auto; discriminate.
    + apply rbind_ok in H. destruct H as (s & _ & H).
      inversion H; subst. simpl. repeat split; auto; discriminate.
    + apply rbind_ok in H. destruct H as ([[c0' c1'] s] & _ & H).
      inversion H; subst. simpl. repeat split; auto; discriminate.
Qed.

(** X15.  Adding the empty plaintext, or the plaintext [[0]], to a ciphertext
    calls no CKKS operation: the output is the ciphertext operand itself,
    whichever side the plaintext is on. *)
Theorem adding_zero_copies_the_ciphertext
    (he_seal_backend : HESealBackend) (arg0 arg1 out : HEType)
    (c : SealCiphertextWrapper) (p : HEPlaintext) :
  complex_packing arg0 = complex_packing arg1 ->
  he_value arg0 = Cipher c ->
  he_value arg1 = Plain p ->
  p = [] \/ (exists z, p = [z] /\ (z == 0)%Q) ->
  let sum := set_ciphertext
               (set_complex_packing out (complex_packing arg0)) c in
  scalar_add_seal he_seal_backend arg0 arg1 out = Ok (arg0, arg1, sum)
  /\ scalar_add_seal he_seal_backend arg1 arg0 out = Ok (arg1, arg0, sum).
Proof.
  intros E V0 V1 Z sum.
  assert (S : forall packing,
             scalar_add_seal_cipher_plain c p packing = Ok c).
  { intro packing. unfold scalar_add_seal_cipher_plain.
    destruct Z as [->|(z & -> & Hz)]; [reflexivity|].
    simpl. apply Qeq_bool_iff in Hz. rewrite Hz. reflexivity. }
  unfold scalar_add_seal. rewrite <- E, Bool.eqb_reflx, V0, V1. simpl.
  rewrite !S. split; reflexivity.
Qed.

(** X16.  A ciphertext and a plaintext are added the same way in either order:
    swapping the operands swaps them in the result and changes nothing else. *)
Theorem mixed_sum_commutes
    (he_seal_backend : HESealBackend) (arg0 arg1 out : HEType) :
  is_ciphertext arg0 = true -> is_plaintext arg1 = true ->
  scalar_add_seal he_seal_backend arg1 arg0 out
  = match scalar_add_seal he_seal_backend arg0 arg1 out with
    | Ok (arg0', arg1', out') => Ok (arg1', arg0', out')
    | Err e => Err e
    end.
Proof.
  unfold is_ciphertext, is_plaintext, scalar_add_seal. intros C P.
  destruct (he_value arg0) as [p0|c0]; [discriminate|].
  destruct (he_value arg1) as [p1|c1]; [|discriminate].
  replace (Bool.eqb (complex_packing arg1) (complex_packing arg0))
    with (Bool.eqb (complex_packing arg0) (complex_packing arg1))
    by (destruct (complex_packing arg0), (complex_packing arg1);
        reflexivity).
  destruct (Bool.eqb (complex_packing arg0) (complex_packing arg1)) eqn:E;
    [|reflexivity].
  apply Bool.eqb_prop in E. simpl. rewrite E.
  destruct (scalar_add_seal_cipher_plain c0 p1 (complex_packing arg1));
    reflexivity.
Qed.

Lemma add_slots_spec (he_seal_backend : HESealBackend) (n : nat) :
  forall s arg0 arg1 out arg0' arg1' out',
    add_slots he_seal_backend (seq s n) arg0 arg1 out
    = Ok (arg0', arg1', out') ->
    (List.length arg0' = List.length arg0
     /\ List.length arg1' = List.length arg1
     /\ List.length out' = List.length out)
    /\ (forall i, i < s \/ s + n <= i ->
          nth_error arg0' i = nth_error arg0 i
          /\ nth_error arg1' i = nth_error arg1 i
          /\ nth_error out' i = nth_error out i)
    /\ (forall i, s <= i < s + n ->
          added_at he_seal_backend arg0 arg1 out arg0' arg1' out' i).
Proof.
  induction n as [|n IH]; intros s arg0 arg1 out arg0' arg1' out' H.
  - simpl in H. inversion H; subst. repeat split; auto. intros i Hi. lia.
  - cbn [seq add_slots] in H.
    apply rbind_ok in H. destruct H as (a0 & H0 & H).
    apply rbind_ok in H. destruct H as (a1 & H1 & H).
    apply rbind_ok in H. destruct H as (o & Ho & H).
    apply rbind_ok in H. destruct H as ([[r0 r1] ro] & Hr & H).
    apply rbind_ok in H. destruct H as (v0 & A0 & H).
    apply rbind_ok in H. destruct H as (v1 & A1 & H).
    apply rbind_ok in H. destruct H as (vo & Ao & H).
    apply at_index_ok in H0, H1, Ho.
    apply assign_spec in A0, A1, Ao.
    destruct A0 as (L0 & N0 & O0), A1 as (L1 & N1 & O1), Ao as (Lo & No & Oo).
    apply IH in H. destruct H as ((M0 & M1 & Mo) & F & P).
    split; [repeat split; congruence|]. split.
    + intros i Hi. destruct (F i) as (F0 & F1 & Fo); [lia|].
      rewrite F0, F1, Fo, O0, O1, Oo by lia. auto.
    + intros i Hi. destruct (Nat.eq_dec i s) as [->|Hne].
      * destruct (F s) as (F0 & F1 & Fo); [lia|].
        exists a0, a1, o, r0, r1, ro.
        rewrite F0, F1, Fo. repeat split; assumption.
      * destruct (P i) as (x0 & x1 & xo & y0 & y1 & yo
                           & X0 & X1 & Xo & S & Y0 & Y1 & Yo); [lia|].
        rewrite O0 in X0 by exact Hne. rewrite O1 in X1 by exact Hne.
        rewrite Oo in Xo by exact Hne.
        exists x0, x1, xo, y0, y1, yo. repeat split; assumption.
Qed.

(** X17.  [add_seal] adds the first [count] slots and no other.  It rejects an
    element type other than f32, f64, i32 and i64 and a count beyond the
    size of an operand.  When it returns, the three vectors have the sizes
    they had, every slot below [count] holds what [scalar_add_seal] made of
    the slots at its index, and the slots from [count] on are as they were. *)
Theorem add_seal_adds_the_first_count_slots
    (arg0 arg1 out : list HEType) (count : nat) (type : element_Type)
    (he_seal_backend : HESealBackend) :
  (is_supported_type type = false
   \/ List.length arg0 < count \/ List.length arg1 < count ->
   exists msg,
     add_seal arg0 arg1 out count type he_seal_backend
     = Err (CheckFailure msg))
  /\ (forall arg0' arg1' out',
        add_seal arg0 arg1 out count type he_seal_backend
        = Ok (arg0', arg1', out') ->
        List.length arg0' = List.length arg0
        /\ List.length arg1' = List.length arg1
        /\ List.length out' = List.length out
        /\ (forall i, i < count ->
              added_at he_seal_backend arg0 arg1 out arg0' arg1' out' i)
        /\ (forall i, count <= i ->
              nth_error arg0' i = nth_error arg0 i
              /\ nth_error arg1' i = nth_error arg1 i
              /\ nth_error out' i = nth_error out i)).
Proof.
  split.
  - intro H. unfold add_seal.
    destruct (is_supported_type type); [|eexists; reflexivity].
    destruct H as [H|[H|H]]; [discriminate| |].
    + apply Nat.leb_gt in H. rewrite H. eexists. reflexivity.
    + destruct (count <=? List.length arg0); [|eexists; reflexivity].
      apply Nat.leb_gt in H. rewrite H. eexists. reflexivity.
  - intros a0 a1 o H. unfold add_seal in H.
    destruct (is_supported_type type); [|discriminate].
    destruct (count <=? List.length arg0); [|discriminate].
    destruct (count <=? List.length arg1); [|discriminate].
    simpl in H. apply add_slots_spec in H.
    destruct H as ((L0 & L1 & Lo) & F & P).
    repeat split; try assumption; try (apply F; lia).
    intros i Hi. apply P. lia.
Qed.

End AddKernel.

Lemma sum_is_encrypted_when_an_operand_is_witness :
  exists arg0' arg1' out',
    @AddSeal.scalar_add_seal AddSeal.toy_evaluator
      {| m_lazy_mod := false; m_enable_client := false |}
      (toy_cipher 1) (plain_slot [2%Q] false) empty_plain_slot
    = Ok (arg0', arg1', out')
    /\ is_ciphertext out' = true
    /\ arg1' = plain_slot [2%Q] false.
Proof.
  eexists. eexists. eexists. split; [vm_compute; reflexivity|].
  destruct (proj2 (@sum_is_encrypted_when_an_operand_is AddSeal.toy_evaluator
                     {| m_lazy_mod := false; m_enable_client := false |}
                     (toy_cipher 1) (plain_slot [2%Q] false) empty_plain_slot)
                  _ _ _ eq_refl) as (C & _ & _ & _ & P).
  split; [exact C | apply P; reflexivity].
Defined.

Lemma adding_zero_copies_the_ciphertext_witness :
  @AddSeal.scalar_add_seal AddSeal.toy_evaluator
    {| m_lazy_mod := false; m_enable_client := false |}
    (plain_slot [0%Q] false) (toy_cipher 1) empty_plain_slot
  = Ok (plain_slot [0%Q] false, toy_cipher 1, toy_cipher 1).
Proof.
  apply (proj2 (@adding_zero_copies_the_ciphertext AddSeal.toy_evaluator
                  {| m_lazy_mod := false; m_enable_client := false |}
                  (toy_cipher 1) (plain_slot [0%Q] false) empty_plain_slot
                  _ [0%Q] eq_refl eq_refl eq_refl
                  (or_intror (ex_intro _ 0%Q (conj eq_refl (Qeq_refl 0)))))).
Defined.

Lemma mixed_sum_commutes_witness :
  @AddSeal.scalar_add_seal AddSeal.toy_evaluator
    {| m_lazy_mod := false; m_enable_client := false |}
    (plain_slot [2%Q] false) (toy_cipher 1) empty_plain_slot
  = match @AddSeal.scalar_add_seal AddSeal.toy_evaluator
            {| m_lazy_mod := false; m_enable_client := false |}
            (toy_cipher 1) (plain_slot [2%Q] false) empty_plain_slot with
    | Ok (arg0', arg1', out') => Ok (arg1', arg0', out')
    | Err e => Err e
    end.
Proof.
  apply (@mixed_sum_commutes AddSeal.toy_evaluator); reflexivity.
Defined.

Lemma add_seal_adds_the_first_count_slots_witness :
  exists arg0' arg1' out',
    @AddSeal.add_seal AddSeal.toy_evaluator
      [toy_cipher 1; plain_slot [1%Q] false; toy_cipher 4]
      [plain_slot [2%Q] false; plain_slot [3%Q] false; toy_cipher 5]
      [empty_plain_slot; empty_plain_slot; empty_plain_slot]
      2 AddSeal.f32 {| m_lazy_mod := false; m_enable_client := false |}
    = Ok (arg0', arg1', out')
    /\ nth_error out' 2 = Some empty_plain_slot
    /\ List.length out' = 3.
Proof.
  eexists. eexists. eexists. split; [vm_compute; reflexivity|].
  destruct (proj2 (@add_seal_adds_the_first_count_slots AddSeal.toy_evaluator
                     [toy_cipher 1; plain_slot [1%Q] false; toy_cipher 4]
                     [plain_slot [2%Q] false; plain_slot [3%Q] false;
                      toy_cipher 5]
                     [empty_plain_slot; empty_plain_slot; empty_plain_slot]
                     2 AddSeal.f32
                     {| m_lazy_mod := false; m_enable_client := false |})
                  _ _ _ eq_refl) as (_ & _ & L & _ & F).
  split; [apply (F 2); lia | exact L].
Defined.

(** * Encryption parameters *)

Section ParameterFacts.

Import EncryptionParameters.

Context {lib : SealLibrary}.

(** X18.  [same_context] compares the scheme name and the SEAL parameters and
    nothing else: the scale, the complex packing and the security level of
    its arguments do not matter, as long as the scale of the second compares
    equal to itself. *)
Theorem same_context_ignores_scale_packing_and_security
    (parms1 parms2 : HESealEncryptionParameters) :
  double_eqb (m_scale parms2) (m_scale parms2) = true ->
  same_context parms1 parms2
  = String.eqb (m_scheme_name parms2) (m_scheme_name parms1)
    && seal_parms_eqb (m_seal_encryption_parameters parms2)
                      (m_seal_encryption_parameters parms1).
Proof.
  intro H. unfold same_context, equal. simpl.
  rewrite H, N.eqb_refl, Bool.eqb_reflx, !andb_true_r. reflexivity.
Qed.

Lemma byte_of_N_to_N (n : N) : (n < 256)%N -> Byte.to_N (byte_of_N n) = n.
Proof.
  intro H. unfold byte_of_N.
  destruct (Byte.of_N n) as [b|] eqn:E.
  - apply Byte.to_of_N. exact E.
  - apply Byte.of_N_None_iff in E. lia.
Qed.

Lemma le_bytes_length (count : nat) :
  forall n, List.length (le_bytes count n) = count.
Proof. induction count as [|c IH]; intro n; simpl; [|rewrite IH]; reflexivity. Qed.

Lemma le_value_le_bytes (count : nat) :
  forall n, (n < 256 ^ N.of_nat count)%N -> le_value (le_bytes count n) = n.
Proof.
  induction count as [|c IH]; intros n H.
  - simpl in *. lia.
  - cbn [le_bytes le_value].
    rewrite byte_of_N_to_N by (apply N.mod_lt; discriminate).
    rewrite IH.
    + rewrite N.add_comm. symmetry. apply N.div_mod. discriminate.
    + rewrite Nat2N.inj_succ, N.pow_succ_r' in H.
      apply N.Div0.div_lt_upper_bound. exact H.
Qed.

Lemma read_app (bytes rest : list Byte.byte) :
  read (List.length bytes) (bytes ++ rest) = Ok (bytes, rest).
Proof.
  unfold read. rewrite length_app.
  replace (List.length bytes <=? List.length bytes + List.length rest)
    with true by (symmetry; apply Nat.leb_le; lia).
  rewrite firstn_app, Nat.sub_diag, firstn_all, skipn_app, Nat.sub_diag,
    skipn_all. simpl. rewrite app_nil_r. reflexivity.
Qed.

Lemma read_le_bytes (count : nat) (n : N) (rest : list Byte.byte) :
  read count (le_bytes count n ++ rest) = Ok (le_bytes count n, rest).
Proof.
  rewrite <- (le_bytes_length count n) at 1. apply read_app.
Qed.

Lemma check_ok (cond : bool) (msg : string) (u : unit) :
  check cond msg = Ok u -> cond = true.
Proof. destruct cond; [reflexivity | discriminate]. Qed.

Lemma validate_parameters_ok (p : HESealEncryptionParameters) :
  validate_parameters p = Ok tt ->
  m_scheme_name p = "HE_SEAL"%string
  /\ In (poly_modulus_degree p) valid_poly_modulus
  /\ In (m_security_level p) valid_security_level
  /\ parameters_set (m_seal_encryption_parameters p) (m_security_level p)
     = true.
Proof.
  unfold validate_parameters. intro H.
  apply rbind_ok in H. destruct H as (u1 & C1 & H).
  apply rbind_ok in H. destruct H as (u2 & C2 & H).
  apply rbind_ok in H. destruct H as (u3 & C3 & C4).
  apply check_ok in C1, C2, C3, C4.
  split; [apply String.eqb_eq; exact C1|].
  split; [|split; [|exact C4]].
  - apply existsb_exists in C2. destruct C2 as (x & Hx & E).
    apply N.eqb_eq in E. rewrite E. exact Hx.
  - apply existsb_exists in C3. destruct C3 as (x & Hx & E).
    apply N.eqb_eq in E. rewrite E. exact Hx.
Qed.

(** X19.  Saving parameters and loading them again gives the parameters back,
    and leaves the rest of the stream: for parameters that pass
    [validate_parameters], given that their SEAL parameters load from what
    they save and that the scale is the [double] of its 64 bits. *)
Theorem load_returns_what_save_wrote
    (p : HESealEncryptionParameters) (rest : list Byte.byte) :
  seal_load (seal_save (m_seal_encryption_parameters p) ++ rest)
  = Ok (m_seal_encryption_parameters p, rest) ->
  double_of_bits (double_to_bits (m_scale p)) = m_scale p ->
  (double_to_bits (m_scale p) < 2 ^ 64)%N ->
  validate_parameters p = Ok tt ->
  load (save p ++ rest) = Ok (p, rest).
Proof.
  intros Hseal Hbits Hrange Hvalid.
  pose proof (validate_parameters_ok p Hvalid) as (Hname & _ & Hsec & _).
  unfold load, save. rewrite <- !app_assoc.
  rewrite read_le_bytes. cbn [rbind fst snd].
  rewrite le_value_le_bytes by exact Hrange. rewrite Hbits.
  cbn [app].
  change (read 1 ((if m_complex_packing p then Byte.x01 else Byte.x00)
                  :: le_bytes 8 (m_security_level p)
                     ++ seal_save (m_seal_encryption_parameters p) ++ rest))
    with (Ok ([if m_complex_packing p then Byte.x01 else Byte.x00],
              le_bytes 8 (m_security_level p)
              ++ seal_save (m_seal_encryption_parameters p) ++ rest)).
  cbn [rbind fst snd].
  rewrite read_le_bytes. cbn [rbind fst snd].
  rewrite le_value_le_bytes.
  - rewrite Hseal. cbn [rbind fst snd].
    unfold HESealEncryptionParameters_new.
    replace (negb (le_value [if m_complex_packing p then Byte.x01
                             else Byte.x00] =? 0)%N)
      with (m_complex_packing p)
      by (destruct (m_complex_packing p); reflexivity).
    rewrite <- Hname.
    replace {| m_scheme_name := m_scheme_name p;
               m_seal_encryption_parameters := m_seal_encryption_parameters p;
               m_security_level := m_security_level p;
               m_scale := m_scale p;
               m_complex_packing := m_complex_packing p |}
      with p by (destruct p; reflexivity).
    rewrite Hvalid. reflexivity.
  - simpl in Hsec.
    destruct Hsec as [<-|[<-|[<-|[<-|[]]]]]; reflexivity.
Qed.

(** X20.  Whatever the stream holds, parameters that [load] returns have passed
    [validate_parameters]: the scheme is HE_SEAL, the polynomial modulus
    degree is a power of two from 1024 to 32768 and the security level is 0,
    128, 192 or 256. *)
Theorem loaded_parameters_are_valid
    (stream rest : list Byte.byte) (p : HESealEncryptionParameters) :
  load stream = Ok (p, rest) ->
  validate_parameters p = Ok tt
  /\ m_scheme_name p = "HE_SEAL"%string
  /\ In (poly_modulus_degree p) valid_poly_modulus
  /\ In (m_security_level p) valid_security_level.
Proof.
  unfold load. intro H.
  apply rbind_ok in H. destruct H as (r1 & _ & H).
  apply rbind_ok in H. destruct H as (r2 & _ & H).
  apply rbind_ok in H. destruct H as (r3 & _ & H).
  apply rbind_ok in H. destruct H as (r4 & _ & H).
  apply rbind_ok in H. destruct H as (q & Hq & H).
  inversion H; subst q rest. clear H.
  unfold HESealEncryptionParameters_new in Hq.
  apply rbind_ok in Hq. destruct Hq as ([] & V & E).
  inversion E; subst p. clear E.
  split; [exact V|].
  apply validate_parameters_ok in V. destruct V as (A & B & C & _).
  auto.
Qed.

End ParameterFacts.

Lemma same_context_ignores_scale_packing_and_security_witness :
  @EncryptionParameters.same_context EncryptionParameters.toy_library
    EncryptionParameters.toy_parameters
    (@EncryptionParameters.Build_HESealEncryptionParameters
       EncryptionParameters.toy_library "HE_SEAL" 1024%N 0%N 7%N false)
  = true.
Proof.
  rewrite (@same_context_ignores_scale_packing_and_security
             EncryptionParameters.toy_library); reflexivity.
Defined.

Lemma load_returns_what_save_wrote_witness :
  @EncryptionParameters.load EncryptionParameters.toy_library
    (@EncryptionParameters.save EncryptionParameters.toy_library
       EncryptionParameters.toy_parameters ++ [Byte.x2a])
  = Ok (EncryptionParameters.toy_parameters, [Byte.x2a]).
Proof.
  apply (@load_returns_what_save_wrote EncryptionParameters.toy_library);
    reflexivity.
Defined.

Lemma loaded_parameters_are_valid_witness :
  In (@EncryptionParameters.poly_modulus_degree
        EncryptionParameters.toy_library EncryptionParameters.toy_parameters)
     EncryptionParameters.valid_poly_modulus.
Proof.
  apply (@loaded_parameters_are_valid EncryptionParameters.toy_library
           (@EncryptionParameters.save EncryptionParameters.toy_library
              EncryptionParameters.toy_parameters) []).
  vm_compute. reflexivity.
Defined.

(** * The session thread: keys and client inputs *)

Section OffloadResults.

Context {env : SealEnv}.

Lemma handle_message_parameters m st st' (u : unit) :
  handle_message m st = (st', Ok u) ->
  m_parameters st' = m_parameters st.
Proof.
  intro H. apply handle_message_cases in H. destruct H as [H|[H|H]].
  - subst. reflexivity.
  - unfold handle_relu_result in H. exec_inv H.
    match goal with
    | F : for_each _ _ _ = _ |- _ =>
        apply (for_each_preserves
                 (fun a b => m_parameters b = m_parameters a)) in F;
          [ simpl; exact F | reflexivity | intros; congruence |]
    end.
    intros x s s' v _ B. exec_inv B. reflexivity.
  - unfold handle_max_pool_result in H. exec_inv H. reflexivity.
Qed.

End OffloadResults.

Section RunFacts.

Import Session.

Context {env : SealEnv} {senv : SessionEnv}.

Lemma and_then_ok {A B} (c : Run A) (k : A -> Run B) s s' (b : B) :
  and_then c k s = (s', Ok b) ->
  exists s1 a, c s = (s1, Ok a) /\ k a s1 = (s', Ok b).
Proof.
  unfold and_then. destruct (c s) as [s1 [a|e]]; intro H.
  - exists s1, a. auto.
  - discriminate.
Qed.

Lemma done_ok {A} (a a' : A) s s' :
  done a s = (s', Ok a') -> s' = s /\ a' = a.
Proof. unfold done. intro H. inversion H. auto. Qed.

Lemma run_check_ok cond msg s s' (u : unit) :
  Session.check cond msg s = (s', Ok u) -> s' = s /\ cond = true.
Proof.
  unfold Session.check. destruct cond; intro H; inversion H. auto.
Qed.

Lemma update_ok f s s' (u : unit) :
  update f s = (s', Ok u) -> s' = f s.
Proof. unfold update. intro H. inversion H. auto. Qed.

Lemma returned_ok {A} (r : Result A) (a : A) s s' :
  returned r s = (s', Ok a) -> s' = s /\ r = Ok a.
Proof. unfold returned. intro H. inversion H. auto. Qed.

Lemma on_executable_ok {A} (c : Exec A) s s' (a : A) :
  on_executable c s = (s', Ok a) ->
  exists e, c (executable s) = (e, Ok a) /\ s' = with_executable s e.
Proof.
  unfold on_executable. destruct (c (executable s)) as [e r].
  intro H. inversion H; subst. exists e. auto.
Qed.

End RunFacts.

Ltac run_inv H :=
  lazymatch type of H with
  | Session.and_then _ _ _ = (_, Ok _) =>
      let s1 := fresh "s" in
      let a := fresh "a" in
      let H1 := fresh "H" in
      let H2 := fresh "H" in
      apply and_then_ok in H; destruct H as (s1 & a & H1 & H2);
      run_inv H1; run_inv H2
  | Session.done _ _ = (_, Ok _) =>
      apply done_ok in H; destruct H; subst
  | Session.returned _ _ = (_, Ok _) =>
      apply returned_ok in H;
      let E := fresh "E" in destruct H as [? E]; subst
  | Session.update _ _ = (_, Ok _) =>
      apply update_ok in H; subst
  | Session.check _ _ _ = (_, Ok _) =>
      apply run_check_ok in H;
      let E := fresh "C" in destruct H as [? E]; subst
  | _ => idtac
  end.

Section SessionFacts.

Import Session.

Context {env : SealEnv} {senv : SessionEnv}.

(** What handling one message does to the flags of the key exchange and to
    the session. *)
Lemma handle_message_step (message : KeyMessage) s s' (u : unit) :
  handle_message message s = (s', Ok u) ->
  m_parameters (executable s') = m_parameters (executable s)
  /\ (m_client_public_key_set s = true -> m_client_public_key_set s' = true)
  /\ (m_client_eval_key_set s = true -> m_client_eval_key_set s' = true)
  /\ ((m_session (executable s') = m_session (executable s)
       /\ m_sent_inference_shape s' = m_sent_inference_shape s)
      \/ (m_sent_inference_shape s = false
          /\ m_sent_inference_shape s' = true
          /\ m_client_public_key_set s' = true
          /\ m_client_eval_key_set s' = true
          /\ m_session (executable s')
             = m_session (executable s)
               ++ [write_message
                     (inference_shape_message
                        (m_parameters (executable s)))])).
Proof.
  unfold handle_message. intro H.
  destruct (msg_type (pb_message message)).
  - (* REQUEST *)
    unfold when in H.
    destruct (0 <? List.length (he_tensors (pb_message message))).
    + unfold handle_client_ciphers in H. run_inv H.
      match goal with
      | B : set_batch_size _ _ = _ |- _ =>
          unfold set_batch_size in B; run_inv B
      end.
      match goal with
      | B : match find_matching_parameter_index _ _ _ with _ => _ end = _
        |- _ =>
          destruct (find_matching_parameter_index _ _ _); [|discriminate];
          run_inv B
      end.
      match goal with
      | B : when ?c _ _ = _ |- _ => unfold when in B; destruct c; run_inv B
      end; simpl; intuition auto.
    + run_inv H. intuition auto.
  - (* RESPONSE *)
    run_inv H.
    match goal with
    | K1 : when (is_some (public_key message)) _ _ = (?s1, _),
      K2 : when (is_some (eval_key message)) _ _ = (?s2, _),
      K3 : when _ send_inference_shape _ = (?s3, _),
      K4 : on_executable _ _ = _ |- _ =>
        rename K1 into Hpk, K2 into Hevk, K3 into Hshape, K4 into Hfun;
        rename s1 into s_pk, s2 into s_evk, s3 into s_shape
    end.
    apply on_executable_ok in Hfun. destruct Hfun as (e & Hfun & ->).
    pose proof (handle_message_parameters _ _ Hfun) as Hparams.
    apply handle_message_frame in Hfun. destruct Hfun as (Hsession & _).
    assert (Pk : executable s_pk = executable s
                 /\ m_client_eval_key_set s_pk = m_client_eval_key_set s
                 /\ m_sent_inference_shape s_pk = m_sent_inference_shape s
                 /\ (m_client_public_key_set s = true ->
                     m_client_public_key_set s_pk = true)).
    { unfold when in Hpk. destruct (is_some (public_key message)).
      - unfold load_public_key in Hpk. run_inv Hpk. simpl. auto.
      - run_inv Hpk. auto. }
    assert (Evk : executable s_evk = executable s_pk
                  /\ m_client_public_key_set s_evk
                     = m_client_public_key_set s_pk
                  /\ m_sent_inference_shape s_evk
                     = m_sent_inference_shape s_pk
                  /\ (m_client_eval_key_set s_pk = true ->
                      m_client_eval_key_set s_evk = true)).
    { unfold when in Hevk. destruct (is_some (eval_key message)).
      - unfold load_eval_key in Hevk. run_inv Hevk. simpl. auto.
      - run_inv Hevk. auto. }
    destruct Pk as (Pe & Pv & Ps & Pp), Evk as (Ee & Ep & Es & Ev).
    unfold when in Hshape.
    destruct (negb (m_sent_inference_shape s_evk)
              && m_client_public_key_set s_evk
              && m_client_eval_key_set s_evk) eqn:G.
    + apply andb_prop in G. destruct G as [G Ge].
      apply andb_prop in G. destruct G as [Gs Gp].
      apply negb_true_iff in Gs.
      unfold send_inference_shape in Hshape. run_inv Hshape.
      match goal with
      | W : on_executable _ _ = _ |- _ =>
          apply on_executable_ok in W; destruct W as (e' & W & ->);
          exec_inv W
      end.
      simpl in *.
      split; [rewrite Hparams, Ee, Pe; reflexivity|].
      split; [intros _; exact Gp|]. split; [intros _; exact Ge|].
      right. rewrite Hsession. simpl. rewrite Ee, Pe.
      repeat split; congruence.
    + run_inv Hshape. simpl.
      split; [rewrite Hparams, Ee, Pe; reflexivity|].
      split; [intro K; rewrite Ep; apply Pp; exact K|].
      split; [intro K; apply Ev; rewrite Pv; exact K|].
      left. rewrite Hsession, Ee, Pe. split; congruence.
  - (* UNKNOWN *)
    run_inv H. discriminate.
Qed.

(** X21.  The session thread writes one message at most, whatever it receives:
    the inference shape, once, and only with the public key and the
    evaluation key both set.  After any messages handled without an
    exception, either the session log and [m_sent_inference_shape] are as
    before, or the flag went from unset to set, both keys are set, and the
    log has grown by the one message of [send_inference_shape], which names
    the parameters from the client in their order. *)
Theorem inference_shape_is_sent_once (messages : list KeyMessage) :
  forall s s' (u : unit),
    handle_messages messages s = (s', Ok u) ->
    (m_session (executable s') = m_session (executable s)
     /\ m_sent_inference_shape s' = m_sent_inference_shape s)
    \/ (m_sent_inference_shape s = false
        /\ m_sent_inference_shape s' = true
        /\ m_client_public_key_set s' = true
        /\ m_client_eval_key_set s' = true
        /\ m_session (executable s')
           = m_session (executable s)
             ++ [write_message
                   (inference_shape_message (m_parameters (executable s)))]).
Proof.
  assert (Keys : forall ms s s' (u : unit),
             handle_messages ms s = (s', Ok u) ->
             (m_client_public_key_set s = true ->
              m_client_public_key_set s' = true)
             /\ (m_client_eval_key_set s = true ->
                 m_client_eval_key_set s' = true)).
  { induction ms as [|m ms IH]; intros s s' u H.
    - simpl in H. run_inv H. auto.
    - cbn [handle_messages] in H. run_inv H.
      match goal with
      | A : handle_message _ _ = _, B : handle_messages _ _ = _ |- _ =>
          apply handle_message_step in A; destruct A as (_ & P & E & _);
          apply IH in B; destruct B as (P' & E')
      end.
      auto. }
  induction messages as [|m messages IH]; intros s s' u H.
  - simpl in H. run_inv H. left. auto.
  - cbn [handle_messages] in H. run_inv H.
    match goal with
    | A : handle_message _ _ = (?s1, _), B : handle_messages _ _ = _ |- _ =>
        pose proof (Keys _ _ _ _ B) as (Kp & Ke);
        apply handle_message_step in A; destruct A as (Pa & _ & _ & First);
        apply IH in B; rename B into Rest
    end.
    destruct First as [(As & Af)|(Af & Af' & Ap & Ae & As)];
      destruct Rest as [(Bs & Bf)|(Bf & Bf' & Bp & Be & Bs)].
    + left. split; [rewrite Bs; exact As | rewrite Bf; exact Af].
    + right. split; [rewrite <- Af; exact Bf|]. split; [exact Bf'|].
      split; [exact Bp|]. split; [exact Be|].
      rewrite Bs, As, Pa. reflexivity.
    + right. split; [exact Af|]. split; [rewrite Bf; exact Af'|].
      split; [apply Kp; exact Ap|]. split; [apply Ke; exact Ae|].
      rewrite Bs. exact As.
    + rewrite Af' in Bf. discriminate.
Qed.

(** X22.  A key flag is set only by a message that carries that key, whose bytes
    load: a [RESPONSE] handled without an exception that finds
    [m_client_public_key_set] unset and leaves it set carried a public key,
    and the backend holds the key loaded from it; the same for the
    evaluation key.  No other message sets either flag. *)
Theorem keys_come_from_the_messages_that_carry_them
    (message : KeyMessage) (s s' : Server) (u : unit) :
  handle_message message s = (s', Ok u) ->
  (m_client_public_key_set s = false ->
   m_client_public_key_set s' = true ->
   msg_type (pb_message message) = RESPONSE
   /\ exists pk_str key,
        public_key message = Some pk_str
        /\ public_key_load pk_str = Ok key
        /\ m_public_key s' = Some key)
  /\ (m_client_eval_key_set s = false ->
      m_client_eval_key_set s' = true ->
      msg_type (pb_message message) = RESPONSE
      /\ exists evk_str keys,
           eval_key message = Some evk_str
           /\ relin_keys_load evk_str = Ok keys
           /\ m_relin_keys s' = Some keys).
Proof.
  unfold handle_message. intro H.
  destruct (msg_type (pb_message message)).
  - (* REQUEST *)
    assert (Same : m_client_public_key_set s' = m_client_public_key_set s
                   /\ m_client_eval_key_set s' = m_client_eval_key_set s).
    { unfold when in H.
      destruct (0 <? List.length (he_tensors (pb_message message)));
        [|run_inv H; auto].
      unfold handle_client_ciphers in H. run_inv H.
      match goal with
      | B : set_batch_size _ _ = _ |- _ =>
          unfold set_batch_size in B; run_inv B
      end.
      match goal with
      | B : match find_matching_parameter_index _ _ _ with _ => _ end = _
        |- _ =>
          destruct (find_matching_parameter_index _ _ _); [|discriminate];
          run_inv B
      end.
      match goal with
      | B : when ?c _ _ = _ |- _ => unfold when in B; destruct c; run_inv B
      end; simpl; auto. }
    destruct Same as [P E]. split; intros A B; congruence.
  - (* RESPONSE *)
    run_inv H.
    match goal with
    | K1 : when (is_some (public_key message)) _ _ = (?s1, _),
      K2 : when (is_some (eval_key message)) _ _ = (?s2, _),
      K3 : when _ send_inference_shape _ = (?s3, _),
      K4 : on_executable _ _ = _ |- _ =>
        rename K1 into Hpk, K2 into Hevk, K3 into Hshape, K4 into Hfun;
        rename s1 into s_pk, s2 into s_evk, s3 into s_shape
    end.
    apply on_executable_ok in Hfun. destruct Hfun as (e & _ & ->).
    assert (Shape : m_client_public_key_set s_shape
                    = m_client_public_key_set s_evk
                    /\ m_client_eval_key_set s_shape
                       = m_client_eval_key_set s_evk
                    /\ m_public_key s_shape = m_public_key s_evk
                    /\ m_relin_keys s_shape = m_relin_keys s_evk).
    { unfold when in Hshape.
      destruct (negb (m_sent_inference_shape s_evk)
                && m_client_public_key_set s_evk
                && m_client_eval_key_set s_evk).
      - unfold send_inference_shape in Hshape. run_inv Hshape.
        match goal with
        | W : on_executable _ _ = _ |- _ =>
            apply on_executable_ok in W; destruct W as (e' & _ & ->)
        end.
        simpl. auto.
      - run_inv Hshape. auto. }
    destruct Shape as (Sp & Se & Spk & Srk). simpl.
    rewrite Sp, Se, Spk, Srk.
    unfold when in Hpk, Hevk.
    destruct (public_key message) as [pk_str|] eqn:Kp;
      destruct (eval_key message) as [evk_str|] eqn:Ke; simpl in Hpk, Hevk;
      try (unfold load_public_key in Hpk; rewrite Kp in Hpk);
      try (unfold load_eval_key in Hevk; rewrite Ke in Hevk);
      run_inv Hpk; run_inv Hevk; simpl;
      (split; intros A B; try congruence;
       (split; [reflexivity|]); eexists; eexists;
       (split; [reflexivity|]); (split; [eassumption | reflexivity])).
  - (* UNKNOWN *)
    run_inv H. discriminate.
Qed.

Lemma inputs_done_loading_true (parameters : list ParameterNode)
    (client_inputs : list (option HETensor)) :
  forall first,
    inputs_done_loading parameters client_inputs first = Ok true ->
    forall i p,
      nth_error parameters i = Some p -> from_client p = true ->
      exists tensor,
        nth_error client_inputs (first + i) = Some (Some tensor)
        /\ done_loading tensor = true.
Proof.
  induction parameters as [|q rest IH]; intros first H i p Hi Hp.
  - destruct i; discriminate.
  - cbn [inputs_done_loading] in H.
    assert (Hrest : forall j p',
               nth_error rest j = Some p' -> from_client p' = true ->
               inputs_done_loading rest client_inputs (S first) = Ok true ->
               exists tensor,
                 nth_error client_inputs (first + S j) = Some (Some tensor)
                 /\ done_loading tensor = true).
    { intros j p' Hj Hp' R. rewrite Nat.add_succ_r.
      apply (IH (S first) R j p' Hj Hp'). }
    destruct (from_client q) eqn:Fq.
    + apply rbind_ok in H. destruct H as (input & Hin & H).
      apply at_index_ok in Hin.
      destruct input as [tensor|]; [|discriminate].
      destruct (done_loading tensor) eqn:D; [|discriminate].
      simpl in H. destruct i as [|j].
      * exists tensor. rewrite Nat.add_0_r. auto.
      * simpl in Hi. apply (Hrest j p Hi Hp H).
    + destruct i as [|j].
      * simpl in Hi. inversion Hi; subst. congruence.
      * simpl in Hi. apply (Hrest j p Hi Hp H).
Qed.

(** X23.  The client's inputs count as received only when they are all there. A
    call of [handle_client_ciphers] that returns had a message with one
    tensor, has set the batch size to that of the tensor, which the slot
    count of the encoder bounds (twice the slot count under complex
    packing), and has left the executable alone; and if it has set
    [m_client_inputs_received], every parameter from the client has its
    tensor, loaded to the end. *)
Theorem client_inputs_are_complete_when_received
    (message : KeyMessage) (s s' : Server) (u : unit) :
  handle_client_ciphers message s = (s', Ok u) ->
  (exists pb_tensor,
     he_tensors (pb_message message) = [pb_tensor]
     /\ m_batch_size s'
        = HETensor_batch_size (pb_tensor_shape pb_tensor)
                              (pb_tensor_packed pb_tensor))
  /\ m_batch_size s'
     <= (if backend_complex_packing s then slot_count * 2 else slot_count)
  /\ executable s' = executable s
  /\ List.length (m_client_inputs s') = List.length (m_client_inputs s)
  /\ (m_client_inputs_received s = false ->
      m_client_inputs_received s' = true ->
      forall i p,
        nth_error (m_parameters (executable s)) i = Some p ->
        from_client p = true ->
        exists tensor,
          nth_error (m_client_inputs s') i = Some (Some tensor)
          /\ done_loading tensor = true).
Proof.
  intro H. unfold handle_client_ciphers in H. run_inv H.
  match goal with
  | B : set_batch_size _ _ = _ |- _ => unfold set_batch_size in B; run_inv B
  end.
  match goal with
  | B : match find_matching_parameter_index _ _ _ with _ => _ end = _ |- _ =>
      destruct (find_matching_parameter_index _ _ _) as [param_idx|];
        [|discriminate];
      run_inv B
  end.
  match goal with
  | L : (List.length _ =? 1) = true,
    P : at_index (he_tensors _) 0 = Ok ?pb,
    B : (_ <=? _) = true,
    A : assign _ _ _ = Ok ?inputs,
    D : inputs_done_loading _ _ _ = Ok ?all,
    W : when _ _ _ = _ |- _ =>
      apply Nat.eqb_eq in L; pose proof (singleton_of_length _ L P) as Hone;
      apply Nat.leb_le in B; apply assign_spec in A; destruct A as (AL & _);
      rename D into Hdone, W into Hwhen, pb into pb0, all into all_loaded
  end.
  cbn [m_client_inputs m_parameters executable with_batch_size] in *.
  unfold when in Hwhen. destruct all_loaded; run_inv Hwhen; simpl.
  - split; [exists pb0; auto|]. repeat split; try assumption.
    intros _ _ i p Hi Hp.
    apply (inputs_done_loading_true _ _ _ Hdone _ Hi Hp).
  - split; [exists pb0; auto|]. repeat split; try assumption.
    intros R R'. congruence.
Qed.

(** X24.  A message with more than one tensor, and a tensor that names no
    parameter, are rejected.  The first leaves the server as it was; the
    second has set the batch size by then. *)
Theorem client_tensors_are_checked (message : KeyMessage) (s : Server) :
  (1 < List.length (he_tensors (pb_message message)) ->
   handle_client_ciphers message s
   = (s, Err (CheckFailure "Client only supports 1 client tensor")))
  /\ (forall pb_tensor,
        he_tensors (pb_message message) = [pb_tensor] ->
        let batch_size :=
          HETensor_batch_size (pb_tensor_shape pb_tensor)
                              (pb_tensor_packed pb_tensor) in
        batch_size
        <= (if backend_complex_packing s then slot_count * 2
            else slot_count) ->
        find_matching_parameter_index (m_parameters (executable s))
                                      (pb_tensor_name pb_tensor) 0 = None ->
        handle_client_ciphers message s
        = (with_batch_size s batch_size,
           Err (CheckFailure "Could not find matching parameter name"))).
Proof.
  split.
  - intro H. unfold handle_client_ciphers, and_then, Session.check.
    destruct (he_tensors (pb_message message)) as [|a [|b l]];
      simpl in H; try lia. reflexivity.
  - intros pb T bs B F. subst bs.
    unfold handle_client_ciphers, and_then, Session.check, returned,
      set_batch_size, update.
    rewrite T. simpl. apply Nat.leb_le in B.
    unfold and_then, Session.check, update. rewrite B. simpl.
    rewrite F. reflexivity.
Qed.

End SessionFacts.

Lemma inference_shape_is_sent_once_witness :
  exists s',
    @Session.handle_messages toy_env Session.toy_session_env
      [Session.toy_keys_message; Session.toy_keys_message] Session.toy_server
    = (s', Ok tt)
    /\ m_session (Session.executable s')
       = [write_message
            (@Session.inference_shape_message toy_env Session.toy_session_env
               (m_parameters toy_client_executable))].
Proof.
  eexists. split; [vm_compute; reflexivity|].
  destruct (@inference_shape_is_sent_once toy_env Session.toy_session_env
              [Session.toy_keys_message; Session.toy_keys_message]
              Session.toy_server _ tt eq_refl)
    as [(_ & F)|(_ & _ & _ & _ & S)].
  - vm_compute in F. discriminate.
  - exact S.
Defined.

Lemma client_inputs_are_complete_when_received_witness :
  exists s' tensor,
    @Session.handle_client_ciphers toy_env Session.toy_session_env
      (Session.toy_inputs_message [toy_mixed_slots]) Session.toy_server = (s', Ok tt)
    /\ nth_error (Session.m_client_inputs s') 0 = Some (Some tensor)
    /\ Session.m_batch_size s' <= 4.
Proof.
  assert (H : exists s',
             @Session.handle_client_ciphers toy_env Session.toy_session_env
               (Session.toy_inputs_message [toy_mixed_slots]) Session.toy_server = (s', Ok tt)
             /\ Session.m_client_inputs_received s' = true).
  { eexists. split; vm_compute; reflexivity. }
  destruct H as (s' & H & R).
  destruct (@client_inputs_are_complete_when_received toy_env
              Session.toy_session_env _ _ _ _ H) as (_ & B & _ & _ & P).
  destruct (P eq_refl R 0 {| param_name := "x"; from_client := true |}
              eq_refl eq_refl) as (tensor & T & _).
  exists s', tensor. split; [exact H|]. split; [exact T | exact B].
Defined.

Lemma client_tensors_are_checked_witness :
  @Session.handle_client_ciphers toy_env Session.toy_session_env
    (Session.toy_inputs_message [toy_mixed_slots; toy_mixed_slots])
    Session.toy_server
  = (Session.toy_server,
     Err (CheckFailure "Client only supports 1 client tensor")).
Proof.
  apply (proj1 (@client_tensors_are_checked toy_env Session.toy_session_env
                  _ Session.toy_server)).
  simpl. lia.
Defined.

Lemma keys_come_from_the_messages_that_carry_them_witness :
  exists s',
    @Session.handle_message toy_env Session.toy_session_env
      Session.toy_keys_message Session.toy_server = (s', Ok tt)
    /\ exists pk_str key,
         Session.public_key Session.toy_keys_message = Some pk_str
         /\ @Session.public_key_load toy_env Session.toy_session_env pk_str
            = Ok key
         /\ Session.m_public_key s' = Some key.
Proof.
  assert (H : exists s',
             @Session.handle_message toy_env Session.toy_session_env
               Session.toy_keys_message Session.toy_server = (s', Ok tt)
             /\ Session.m_client_public_key_set s' = true).
  { eexists. split; vm_compute; reflexivity. }
  destruct H as (s' & H & F).
  exists s'. split; [exact H|].
  apply (proj1 (@keys_come_from_the_messages_that_carry_them toy_env
                  Session.toy_session_env _ _ _ _ H) eq_refl F).
Defined.
